(** * Mobile Inspection App (src/App.tsx): persistence and indexing layer

    A shallow embedding of the data-carrying part of [App.tsx]: the two
    structured collections kept in [localStorage], the photo blobs kept in
    IndexedDB, the passcode gate, the inspection timeline and the
    photo-URL cache.

    Modelling conventions.
    - A JavaScript string is a [string]: a sequence of code units below 256.
    - [Record<string, T>] objects are finite maps [gmap string T] over their
      own keys, with [Object.prototype] behind them: [Object_get] and
      [Object_set] are [o[k]] and [o[k] = v] with the inherited names.
    - [Date.now()] readings and the outcome of IndexedDB transactions come
      from the host; a handler receives them as explicit arguments.
    - An [async] handler runs to completion before the next one starts; a
      rejected promise is the [Rejected] outcome.
    - React state is a record; [useEffect(() => save(x), [x])] is folded
      into the setter of [x].
    - [JSON.stringify], [JSON.parse] and the time zone belong to the host
      and are parameters; [new Date(s)] is modelled for the strings of
      the date-time form [YYYY-MM-DDTHH:mm:ss] with a day of the calendar,
      [Array.prototype.sort] with a consistent comparison function as a
      stable insertion sort (a stable sort has one result, see
      [Array_sort_unique]); what the engine does with other strings and
      with other comparison functions is a parameter too ([Engine]). *)

From Stdlib Require Import ZArith NArith Lia Ascii String DecimalString DecimalN.
From Stdlib Require Import Sorting.Sorted Sorting.Permutation.
From stdpp Require Import base gmap strings list sorting.


(** ** JavaScript string helpers *)

Module JS.

(** White space removed by [String.prototype.trim], within the code
    units modelled: TAB, LF, VT, FF, CR, SPACE and NBSP. *)
Definition is_white (a : ascii) : bool :=
  match N_of_ascii a with
  | 9 | 10 | 11 | 12 | 13 | 32 | 160 => true
  | _ => false
  end%N.

Fixpoint trimStart (s : string) : string :=
  match s with
  | String a s' => if is_white a then trimStart s' else s
  | EmptyString => EmptyString
  end.

Definition trimEnd (s : string) : string :=
  String.rev (trimStart (String.rev s)).

Definition trim (s : string) : string := trimEnd (trimStart s).

(** Truthiness of a string: only the empty string is falsy. *)
Definition truthy (s : string) : bool :=
  match s with EmptyString => false | _ => true end.

(** [`${n}`] for a non-negative integer. *)
Definition decimal (n : N) : string :=
  DecimalString.NilZero.string_of_uint (N.to_uint n).

End JS.

(** ** Objects and their prototype *)

(** What [o[k]] finds on [Object.prototype] when the object [o] has no
    own property [k] (ECMAScript 20.1.3 and B.2.2): a built-in function,
    of which the model keeps the ["length"], or, for ["__proto__"], the
    prototype object itself. Each of them is truthy, has no property
    [createdAt], [filter] or [map], and is not iterable. *)
Inductive Builtin :=
  | BuiltinFunction (length : N)
  | BuiltinPrototype.

Definition Object_prototype : list (string * Builtin) :=
  [("constructor", BuiltinFunction 1);
   ("hasOwnProperty", BuiltinFunction 1);
   ("isPrototypeOf", BuiltinFunction 1);
   ("propertyIsEnumerable", BuiltinFunction 1);
   ("toLocaleString", BuiltinFunction 0);
   ("toString", BuiltinFunction 0);
   ("valueOf", BuiltinFunction 0);
   ("__defineGetter__", BuiltinFunction 2);
   ("__defineSetter__", BuiltinFunction 2);
   ("__lookupGetter__", BuiltinFunction 1);
   ("__lookupSetter__", BuiltinFunction 1);
   ("__proto__", BuiltinPrototype)].

Definition Object_prototype_get (k : string) : option Builtin :=
  snd <$> List.find (λ kv, String.eqb (fst kv) k) Object_prototype.

(** The value of [o[k]] for a collection [o], an object whose prototype
    is [Object.prototype] (such are the result of [JSON.parse], [{}] and
    the copy [{ ...o }]): an own property, an inherited one, or
    [undefined]. *)
Inductive Property (T : Type) :=
  | Own (v : T)
  | Inherited (b : Builtin)
  | Undefined.

Arguments Own {T} v.
Arguments Inherited {T} b.
Arguments Undefined {T}.

Definition Object_get {T : Type} (o : gmap string T) (k : string)
  : Property T :=
  match o !! k with
  | Some v => Own v
  | None =>
      match Object_prototype_get k with
      | Some b => Inherited b
      | None => Undefined
      end
  end.

(** [o[k] = v] for an object [v]: an own property is replaced; without
    one, the name ["__proto__"] reaches the setter of [Object.prototype],
    which makes [v] the prototype of [o] and adds no property; every
    other name becomes an own property. *)
Definition Object_set {T : Type} (o : gmap string T) (k : string) (v : T)
  : gmap string T :=
  match o !! k with
  | Some _ => <[k := v]> o
  | None => if String.eqb k "__proto__" then o else <[k := v]> o
  end.

(** [k] is not an own property of [o] and names a member of
    [Object.prototype]. *)
Definition inherited {T : Type} (o : gmap string T) (k : string) : bool :=
  match Object_get o k with Inherited _ => true | _ => false end.

Global Arguments Object_prototype_get : simpl never.
Global Arguments Object_get : simpl never.
Global Arguments Object_set : simpl never.
Global Arguments inherited : simpl never.

(** ** Data model *)

(** A [File] picked in the photo input: a [Blob] with a name. *)
Record File := { fileName : string; fileData : list Byte.byte }.

Module ProjectMeta.
Record t := {
  id : string;
  address : string;
  scope : string;
  createdAt : N;
  updatedAt : N;
}.
End ProjectMeta.

Module InspectionEntry.
Record t := {
  id : string;
  date : string;
  time : string;
  notes : string;
  photoKeys : list string;
  createdAt : N;
  updatedAt : N;
}.
End InspectionEntry.

Module DataForm.
Record t := { id : string; address : string; scope : string }.
End DataForm.

Inductive View :=
  | ViewAuth | ViewHome | ViewData | ViewInspection
  | ViewInspectionProject | ViewReport.

Inductive Toast :=
  | ToastError (msg : string)
  | ToastSuccess (msg : string).

Inductive IdbEvent :=
  | IdbPut (key : string) (ok : bool)
  | IdbGet (key : string).

Definition DB_NAME := "mobile-inspection-app".
Definition PHOTO_STORE := "photos".
Definition LS_PROJECTS_KEY := "mia.projects:v1".
Definition LS_INSPECTIONS_KEY := "mia.inspections:v1".
Definition LS_PASSCODE_HASH := "mia.passcode.hash:v1".

(** ** The state of the application and of its host *)

#[projections(primitive)]
Record State := {
  (** React state of [App], in the order of its [useState] calls. *)
  view : View;
  projects : gmap string ProjectMeta.t;
  inspections : gmap string (list InspectionEntry.t);
  dataDialogOpen : bool;
  inspectionDialogOpen : bool;
  reportDialogOpen : bool;
  dataForm : DataForm.t;
  inspectionId : string;
  reportId : string;
  reportDate : string;
  activeProjectId : option string;
  filterDate : option string;
  entryDate : string;
  entryTime : string;
  (** [notesRef.current?.value]: the text of the notes field when it is mounted. *)
  notesRef : option string;
  entryPhotos : list File;
  (** [fileInputRef.current?.value] *)
  fileInputRef : option string;
  photoURLCache : gmap string string;
  hasPasscode : bool;
  authed : bool;
  passcodeInput : string;
  passcodeConfirm : string;
  (** The host: [localStorage], the IndexedDB object store "photos",
      the number of object URLs handed out by [URL.createObjectURL], the
      IndexedDB transactions performed so far (newest first) and the toasts
      shown so far (newest first). *)
  localStorage : gmap string string;
  photoStore : gmap string File;
  objectURLs : N;
  idbLog : list IdbEvent;
  toasts : list Toast;
}.

(** Field updates. *)

Definition set_view (x : View) (st : State) : State :=
  {| view := x; projects := projects st; inspections := inspections st;
     dataDialogOpen := dataDialogOpen st;
     inspectionDialogOpen := inspectionDialogOpen st;
     reportDialogOpen := reportDialogOpen st; dataForm := dataForm st;
     inspectionId := inspectionId st; reportId := reportId st;
     reportDate := reportDate st; activeProjectId := activeProjectId st;
     filterDate := filterDate st; entryDate := entryDate st;
     entryTime := entryTime st; notesRef := notesRef st;
     entryPhotos := entryPhotos st; fileInputRef := fileInputRef st;
     photoURLCache := photoURLCache st; hasPasscode := hasPasscode st;
     authed := authed st; passcodeInput := passcodeInput st;
     passcodeConfirm := passcodeConfirm st; localStorage := localStorage st;
     photoStore := photoStore st; objectURLs := objectURLs st;
     idbLog := idbLog st; toasts := toasts st |}.

Definition set_projects (x : gmap string ProjectMeta.t) (st : State) : State :=
  {| view := view st; projects := x; inspections := inspections st;
     dataDialogOpen := dataDialogOpen st;
     inspectionDialogOpen := inspectionDialogOpen st;
     reportDialogOpen := reportDialogOpen st; dataForm := dataForm st;
     inspectionId := inspectionId st; reportId := reportId st;
     reportDate := reportDate st; activeProjectId := activeProjectId st;
     filterDate := filterDate st; entryDate := entryDate st;
     entryTime := entryTime st; notesRef := notesRef st;
     entryPhotos := entryPhotos st; fileInputRef := fileInputRef st;
     photoURLCache := photoURLCache st; hasPasscode := hasPasscode st;
     authed := authed st; passcodeInput := passcodeInput st;
     passcodeConfirm := passcodeConfirm st; localStorage := localStorage st;
     photoStore := photoStore st; objectURLs := objectURLs st;
     idbLog := idbLog st; toasts := toasts st |}.

Definition set_inspections (x : gmap string (list InspectionEntry.t)) (st : State) : State :=
  {| view := view st; projects := projects st; inspections := x;
     dataDialogOpen := dataDialogOpen st;
     inspectionDialogOpen := inspectionDialogOpen st;
     reportDialogOpen := reportDialogOpen st; dataForm := dataForm st;
     inspectionId := inspectionId st; reportId := reportId st;
     reportDate := reportDate st; activeProjectId := activeProjectId st;
     filterDate := filterDate st; entryDate := entryDate st;
     entryTime := entryTime st; notesRef := notesRef st;
     entryPhotos := entryPhotos st; fileInputRef := fileInputRef st;
     photoURLCache := photoURLCache st; hasPasscode := hasPasscode st;
     authed := authed st; passcodeInput := passcodeInput st;
     passcodeConfirm := passcodeConfirm st; localStorage := localStorage st;
     photoStore := photoStore st; objectURLs := objectURLs st;
     idbLog := idbLog st; toasts := toasts st |}.

Definition set_dataDialogOpen (x : bool) (st : State) : State :=
  {| view := view st; projects := projects st; inspections := inspections st;
     dataDialogOpen := x; inspectionDialogOpen := inspectionDialogOpen st;
     reportDialogOpen := reportDialogOpen st; dataForm := dataForm st;
     inspectionId := inspectionId st; reportId := reportId st;
     reportDate := reportDate st; activeProjectId := activeProjectId st;
     filterDate := filterDate st; entryDate := entryDate st;
     entryTime := entryTime st; notesRef := notesRef st;
     entryPhotos := entryPhotos st; fileInputRef := fileInputRef st;
     photoURLCache := photoURLCache st; hasPasscode := hasPasscode st;
     authed := authed st; passcodeInput := passcodeInput st;
     passcodeConfirm := passcodeConfirm st; localStorage := localStorage st;
     photoStore := photoStore st; objectURLs := objectURLs st;
     idbLog := idbLog st; toasts := toasts st |}.

Definition set_inspectionDialogOpen (x : bool) (st : State) : State :=
  {| view := view st; projects := projects st; inspections := inspections st;
     dataDialogOpen := dataDialogOpen st; inspectionDialogOpen := x;
     reportDialogOpen := reportDialogOpen st; dataForm := dataForm st;
     inspectionId := inspectionId st; reportId := reportId st;
     reportDate := reportDate st; activeProjectId := activeProjectId st;
     filterDate := filterDate st; entryDate := entryDate st;
     entryTime := entryTime st; notesRef := notesRef st;
     entryPhotos := entryPhotos st; fileInputRef := fileInputRef st;
     photoURLCache := photoURLCache st; hasPasscode := hasPasscode st;
     authed := authed st; passcodeInput := passcodeInput st;
     passcodeConfirm := passcodeConfirm st; localStorage := localStorage st;
     photoStore := photoStore st; objectURLs := objectURLs st;
     idbLog := idbLog st; toasts := toasts st |}.

Definition set_reportDialogOpen (x : bool) (st : State) : State :=
  {| view := view st; projects := projects st; inspections := inspections st;
     dataDialogOpen := dataDialogOpen st;
     inspectionDialogOpen := inspectionDialogOpen st; reportDialogOpen := x;
     dataForm := dataForm st; inspectionId := inspectionId st;
     reportId := reportId st; reportDate := reportDate st;
     activeProjectId := activeProjectId st; filterDate := filterDate st;
     entryDate := entryDate st; entryTime := entryTime st;
     notesRef := notesRef st; entryPhotos := entryPhotos st;
     fileInputRef := fileInputRef st; photoURLCache := photoURLCache st;
     hasPasscode := hasPasscode st; authed := authed st;
     passcodeInput := passcodeInput st;
     passcodeConfirm := passcodeConfirm st; localStorage := localStorage st;
     photoStore := photoStore st; objectURLs := objectURLs st;
     idbLog := idbLog st; toasts := toasts st |}.

Definition set_dataForm (x : DataForm.t) (st : State) : State :=
  {| view := view st; projects := projects st; inspections := inspections st;
     dataDialogOpen := dataDialogOpen st;
     inspectionDialogOpen := inspectionDialogOpen st;
     reportDialogOpen := reportDialogOpen st; dataForm := x;
     inspectionId := inspectionId st; reportId := reportId st;
     reportDate := reportDate st; activeProjectId := activeProjectId st;
     filterDate := filterDate st; entryDate := entryDate st;
     entryTime := entryTime st; notesRef := notesRef st;
     entryPhotos := entryPhotos st; fileInputRef := fileInputRef st;
     photoURLCache := photoURLCache st; hasPasscode := hasPasscode st;
     authed := authed st; passcodeInput := passcodeInput st;
     passcodeConfirm := passcodeConfirm st; localStorage := localStorage st;
     photoStore := photoStore st; objectURLs := objectURLs st;
     idbLog := idbLog st; toasts := toasts st |}.

Definition set_inspectionId (x : string) (st : State) : State :=
  {| view := view st; projects := projects st; inspections := inspections st;
     dataDialogOpen := dataDialogOpen st;
     inspectionDialogOpen := inspectionDialogOpen st;
     reportDialogOpen := reportDialogOpen st; dataForm := dataForm st;
     inspectionId := x; reportId := reportId st; reportDate := reportDate st;
     activeProjectId := activeProjectId st; filterDate := filterDate st;
     entryDate := entryDate st; entryTime := entryTime st;
     notesRef := notesRef st; entryPhotos := entryPhotos st;
     fileInputRef := fileInputRef st; photoURLCache := photoURLCache st;
     hasPasscode := hasPasscode st; authed := authed st;
     passcodeInput := passcodeInput st;
     passcodeConfirm := passcodeConfirm st; localStorage := localStorage st;
     photoStore := photoStore st; objectURLs := objectURLs st;
     idbLog := idbLog st; toasts := toasts st |}.

Definition set_activeProjectId (x : option string) (st : State) : State :=
  {| view := view st; projects := projects st; inspections := inspections st;
     dataDialogOpen := dataDialogOpen st;
     inspectionDialogOpen := inspectionDialogOpen st;
     reportDialogOpen := reportDialogOpen st; dataForm := dataForm st;
     inspectionId := inspectionId st; reportId := reportId st;
     reportDate := reportDate st; activeProjectId := x;
     filterDate := filterDate st; entryDate := entryDate st;
     entryTime := entryTime st; notesRef := notesRef st;
     entryPhotos := entryPhotos st; fileInputRef := fileInputRef st;
     photoURLCache := photoURLCache st; hasPasscode := hasPasscode st;
     authed := authed st; passcodeInput := passcodeInput st;
     passcodeConfirm := passcodeConfirm st; localStorage := localStorage st;
     photoStore := photoStore st; objectURLs := objectURLs st;
     idbLog := idbLog st; toasts := toasts st |}.

Definition set_filterDate (x : option string) (st : State) : State :=
  {| view := view st; projects := projects st; inspections := inspections st;
     dataDialogOpen := dataDialogOpen st;
     inspectionDialogOpen := inspectionDialogOpen st;
     reportDialogOpen := reportDialogOpen st; dataForm := dataForm st;
     inspectionId := inspectionId st; reportId := reportId st;
     reportDate := reportDate st; activeProjectId := activeProjectId st;
     filterDate := x; entryDate := entryDate st; entryTime := entryTime st;
     notesRef := notesRef st; entryPhotos := entryPhotos st;
     fileInputRef := fileInputRef st; photoURLCache := photoURLCache st;
     hasPasscode := hasPasscode st; authed := authed st;
     passcodeInput := passcodeInput st;
     passcodeConfirm := passcodeConfirm st; localStorage := localStorage st;
     photoStore := photoStore st; objectURLs := objectURLs st;
     idbLog := idbLog st; toasts := toasts st |}.

Definition set_notesRef (x : option string) (st : State) : State :=
  {| view := view st; projects := projects st; inspections := inspections st;
     dataDialogOpen := dataDialogOpen st;
     inspectionDialogOpen := inspectionDialogOpen st;
     reportDialogOpen := reportDialogOpen st; dataForm := dataForm st;
     inspectionId := inspectionId st; reportId := reportId st;
     reportDate := reportDate st; activeProjectId := activeProjectId st;
     filterDate := filterDate st; entryDate := entryDate st;
     entryTime := entryTime st; notesRef := x; entryPhotos := entryPhotos st;
     fileInputRef := fileInputRef st; photoURLCache := photoURLCache st;
     hasPasscode := hasPasscode st; authed := authed st;
     passcodeInput := passcodeInput st;
     passcodeConfirm := passcodeConfirm st; localStorage := localStorage st;
     photoStore := photoStore st; objectURLs := objectURLs st;
     idbLog := idbLog st; toasts := toasts st |}.

Definition set_entryPhotos (x : list File) (st : State) : State :=
  {| view := view st; projects := projects st; inspections := inspections st;
     dataDialogOpen := dataDialogOpen st;
     inspectionDialogOpen := inspectionDialogOpen st;
     reportDialogOpen := reportDialogOpen st; dataForm := dataForm st;
     inspectionId := inspectionId st; reportId := reportId st;
     reportDate := reportDate st; activeProjectId := activeProjectId st;
     filterDate := filterDate st; entryDate := entryDate st;
     entryTime := entryTime st; notesRef := notesRef st; entryPhotos := x;
     fileInputRef := fileInputRef st; photoURLCache := photoURLCache st;
     hasPasscode := hasPasscode st; authed := authed st;
     passcodeInput := passcodeInput st;
     passcodeConfirm := passcodeConfirm st; localStorage := localStorage st;
     photoStore := photoStore st; objectURLs := objectURLs st;
     idbLog := idbLog st; toasts := toasts st |}.

Definition set_fileInputRef (x : option string) (st : State) : State :=
  {| view := view st; projects := projects st; inspections := inspections st;
     dataDialogOpen := dataDialogOpen st;
     inspectionDialogOpen := inspectionDialogOpen st;
     reportDialogOpen := reportDialogOpen st; dataForm := dataForm st;
     inspectionId := inspectionId st; reportId := reportId st;
     reportDate := reportDate st; activeProjectId := activeProjectId st;
     filterDate := filterDate st; entryDate := entryDate st;
     entryTime := entryTime st; notesRef := notesRef st;
     entryPhotos := entryPhotos st; fileInputRef := x;
     photoURLCache := photoURLCache st; hasPasscode := hasPasscode st;
     authed := authed st; passcodeInput := passcodeInput st;
     passcodeConfirm := passcodeConfirm st; localStorage := localStorage st;
     photoStore := photoStore st; objectURLs := objectURLs st;
     idbLog := idbLog st; toasts := toasts st |}.

Definition set_photoURLCache (x : gmap string string) (st : State) : State :=
  {| view := view st; projects := projects st; inspections := inspections st;
     dataDialogOpen := dataDialogOpen st;
     inspectionDialogOpen := inspectionDialogOpen st;
     reportDialogOpen := reportDialogOpen st; dataForm := dataForm st;
     inspectionId := inspectionId st; reportId := reportId st;
     reportDate := reportDate st; activeProjectId := activeProjectId st;
     filterDate := filterDate st; entryDate := entryDate st;
     entryTime := entryTime st; notesRef := notesRef st;
     entryPhotos := entryPhotos st; fileInputRef := fileInputRef st;
     photoURLCache := x; hasPasscode := hasPasscode st; authed := authed st;
     passcodeInput := passcodeInput st;
     passcodeConfirm := passcodeConfirm st; localStorage := localStorage st;
     photoStore := photoStore st; objectURLs := objectURLs st;
     idbLog := idbLog st; toasts := toasts st |}.

Definition set_hasPasscode (x : bool) (st : State) : State :=
  {| view := view st; projects := projects st; inspections := inspections st;
     dataDialogOpen := dataDialogOpen st;
     inspectionDialogOpen := inspectionDialogOpen st;
     reportDialogOpen := reportDialogOpen st; dataForm := dataForm st;
     inspectionId := inspectionId st; reportId := reportId st;
     reportDate := reportDate st; activeProjectId := activeProjectId st;
     filterDate := filterDate st; entryDate := entryDate st;
     entryTime := entryTime st; notesRef := notesRef st;
     entryPhotos := entryPhotos st; fileInputRef := fileInputRef st;
     photoURLCache := photoURLCache st; hasPasscode := x;
     authed := authed st; passcodeInput := passcodeInput st;
     passcodeConfirm := passcodeConfirm st; localStorage := localStorage st;
     photoStore := photoStore st; objectURLs := objectURLs st;
     idbLog := idbLog st; toasts := toasts st |}.

Definition set_authed (x : bool) (st : State) : State :=
  {| view := view st; projects := projects st; inspections := inspections st;
     dataDialogOpen := dataDialogOpen st;
     inspectionDialogOpen := inspectionDialogOpen st;
     reportDialogOpen := reportDialogOpen st; dataForm := dataForm st;
     inspectionId := inspectionId st; reportId := reportId st;
     reportDate := reportDate st; activeProjectId := activeProjectId st;
     filterDate := filterDate st; entryDate := entryDate st;
     entryTime := entryTime st; notesRef := notesRef st;
     entryPhotos := entryPhotos st; fileInputRef := fileInputRef st;
     photoURLCache := photoURLCache st; hasPasscode := hasPasscode st;
     authed := x; passcodeInput := passcodeInput st;
     passcodeConfirm := passcodeConfirm st; localStorage := localStorage st;
     photoStore := photoStore st; objectURLs := objectURLs st;
     idbLog := idbLog st; toasts := toasts st |}.

Definition set_passcodeInput (x : string) (st : State) : State :=
  {| view := view st; projects := projects st; inspections := inspections st;
     dataDialogOpen := dataDialogOpen st;
     inspectionDialogOpen := inspectionDialogOpen st;
     reportDialogOpen := reportDialogOpen st; dataForm := dataForm st;
     inspectionId := inspectionId st; reportId := reportId st;
     reportDate := reportDate st; activeProjectId := activeProjectId st;
     filterDate := filterDate st; entryDate := entryDate st;
     entryTime := entryTime st; notesRef := notesRef st;
     entryPhotos := entryPhotos st; fileInputRef := fileInputRef st;
     photoURLCache := photoURLCache st; hasPasscode := hasPasscode st;
     authed := authed st; passcodeInput := x;
     passcodeConfirm := passcodeConfirm st; localStorage := localStorage st;
     photoStore := photoStore st; objectURLs := objectURLs st;
     idbLog := idbLog st; toasts := toasts st |}.

Definition set_localStorage (x : gmap string string) (st : State) : State :=
  {| view := view st; projects := projects st; inspections := inspections st;
     dataDialogOpen := dataDialogOpen st;
     inspectionDialogOpen := inspectionDialogOpen st;
     reportDialogOpen := reportDialogOpen st; dataForm := dataForm st;
     inspectionId := inspectionId st; reportId := reportId st;
     reportDate := reportDate st; activeProjectId := activeProjectId st;
     filterDate := filterDate st; entryDate := entryDate st;
     entryTime := entryTime st; notesRef := notesRef st;
     entryPhotos := entryPhotos st; fileInputRef := fileInputRef st;
     photoURLCache := photoURLCache st; hasPasscode := hasPasscode st;
     authed := authed st; passcodeInput := passcodeInput st;
     passcodeConfirm := passcodeConfirm st; localStorage := x;
     photoStore := photoStore st; objectURLs := objectURLs st;
     idbLog := idbLog st; toasts := toasts st |}.

Definition set_photoStore (x : gmap string File) (st : State) : State :=
  {| view := view st; projects := projects st; inspections := inspections st;
     dataDialogOpen := dataDialogOpen st;
     inspectionDialogOpen := inspectionDialogOpen st;
     reportDialogOpen := reportDialogOpen st; dataForm := dataForm st;
     inspectionId := inspectionId st; reportId := reportId st;
     reportDate := reportDate st; activeProjectId := activeProjectId st;
     filterDate := filterDate st; entryDate := entryDate st;
     entryTime := entryTime st; notesRef := notesRef st;
     entryPhotos := entryPhotos st; fileInputRef := fileInputRef st;
     photoURLCache := photoURLCache st; hasPasscode := hasPasscode st;
     authed := authed st; passcodeInput := passcodeInput st;
     passcodeConfirm := passcodeConfirm st; localStorage := localStorage st;
     photoStore := x; objectURLs := objectURLs st; idbLog := idbLog st;
     toasts := toasts st |}.

Definition set_objectURLs (x : N) (st : State) : State :=
  {| view := view st; projects := projects st; inspections := inspections st;
     dataDialogOpen := dataDialogOpen st;
     inspectionDialogOpen := inspectionDialogOpen st;
     reportDialogOpen := reportDialogOpen st; dataForm := dataForm st;
     inspectionId := inspectionId st; reportId := reportId st;
     reportDate := reportDate st; activeProjectId := activeProjectId st;
     filterDate := filterDate st; entryDate := entryDate st;
     entryTime := entryTime st; notesRef := notesRef st;
     entryPhotos := entryPhotos st; fileInputRef := fileInputRef st;
     photoURLCache := photoURLCache st; hasPasscode := hasPasscode st;
     authed := authed st; passcodeInput := passcodeInput st;
     passcodeConfirm := passcodeConfirm st; localStorage := localStorage st;
     photoStore := photoStore st; objectURLs := x; idbLog := idbLog st;
     toasts := toasts st |}.

Definition set_idbLog (x : list IdbEvent) (st : State) : State :=
  {| view := view st; projects := projects st; inspections := inspections st;
     dataDialogOpen := dataDialogOpen st;
     inspectionDialogOpen := inspectionDialogOpen st;
     reportDialogOpen := reportDialogOpen st; dataForm := dataForm st;
     inspectionId := inspectionId st; reportId := reportId st;
     reportDate := reportDate st; activeProjectId := activeProjectId st;
     filterDate := filterDate st; entryDate := entryDate st;
     entryTime := entryTime st; notesRef := notesRef st;
     entryPhotos := entryPhotos st; fileInputRef := fileInputRef st;
     photoURLCache := photoURLCache st; hasPasscode := hasPasscode st;
     authed := authed st; passcodeInput := passcodeInput st;
     passcodeConfirm := passcodeConfirm st; localStorage := localStorage st;
     photoStore := photoStore st; objectURLs := objectURLs st; idbLog := x;
     toasts := toasts st |}.

Definition set_toasts (x : list Toast) (st : State) : State :=
  {| view := view st; projects := projects st; inspections := inspections st;
     dataDialogOpen := dataDialogOpen st;
     inspectionDialogOpen := inspectionDialogOpen st;
     reportDialogOpen := reportDialogOpen st; dataForm := dataForm st;
     inspectionId := inspectionId st; reportId := reportId st;
     reportDate := reportDate st; activeProjectId := activeProjectId st;
     filterDate := filterDate st; entryDate := entryDate st;
     entryTime := entryTime st; notesRef := notesRef st;
     entryPhotos := entryPhotos st; fileInputRef := fileInputRef st;
     photoURLCache := photoURLCache st; hasPasscode := hasPasscode st;
     authed := authed st; passcodeInput := passcodeInput st;
     passcodeConfirm := passcodeConfirm st; localStorage := localStorage st;
     photoStore := photoStore st; objectURLs := objectURLs st;
     idbLog := idbLog st; toasts := x |}.

Definition set_entryDate (x : string) (st : State) : State :=
  {| view := view st; projects := projects st; inspections := inspections st;
     dataDialogOpen := dataDialogOpen st;
     inspectionDialogOpen := inspectionDialogOpen st;
     reportDialogOpen := reportDialogOpen st; dataForm := dataForm st;
     inspectionId := inspectionId st; reportId := reportId st;
     reportDate := reportDate st; activeProjectId := activeProjectId st;
     filterDate := filterDate st; entryDate := x; entryTime := entryTime st;
     notesRef := notesRef st; entryPhotos := entryPhotos st;
     fileInputRef := fileInputRef st; photoURLCache := photoURLCache st;
     hasPasscode := hasPasscode st; authed := authed st;
     passcodeInput := passcodeInput st;
     passcodeConfirm := passcodeConfirm st; localStorage := localStorage st;
     photoStore := photoStore st; objectURLs := objectURLs st;
     idbLog := idbLog st; toasts := toasts st |}.

Definition set_entryTime (x : string) (st : State) : State :=
  {| view := view st; projects := projects st; inspections := inspections st;
     dataDialogOpen := dataDialogOpen st;
     inspectionDialogOpen := inspectionDialogOpen st;
     reportDialogOpen := reportDialogOpen st; dataForm := dataForm st;
     inspectionId := inspectionId st; reportId := reportId st;
     reportDate := reportDate st; activeProjectId := activeProjectId st;
     filterDate := filterDate st; entryDate := entryDate st; entryTime := x;
     notesRef := notesRef st; entryPhotos := entryPhotos st;
     fileInputRef := fileInputRef st; photoURLCache := photoURLCache st;
     hasPasscode := hasPasscode st; authed := authed st;
     passcodeInput := passcodeInput st;
     passcodeConfirm := passcodeConfirm st; localStorage := localStorage st;
     photoStore := photoStore st; objectURLs := objectURLs st;
     idbLog := idbLog st; toasts := toasts st |}.

Definition set_passcodeConfirm (x : string) (st : State) : State :=
  {| view := view st; projects := projects st; inspections := inspections st;
     dataDialogOpen := dataDialogOpen st;
     inspectionDialogOpen := inspectionDialogOpen st;
     reportDialogOpen := reportDialogOpen st; dataForm := dataForm st;
     inspectionId := inspectionId st; reportId := reportId st;
     reportDate := reportDate st; activeProjectId := activeProjectId st;
     filterDate := filterDate st; entryDate := entryDate st;
     entryTime := entryTime st; notesRef := notesRef st;
     entryPhotos := entryPhotos st; fileInputRef := fileInputRef st;
     photoURLCache := photoURLCache st; hasPasscode := hasPasscode st;
     authed := authed st; passcodeInput := passcodeInput st;
     passcodeConfirm := x; localStorage := localStorage st;
     photoStore := photoStore st; objectURLs := objectURLs st;
     idbLog := idbLog st; toasts := toasts st |}.

Definition set_reportId (x : string) (st : State) : State :=
  {| view := view st; projects := projects st; inspections := inspections st;
     dataDialogOpen := dataDialogOpen st;
     inspectionDialogOpen := inspectionDialogOpen st;
     reportDialogOpen := reportDialogOpen st; dataForm := dataForm st;
     inspectionId := inspectionId st; reportId := x;
     reportDate := reportDate st; activeProjectId := activeProjectId st;
     filterDate := filterDate st; entryDate := entryDate st;
     entryTime := entryTime st; notesRef := notesRef st;
     entryPhotos := entryPhotos st; fileInputRef := fileInputRef st;
     photoURLCache := photoURLCache st; hasPasscode := hasPasscode st;
     authed := authed st; passcodeInput := passcodeInput st;
     passcodeConfirm := passcodeConfirm st; localStorage := localStorage st;
     photoStore := photoStore st; objectURLs := objectURLs st;
     idbLog := idbLog st; toasts := toasts st |}.

Definition set_reportDate (x : string) (st : State) : State :=
  {| view := view st; projects := projects st; inspections := inspections st;
     dataDialogOpen := dataDialogOpen st;
     inspectionDialogOpen := inspectionDialogOpen st;
     reportDialogOpen := reportDialogOpen st; dataForm := dataForm st;
     inspectionId := inspectionId st; reportId := reportId st;
     reportDate := x; activeProjectId := activeProjectId st;
     filterDate := filterDate st; entryDate := entryDate st;
     entryTime := entryTime st; notesRef := notesRef st;
     entryPhotos := entryPhotos st; fileInputRef := fileInputRef st;
     photoURLCache := photoURLCache st; hasPasscode := hasPasscode st;
     authed := authed st; passcodeInput := passcodeInput st;
     passcodeConfirm := passcodeConfirm st; localStorage := localStorage st;
     photoStore := photoStore st; objectURLs := objectURLs st;
     idbLog := idbLog st; toasts := toasts st |}.

(** ** Host primitives used by [sha256Base64] *)

Module Sha256.

Local Open Scope N_scope.

Definition w32 (x : N) : N := x mod 2 ^ 32.
Definition add32 (x y : N) : N := w32 (x + y).
Definition rotr (n x : N) : N :=
  N.lor (N.shiftr x n) (w32 (N.shiftl x (32 - n))).
Definition shr (n x : N) : N := N.shiftr x n.

Definition Ch (x y z : N) : N :=
  N.lxor (N.land x y) (N.land (N.lxor x (N.ones 32)) z).
Definition Maj (x y z : N) : N :=
  N.lxor (N.lxor (N.land x y) (N.land x z)) (N.land y z).
Definition Sigma0 (x : N) := N.lxor (N.lxor (rotr 2 x) (rotr 13 x)) (rotr 22 x).
Definition Sigma1 (x : N) := N.lxor (N.lxor (rotr 6 x) (rotr 11 x)) (rotr 25 x).
Definition sigma0 (x : N) := N.lxor (N.lxor (rotr 7 x) (rotr 18 x)) (shr 3 x).
Definition sigma1 (x : N) := N.lxor (N.lxor (rotr 17 x) (rotr 19 x)) (shr 10 x).

(** The round constants are the first 32 bits of the fractional parts of
    the cube roots of the first 64 primes; the initial hash value comes
    from the square roots of the first 8 primes (FIPS 180-4, 4.2.2 and
    5.3.3). *)
Definition primes : list N :=
  [2; 3; 5; 7; 11; 13; 17; 19; 23; 29; 31; 37; 41; 43; 47; 53; 59; 61; 67;
   71; 73; 79; 83; 89; 97; 101; 103; 107; 109; 113; 127; 131; 137; 139;
   149; 151; 157; 163; 167; 173; 179; 181; 191; 193; 197; 199; 211; 223;
   227; 229; 233; 239; 241; 251; 257; 263; 269; 271; 277; 281; 283; 293;
   307; 311].

Fixpoint cbrt_bits (fuel : nat) (n r : N) : N :=
  match fuel with
  | O => r
  | S k =>
      let c := r + 2 ^ N.of_nat k in
      cbrt_bits k n (if c * c * c <=? n then c else r)
  end.

Definition K : list N :=
  Eval vm_compute in
    map (fun p => w32 (cbrt_bits 40 (p * 2 ^ 96) 0)) primes.

Definition H0 : list N :=
  Eval vm_compute in
    map (fun p => w32 (N.sqrt (p * 2 ^ 64))) (firstn 8 primes).

(** Padding: a 1 bit, zeros up to 56 mod 64 bytes, the bit length on 8
    bytes, most significant first. *)
Fixpoint be_bytes (count : nat) (x : N) : list N :=
  match count with
  | O => []
  | S k => N.shiftr x (8 * N.of_nat k) mod 256 :: be_bytes k x
  end.

Definition pad (msg : list N) : list N :=
  let len := N.of_nat (length msg) in
  let zeros := N.to_nat ((119 - len mod 64) mod 64) in
  msg ++ 128 :: repeat 0 zeros ++ be_bytes 8 (8 * len).

Fixpoint be_words (bytes : list N) : list N :=
  match bytes with
  | b0 :: b1 :: b2 :: b3 :: rest =>
      (((b0 * 256 + b1) * 256 + b2) * 256 + b3) :: be_words rest
  | _ => []
  end.

(** The message schedule, kept newest first. *)
Fixpoint schedule (count : nat) (rev_w : list N) : list N :=
  match count with
  | O => rev_w
  | S k =>
      let w i := nth i rev_w 0 in
      schedule k
        (add32 (add32 (sigma1 (w 1%nat)) (w 6%nat))
               (add32 (sigma0 (w 14%nat)) (w 15%nat)) :: rev_w)
  end.

Record regs := { ra : N; rb : N; rc : N; rd : N; re : N; rf : N; rg : N; rh : N }.

Definition round (s : regs) (kw : N * N) : regs :=
  let t1 := add32 (add32 (add32 (rh s) (Sigma1 (re s)))
                         (add32 (Ch (re s) (rf s) (rg s)) (fst kw))) (snd kw) in
  let t2 := add32 (Sigma0 (ra s)) (Maj (ra s) (rb s) (rc s)) in
  {| ra := add32 t1 t2; rb := ra s; rc := rb s; rd := rc s;
     re := add32 (rd s) t1; rf := re s; rg := rf s; rh := rg s |}.

Definition compress (h : regs) (block : list N) : regs :=
  let w := rev (schedule 48 (rev block)) in
  let s := fold_left round (combine K w) h in
  {| ra := add32 (ra h) (ra s); rb := add32 (rb h) (rb s);
     rc := add32 (rc h) (rc s); rd := add32 (rd h) (rd s);
     re := add32 (re h) (re s); rf := add32 (rf h) (rf s);
     rg := add32 (rg h) (rg s); rh := add32 (rh h) (rh s) |}.

Fixpoint blocks (fuel : nat) (h : regs) (words : list N) : regs :=
  match fuel, words with
  | S k, _ :: _ => blocks k (compress h (firstn 16 words)) (skipn 16 words)
  | _, _ => h
  end.

Definition init : regs :=
  let v i := nth i H0 0 in
  {| ra := v 0%nat; rb := v 1%nat; rc := v 2%nat; rd := v 3%nat;
     re := v 4%nat; rf := v 5%nat; rg := v 6%nat; rh := v 7%nat |}.

(** [crypto.subtle.digest("SHA-256", bytes)] as 32 bytes. *)
Definition digest (msg : list N) : list N :=
  let words := be_words (pad msg) in
  let h := blocks (length words) init words in
  flat_map (be_bytes 4)
    [ra h; rb h; rc h; rd h; re h; rf h; rg h; rh h].

End Sha256.

Module Base64.

Local Open Scope N_scope.

Definition alphabet : string :=
  "ABCDEFGHIJKLMNOPQRSTUVWXYZabcdefghijklmnopqrstuvwxyz0123456789+/".

Definition sextet (v : N) : ascii :=
  match String.get (N.to_nat (v mod 64)) alphabet with
  | Some a => a
  | None => "="%char
  end.

(** [btoa] on a binary string given as its bytes. *)
Fixpoint encode (bytes : list N) : string :=
  match bytes with
  | [] => ""
  | [b0] =>
      String (sextet (b0 / 4)) (String (sextet (b0 * 16)) "==")
  | [b0; b1] =>
      String (sextet (b0 / 4)) (String (sextet (b0 * 16 + b1 / 16))
        (String (sextet (b1 * 4)) "="))
  | b0 :: b1 :: b2 :: rest =>
      String (sextet (b0 / 4)) (String (sextet (b0 * 16 + b1 / 16))
        (String (sextet (b1 * 4 + b2 / 64)) (String (sextet b2)
           (encode rest))))
  end.

End Base64.

(** [new TextEncoder().encode(input)]: UTF-8, one byte for a code unit
    below 128 and two bytes for the others. *)
Fixpoint TextEncoder_encode (input : string) : list N :=
  match input with
  | EmptyString => []
  | String a rest =>
      let c := N_of_ascii a in
      (if (c <? 128)%N then [c] else [192 + c / 64; 128 + c mod 64])%N
        ++ TextEncoder_encode rest
  end.

(** [sha256Base64]: the digest of the UTF-8 text, written in base 64. *)
Definition sha256Base64 (input : string) : string :=
  let enc := TextEncoder_encode input in
  let hash := Sha256.digest enc in
  Base64.encode hash.

Global Arguments sha256Base64 : simpl never.

(** ** Host primitives: JSON, dates, sorting *)

(** [JSON.stringify] and [JSON.parse] at the type of a collection;
    [JSON_parse] is [None] where [JSON.parse] throws. *)
Class JSON (T : Type) := {
  JSON_stringify : T → string;
  JSON_parse : string → option T;
}.

Module JSDate.

Local Open Scope Z_scope.

Definition digit (a : ascii) : option Z :=
  let c := Z.of_N (N_of_ascii a) in
  if (48 <=? c) && (c <=? 57) then Some (c - 48) else None.

Definition num2 (a b : ascii) : option Z :=
  x ← digit a; y ← digit b; Some (10 * x + y).

Definition num4 (a b c d : ascii) : option Z :=
  x ← num2 a b; y ← num2 c d; Some (100 * x + y).

(** ECMAScript 21.4.1: day number of the first day of a year, leap
    years, the day within the year at which a month (1 to 12) starts. *)
Definition DayFromYear (y : Z) : Z :=
  365 * (y - 1970) + (y - 1969) / 4 - (y - 1901) / 100 + (y - 1601) / 400.

Definition InLeapYear (y : Z) : bool :=
  ((y mod 4 =? 0) && negb (y mod 100 =? 0)) || (y mod 400 =? 0).

Definition MonthStart (leap : bool) (m : Z) : Z :=
  let shift := if leap then 1 else 0 in
  match m with
  | 1 => 0 | 2 => 31 | 3 => 59 + shift | 4 => 90 + shift
  | 5 => 120 + shift | 6 => 151 + shift | 7 => 181 + shift
  | 8 => 212 + shift | 9 => 243 + shift | 10 => 273 + shift
  | 11 => 304 + shift | _ => 334 + shift
  end.

Definition DaysInMonth (leap : bool) (m : Z) : Z :=
  match m with
  | 2 => if leap then 29 else 28
  | 4 | 6 | 9 | 11 => 30
  | _ => 31
  end.

Definition msPerDay : Z := 86400000.

Definition MakeDay (y m d : Z) : Z :=
  DayFromYear y + MonthStart (InLeapYear y) m + (d - 1).

Definition MakeTime (h mi s : Z) : Z := h * 3600000 + mi * 60000 + s * 1000.

Definition MakeDate (day time : Z) : Z := day * msPerDay + time.

Definition valid_ymd (y m d : Z) : bool :=
  (1 <=? m) && (m <=? 12) && (1 <=? d) && (d <=? DaysInMonth (InLeapYear y) m).

(** Hours run to 24, which stands for the end of the day and needs
    zero minutes and seconds. *)
Definition valid_hms (h mi s : Z) : bool :=
  ((h <=? 23) && (mi <=? 59) && (s <=? 59))
  || ((h =? 24) && (mi =? 0) && (s =? 0)).

(** The fields of [YYYY-MM-DD] and of [HH:mm:ss]. *)
Definition parse_ymd (cs : list ascii) : option (Z * Z * Z) :=
  match cs with
  | [y1; y2; y3; y4; p; m1; m2; q; d1; d2] =>
      if Ascii.eqb p "-" && Ascii.eqb q "-"
      then y ← num4 y1 y2 y3 y4; m ← num2 m1 m2; d ← num2 d1 d2;
           Some (y, m, d)
      else None
  | _ => None
  end.

Definition parse_hms (cs : list ascii) : option (Z * Z * Z) :=
  match cs with
  | [h1; h2; p; i1; i2; q; s1; s2] =>
      if Ascii.eqb p ":" && Ascii.eqb q ":"
      then h ← num2 h1 h2; mi ← num2 i1 i2; s ← num2 s1 s2;
           Some (h, mi, s)
      else None
  | _ => None
  end.

(** The local time value denoted by a string of the date-time form
    [YYYY-MM-DDTHH:mm:ss] (ECMAScript 21.4.1.32, no UTC offset). A
    string that is not of this form is read as an invalid date. *)
Definition parse_local (s : string) : option Z :=
  let cs := list_ascii_of_string s in
  match parse_ymd (take 10 cs), cs !! 10%nat, parse_hms (drop 11 cs) with
  | Some (y, m, d), Some sep, Some (h, mi, sec) =>
      if Ascii.eqb sep "T" && valid_ymd y m d && valid_hms h mi sec
      then Some (MakeDate (MakeDay y m d) (MakeTime h mi sec))
      else None
  | _, _, _ => None
  end.

End JSDate.

(** What ECMAScript leaves to the implementation:
    - the time value of a string that is not of the date-time form, or
      has a field out of range: [Date.parse] may then fall back to
      formats of the implementation (21.4.3.2; [None] is NaN);
    - the order in which [Array.prototype.sort] leaves the elements when
      the comparison function is not a consistent comparator for them
      (23.1.3.30); the elements are those of the array. *)
Class Engine := {
  Date_parse_fallback : string → option Z;
  sort_implementation_defined :
    ∀ A : Type, (A → A → option Z) → list A → list A;
  sort_implementation_defined_perm :
    ∀ (A : Type) (comparefn : A → A → option Z) (l : list A),
      sort_implementation_defined A comparefn l ≡ₚ l;
}.

(** [Array.prototype.sort] with a comparison function. With a
    consistent comparator the sort is stable: [a] is moved behind [b]
    only when the comparison of [a] with [b] is positive. *)
Section ArraySort.
Context {engine : Engine} {A : Type} (comparefn : A → A → option Z).

Definition SortCompare (a b : A) : Z := default 0%Z (comparefn a b).

Fixpoint sort_insert (x : A) (sorted : list A) : list A :=
  match sorted with
  | [] => [x]
  | y :: rest =>
      if (0 <? SortCompare x y)%Z then y :: sort_insert x rest
      else x :: sorted
  end.

Fixpoint insertion_sort (l : list A) : list A :=
  match l with
  | [] => []
  | x :: rest => sort_insert x (insertion_sort rest)
  end.

(** The requirements of a consistent comparator (23.1.3.30.2) on the
    values [a], [b] and [c]: no comparison is NaN, [a =CF a], [=CF] is
    symmetric, and [=CF], [<CF] and [>CF] are transitive. *)
Definition consistent_at (a b c : A) : bool :=
  match comparefn a a, comparefn a b, comparefn b a, comparefn b c,
        comparefn a c with
  | Some aa, Some ab, Some ba, Some bc, Some ac =>
      (aa =? 0)%Z
      && implb (ab =? 0)%Z (ba =? 0)%Z
      && implb ((ab =? 0)%Z && (bc =? 0)%Z) (ac =? 0)%Z
      && implb ((ab <? 0)%Z && (bc <? 0)%Z) (ac <? 0)%Z
      && implb ((0 <? ab)%Z && (0 <? bc)%Z) (0 <? ac)%Z
  | _, _, _, _, _ => false
  end.

Definition consistent_comparator (l : list A) : bool :=
  forallb (λ a, forallb (λ b, forallb (consistent_at a b) l) l) l.

Definition Array_sort (l : list A) : list A :=
  if consistent_comparator l then insertion_sort l
  else sort_implementation_defined A comparefn l.
End ArraySort.

(** ** The application *)

(** How an awaited promise ends: it resolves, it rejects (the handler
    throws), or it never settles. *)
Inductive Outcome := Resolved | Rejected | Pending.

(** How an IndexedDB transaction ends: [oncomplete] or [onsuccess]
    fires, [onerror] fires, or neither does. *)
Inductive TxOutcome := TxComplete | TxError | TxStalled.

Section App.

Context {JSON_projects : JSON (gmap string ProjectMeta.t)}.
Context {JSON_inspections : JSON (gmap string (list InspectionEntry.t))}.
Context {engine : Engine}.

(** [UTC(t)]: the time value of the local time [t] (ECMAScript
    21.4.1.26), fixed by the time zone of the host. *)
Variable UTC : Z → Z.

(** *** LocalStorage helpers *)

Definition loadProjects (storage : gmap string string)
  : gmap string ProjectMeta.t :=
  match storage !! LS_PROJECTS_KEY with
  | Some raw =>
      if JS.truthy raw then default ∅ (JSON_parse raw) else ∅
  | None => ∅
  end.

Definition saveProjects (projects : gmap string ProjectMeta.t)
  (st : State) : State :=
  set_localStorage
    (<[LS_PROJECTS_KEY := JSON_stringify projects]> (localStorage st)) st.

Definition loadInspections (storage : gmap string string)
  : gmap string (list InspectionEntry.t) :=
  match storage !! LS_INSPECTIONS_KEY with
  | Some raw =>
      if JS.truthy raw then default ∅ (JSON_parse raw) else ∅
  | None => ∅
  end.

Definition saveInspections (map : gmap string (list InspectionEntry.t))
  (st : State) : State :=
  set_localStorage
    (<[LS_INSPECTIONS_KEY := JSON_stringify map]> (localStorage st)) st.

(** [setProjects] and [setInspections], each with the effect that
    persists the new value. *)
Definition setProjects (next : gmap string ProjectMeta.t) (st : State)
  : State := saveProjects next (set_projects next st).

Definition setInspections (next : gmap string (list InspectionEntry.t))
  (st : State) : State := saveInspections next (set_inspections next st).

Definition toast_error (msg : string) (st : State) : State :=
  set_toasts (ToastError msg :: toasts st) st.

Definition toast_success (msg : string) (st : State) : State :=
  set_toasts (ToastSuccess msg :: toasts st) st.

(** *** Minimal IndexedDB helper *)

Definition idbSet (tx : TxOutcome) (key : string) (value : File)
  (st : State) : Outcome * State :=
  match tx with
  | TxComplete =>
      (Resolved,
       set_idbLog (IdbPut key true :: idbLog st)
         (set_photoStore (<[key := value]> (photoStore st)) st))
  | TxError => (Rejected, set_idbLog (IdbPut key false :: idbLog st) st)
  | TxStalled => (Pending, set_idbLog (IdbPut key false :: idbLog st) st)
  end.

Definition idbGet (tx : TxOutcome) (key : string) (st : State)
  : Outcome * option File * State :=
  let st := set_idbLog (IdbGet key :: idbLog st) st in
  match tx with
  | TxComplete => (Resolved, photoStore st !! key, st)
  | TxError => (Rejected, None, st)
  | TxStalled => (Pending, None, st)
  end.

(** *** Mounting [App]

    The first render reads the collections and the passcode flag from
    [localStorage]; the effects of the first render write the
    collections back, fill in the current local date and time and show
    the sign-in view. *)
Definition mount (storage : gmap string string)
  (photos : gmap string File) (today now : string) : State :=
  let st :=
    {| view := ViewAuth;
       projects := loadProjects storage;
       inspections := loadInspections storage;
       dataDialogOpen := false;
       inspectionDialogOpen := false;
       reportDialogOpen := false;
       dataForm := {| DataForm.id := ""; DataForm.address := "";
                      DataForm.scope := "" |};
       inspectionId := "";
       reportId := "";
       reportDate := "";
       activeProjectId := None;
       filterDate := None;
       entryDate := "";
       entryTime := "";
       notesRef := None;
       entryPhotos := [];
       fileInputRef := None;
       photoURLCache := ∅;
       hasPasscode :=
         match storage !! LS_PASSCODE_HASH with
         | Some h => JS.truthy h
         | None => false
         end;
       authed := false;
       passcodeInput := "";
       passcodeConfirm := "";
       localStorage := storage;
       photoStore := photos;
       objectURLs := 0%N;
       idbLog := [];
       toasts := [] |} in
  let st := saveProjects (projects st) st in
  let st := saveInspections (inspections st) st in
  let st := set_entryDate today st in
  let st := set_entryTime now st in
  set_view ViewAuth st.

Definition goHome (st : State) : State :=
  let st := set_view ViewHome st in
  let st := set_activeProjectId None st in
  set_filterDate None st.

(** *** Auth *)

Definition handleSetPasscode (st : State) : State :=
  if negb (JS.truthy (passcodeInput st))
     || (String.length (passcodeInput st) <? 4)
  then toast_error "Choose a passcode (4+ chars)" st
  else if negb (String.eqb (passcodeInput st) (passcodeConfirm st))
  then toast_error "Passcodes do not match" st
  else
    let hash := sha256Base64 (passcodeInput st) in
    let st :=
      set_localStorage (<[LS_PASSCODE_HASH := hash]> (localStorage st)) st in
    let st := set_hasPasscode true st in
    let st := set_authed true st in
    let st := set_view ViewHome st in
    toast_success "Passcode set" st.

Definition handleSignIn (st : State) : State :=
  if negb (JS.truthy (passcodeInput st))
  then toast_error "Enter your passcode" st
  else
    match localStorage st !! LS_PASSCODE_HASH with
    | Some stored =>
        if negb (JS.truthy stored)
        then toast_error "No passcode set. Set one first." st
        else
          let hash := sha256Base64 (passcodeInput st) in
          if negb (String.eqb hash stored)
          then toast_error "Incorrect passcode" st
          else
            let st := set_authed true st in
            let st := set_view ViewHome st in
            let st := set_passcodeInput "" st in
            toast_success "Unlocked" st
    | None => toast_error "No passcode set. Set one first." st
    end.

Definition handleSignOut (st : State) : State :=
  let st := set_authed false st in
  set_view ViewAuth st.

(** *** Data (Projects) *)

Definition openDataPrompt (st : State) : State :=
  let st :=
    set_dataForm {| DataForm.id := ""; DataForm.address := "";
                    DataForm.scope := "" |} st in
  set_dataDialogOpen true st.

(** [now] is the reading of [Date.now()]. *)
Definition saveProject (now : N) (st : State) : State :=
  let id := JS.trim (DataForm.id (dataForm st)) in
  if negb (JS.truthy id) then toast_error "Please enter a Project ID." st
  else
    let next := projects st in
    let prev := Object_get next id in
    let next :=
      Object_set next id
        {| ProjectMeta.id := id;
           ProjectMeta.address := JS.trim (DataForm.address (dataForm st));
           ProjectMeta.scope := JS.trim (DataForm.scope (dataForm st));
           ProjectMeta.createdAt :=
             match prev with
             | Own p => ProjectMeta.createdAt p
             | Inherited _ | Undefined => now
             end;
           ProjectMeta.updatedAt := now |} in
    let st := setProjects next st in
    let st :=
      toast_success
        (match prev with
         | Own _ | Inherited _ => "Project updated."
         | Undefined => "Project created."
         end) st in
    let st := set_dataDialogOpen false st in
    set_view ViewHome st.

(** *** Inspection *)

Definition openInspectionPrompt (st : State) : State :=
  let st := set_inspectionId "" st in
  set_inspectionDialogOpen true st.

Definition proceedInspection (st : State) : State :=
  let id := JS.trim (inspectionId st) in
  if negb (JS.truthy id) then toast_error "Enter a Project ID." st
  else
    let st := set_activeProjectId (Some id) st in
    let st := set_view ViewInspectionProject st in
    set_inspectionDialogOpen false st.

Definition photoKey (projectId entryId : string) (i : nat) : string :=
  projectId +:+ "/inspections/" +:+ entryId +:+ "/photo-"
    +:+ JS.decimal (N.of_nat i).

(** The loop that saves the photos to IndexedDB, from index [i] on;
    [tx i] is the end of the transaction for the photo at index [i]. *)
Fixpoint savePhotos (tx : nat → TxOutcome) (projectId entryId : string)
  (i : nat) (files : list File) (photoKeys : list string) (st : State)
  : Outcome * list string * State :=
  match files with
  | [] => (Resolved, photoKeys, st)
  | file :: rest =>
      let key := photoKey projectId entryId i in
      match idbSet (tx i) key file st with
      | (Resolved, st) =>
          savePhotos tx projectId entryId (S i) rest (photoKeys ++ [key]) st
      | (failed, st) => (failed, photoKeys, st)
      end
  end.

(** [`${e.date}T${e.time}:00`] *)
Definition dateTimeString (e : InspectionEntry.t) : string :=
  InspectionEntry.date e +:+ "T" +:+ InspectionEntry.time e +:+ ":00".

(** The local time that the string denotes when it is of the date-time
    form. *)
Definition localTime (e : InspectionEntry.t) : option Z :=
  JSDate.parse_local (dateTimeString e).

(** [new Date(`${e.date}T${e.time}:00`).getTime()]; [None] is NaN. *)
Definition getTime (e : InspectionEntry.t) : option Z :=
  match localTime e with
  | Some t => Some (UTC t)
  | None => Date_parse_fallback (dateTimeString e)
  end.

(** The comparison function of the sort: newest first. *)
Definition newestFirst (a b : InspectionEntry.t) : option Z :=
  ta ← getTime a; tb ← getTime b; Some (tb - ta)%Z.

(** [nowId], [nowCreated] and [nowUpdated] are the three successive
    readings of [Date.now()]. When [next[activeProjectId]] is inherited
    from [Object.prototype], spreading it throws a TypeError, after the
    photos have been written. *)
Definition saveInspectionEntry (nowId nowCreated nowUpdated : N)
  (tx : nat → TxOutcome) (st : State) : Outcome * State :=
  match activeProjectId st with
  | None => (Resolved, st)
  | Some projectId =>
      if negb (JS.truthy projectId) then (Resolved, st)
      else if negb (JS.truthy (entryDate st))
              || negb (JS.truthy (entryTime st))
      then (Resolved, toast_error "Enter date and time." st)
      else
        let entryId := JS.decimal nowId in
        match savePhotos tx projectId entryId 0 (entryPhotos st) [] st with
        | (Resolved, photoKeys, st) =>
            let notes := JS.trim (default "" (notesRef st)) in
            let entry :=
              {| InspectionEntry.id := entryId;
                 InspectionEntry.date := entryDate st;
                 InspectionEntry.time := entryTime st;
                 InspectionEntry.notes := notes;
                 InspectionEntry.photoKeys := photoKeys;
                 InspectionEntry.createdAt := nowCreated;
                 InspectionEntry.updatedAt := nowUpdated |} in
            let next := inspections st in
            match Object_get next projectId with
            | Inherited _ => (Rejected, st)
            | prev =>
                let list := match prev with Own l => l | _ => [] end in
                let next :=
                  Object_set next projectId
                    (Array_sort newestFirst (list ++ [entry])) in
                let st := setInspections next st in
                let st := set_notesRef ((λ _, "") <$> notesRef st) st in
                let st := set_entryPhotos [] st in
                let st :=
                  set_fileInputRef ((λ _, "") <$> fileInputRef st) st in
                (Resolved, toast_success "Inspection saved." st)
            end
        | (failed, _, st) => (failed, st)
        end
  end.

(** [URL.createObjectURL]: a new URL at each call. *)
Definition createObjectURL (st : State) : string * State :=
  ("blob:" +:+ JS.decimal (objectURLs st),
   set_objectURLs (objectURLs st + 1)%N st).

Definition photoURLFromKey (tx : TxOutcome) (key : string) (st : State)
  : Outcome * string * State :=
  match photoURLCache st !! key with
  | Some url => (Resolved, url, st)
  | None =>
      match idbGet tx key st with
      | (Resolved, Some blob, st) =>
          let '(url, st) := createObjectURL st in
          let st :=
            set_photoURLCache (<[key := url]> (photoURLCache st)) st in
          (Resolved, url, st)
      | (Resolved, None, st) => (Resolved, "", st)
      | (failed, _, st) => (failed, "", st)
      end
  end.

Definition removePendingPhoto (index : nat) (st : State) : State :=
  set_entryPhotos (delete index (entryPhotos st)) st.

(** The entries that [InspectionList] renders, in order; [None] when
    rendering throws. When [inspections[projectId]] is inherited from
    [Object.prototype], it has no method [filter] and no method [map]:
    only a function of length 0 without a filter gets as far as the
    empty timeline. *)
Definition InspectionList (projectId : string) (filterDate : option string)
  (st : State) : option (list InspectionEntry.t) :=
  let filtering :=
    match filterDate with Some d => JS.truthy d | None => false end in
  match Object_get (inspections st) projectId with
  | Inherited b =>
      if filtering then None
      else match b with BuiltinFunction 0 => Some [] | _ => None end
  | prev =>
      let list := match prev with Own l => l | _ => [] end in
      match filterDate with
      | Some d =>
          if JS.truthy d
          then
            Some (List.filter (λ e, String.eqb (InspectionEntry.date e) d) list)
          else Some list
      | None => Some list
      end
  end.

(** The two buttons of the report dialog. *)
Definition reportFullTimeline (st : State) : State :=
  if negb (JS.truthy (JS.trim (reportId st)))
  then toast_error "Enter a Project ID." st
  else
    let st := set_activeProjectId (Some (JS.trim (reportId st))) st in
    let st := set_filterDate None st in
    let st := set_reportDialogOpen false st in
    set_view ViewInspectionProject st.

Definition reportByDate (st : State) : State :=
  if negb (JS.truthy (JS.trim (reportId st)))
  then toast_error "Enter a Project ID." st
  else if negb (JS.truthy (reportDate st))
  then toast_error "Pick a date." st
  else
    let st := set_activeProjectId (Some (JS.trim (reportId st))) st in
    let st := set_filterDate (Some (reportDate st)) st in
    let st := set_reportDialogOpen false st in
    set_view ViewInspectionProject st.

End App.
(** ** Vocabulary of the specification *)

(** The formats of the data model: [date] is [YYYY-MM-DD], a day of the
    calendar, and [time] is [HH:MM], a time of the day. *)
Definition valid_date (s : string) : bool :=
  match JSDate.parse_ymd (list_ascii_of_string s) with
  | Some (y, m, d) => JSDate.valid_ymd y m d
  | None => false
  end.

Definition parse_hm (cs : list ascii) : option (Z * Z) :=
  match cs with
  | [h1; h2; p; i1; i2] =>
      if Ascii.eqb p ":"
      then h ← JSDate.num2 h1 h2; mi ← JSDate.num2 i1 i2; Some (h, mi)
      else None
  | _ => None
  end.

Definition valid_time (s : string) : bool :=
  match parse_hm (list_ascii_of_string s) with
  | Some (h, mi) => (h <=? 23)%Z && (mi <=? 59)%Z
  | None => false
  end.

Definition well_formed (e : InspectionEntry.t) : bool :=
  valid_date (InspectionEntry.date e) && valid_time (InspectionEntry.time e).

(** The order of the composite key [(date, time)]: dates first, times
    among equal dates, each compared as a string. *)
Definition key_compare (a b : InspectionEntry.t) : comparison :=
  match String.compare (InspectionEntry.date a) (InspectionEntry.date b) with
  | Eq => String.compare (InspectionEntry.time a) (InspectionEntry.time b)
  | c => c
  end.

(** [a] may stand before [b] in a list that is newest first. *)
Definition not_older (a b : InspectionEntry.t) : Prop :=
  key_compare a b ≠ Lt.

Definition same_key (d t : string) (e : InspectionEntry.t) : bool :=
  String.eqb (InspectionEntry.date e) d && String.eqb (InspectionEntry.time e) t.

(** The states of the access gate. *)
Inductive Gate := NoCredential | Locked | Unlocked.

Definition gate (st : State) : Gate :=
  if authed st then Unlocked
  else if hasPasscode st then Locked
  else NoCredential.

(** The operations of the access gate in terms of the handlers: the
    passcode and its confirmation are typed, then the button is pressed;
    [verify] is asked of a session that is signed out. *)
Definition setCredential (passcode confirm : string) (st : State) : State :=
  handleSetPasscode
    (set_passcodeConfirm confirm (set_passcodeInput passcode st)).

Definition verify (passcode : string) (st : State) : bool :=
  authed (handleSignIn (set_passcodeInput passcode (handleSignOut st))).

(** The photo key at index [i] of the entry at position [n] of the list
    of project [p]. *)
Definition key_at (m : gmap string (list InspectionEntry.t))
  (p : string) (n i : nat) : option string :=
  l ← m !! p; e ← l !! n; InspectionEntry.photoKeys e !! i.

(** No photo key occurs twice in the store. *)
Definition unique_photoKeys (m : gmap string (list InspectionEntry.t)) : Prop :=
  ∀ p n i p' n' i' k,
    key_at m p n i = Some k → key_at m p' n' i' = Some k →
    p = p' ∧ n = n' ∧ i = i'.

(** Every entry has a number for its ID and the keys that
    [saveInspectionEntry] gives it; the IDs of a project differ. *)
Definition keys_named (m : gmap string (list InspectionEntry.t)) : Prop :=
  ∀ p l e, m !! p = Some l → e ∈ l →
    (∃ n, InspectionEntry.id e = JS.decimal n)
    ∧ ∀ i k, InspectionEntry.photoKeys e !! i = Some k →
             k = photoKey p (InspectionEntry.id e) i.

Definition ids_distinct (m : gmap string (list InspectionEntry.t)) : Prop :=
  ∀ p l, m !! p = Some l → NoDup (InspectionEntry.id <$> l).

(** The comparison of any two elements of [l] is the difference of
    their keys, larger keys first; a list in descending order of the
    keys; a filter that selects elements of one key. *)
Section SortedByKey.
Context {A : Type} (comparefn : A → A → option Z) (key : A → Z).

Definition by_key (l : list A) : Prop :=
  ∀ a b, a ∈ l → b ∈ l → comparefn a b = Some (key b - key a)%Z.

Definition descending : list A → Prop :=
  StronglySorted (λ a b, (key b ≤ key a)%Z).

Definition one_key (f : A → bool) (l : list A) : Prop :=
  ∀ a b, a ∈ l → b ∈ l → f a = true → f b = true → key a = key b.

End SortedByKey.

Definition is_digit (a : ascii) : bool :=
  match JSDate.digit a with Some _ => true | None => false end.

(** The transactions of the photos at indices [i] to [i + n - 1]
    complete. *)
Definition all_complete (tx : nat → TxOutcome) (i n : nat) : Prop :=
  ∀ j, (i ≤ j < i + n)%nat → tx j = TxComplete.

(** The entry that [saveInspectionEntry] builds. *)
Definition newEntry (projectId : string) (nowId nowCreated nowUpdated : N)
  (st : State) : InspectionEntry.t :=
  {| InspectionEntry.id := JS.decimal nowId;
     InspectionEntry.date := entryDate st;
     InspectionEntry.time := entryTime st;
     InspectionEntry.notes := JS.trim (default "" (notesRef st));
     InspectionEntry.photoKeys :=
       imap (λ i _, photoKey projectId (JS.decimal nowId) i) (entryPhotos st);
     InspectionEntry.createdAt := nowCreated;
     InspectionEntry.updatedAt := nowUpdated |}.

(** The record that [saveProject] builds. *)
Definition newProject (now : N) (st : State) : ProjectMeta.t :=
  let id := JS.trim (DataForm.id (dataForm st)) in
  {| ProjectMeta.id := id;
     ProjectMeta.address := JS.trim (DataForm.address (dataForm st));
     ProjectMeta.scope := JS.trim (DataForm.scope (dataForm st));
     ProjectMeta.createdAt :=
       match Object_get (projects st) id with
       | Own p => ProjectMeta.createdAt p
       | Inherited _ | Undefined => now
       end;
     ProjectMeta.updatedAt := now |}.

(** The guards of [saveInspectionEntry] let the submission through. *)
Definition admitted (projectId : string) (st : State) : Prop :=
  activeProjectId st = Some projectId
  ∧ projectId ≠ "" ∧ entryDate st ≠ "" ∧ entryTime st ≠ "".


(** The local times of the entries of [l] keep their order as time
    values: no two of them are swapped by a change of the offset of the
    time zone, as around an hour that daylight saving time skips. *)
Definition keeps_order (UTC : Z → Z) (l : list InspectionEntry.t) : Prop :=
  ∀ a b ta tb, a ∈ l → b ∈ l →
    localTime a = Some ta → localTime b = Some tb →
    (ta < tb)%Z → (UTC ta < UTC tb)%Z.

(** The time value of an entry, NaN read as 0. *)
Definition stamp {engine : Engine} (UTC : Z → Z) (e : InspectionEntry.t) : Z :=
  default 0%Z (getTime UTC e).

(** ** A host and a session

    The properties below hold on every host. To evaluate the model, here
    is a host whose local time is UTC, whose [JSON] writes a collection
    as the text of the empty object when it is empty, and reads back that
    text only, and whose engine reads every string that is not of the
    date-time form as an invalid date and leaves an array as it is when
    the comparison function is not consistent. *)

Definition utc (t : Z) : Z := t.

Definition engine_host : Engine :=
  {| Date_parse_fallback _ := None;
     sort_implementation_defined _ _ l := l;
     sort_implementation_defined_perm _ _ l := Permutation_refl l |}.

(** The local time of New York around the start of daylight saving time
    in 2024: the local times from 02:00 to 03:00 of 10 March do not
    exist, and are read with the offset of the time before the change
    (ECMAScript 21.4.1.26), five hours; from 03:00 on the offset is four
    hours. [1710036000000] is 2024-03-10T02:00 as a local time value. *)
Definition utc_new_york (t : Z) : Z :=
  if (t <? 1710036000000 + 3600000)%Z
  then (t + 5 * 3600000)%Z
  else (t + 4 * 3600000)%Z.

Definition JSON_projects_host : JSON (gmap string ProjectMeta.t) :=
  {| JSON_stringify m := if decide (m = ∅) then "{}" else "{...}";
     JSON_parse s := if String.eqb s "{}" then Some ∅ else None |}.

Definition JSON_inspections_host
  : JSON (gmap string (list InspectionEntry.t)) :=
  {| JSON_stringify m := if decide (m = ∅) then "{}" else "{...}";
     JSON_parse s := if String.eqb s "{}" then Some ∅ else None |}.

Definition always_complete (i : nat) : TxOutcome := TxComplete.

Definition failing_second (i : nat) : TxOutcome :=
  match i with 1%nat => TxError | _ => TxComplete end.

Definition photo1 : File := {| fileName := "a.jpg"; fileData := [Byte.x01] |}.
Definition photo2 : File := {| fileName := "b.jpg"; fileData := [Byte.x02] |}.

Definition form_first : DataForm.t :=
  {| DataForm.id := "10234"; DataForm.address := "123 Main St";
     DataForm.scope := "" |}.

Definition form_again : DataForm.t :=
  {| DataForm.id := " 10234 "; DataForm.address := "125 Main St";
     DataForm.scope := "roof" |}.

Definition form_proto : DataForm.t :=
  {| DataForm.id := "__proto__"; DataForm.address := "1 Main St";
     DataForm.scope := "" |}.

Definition corrupted_storage : gmap string string :=
  <[LS_PROJECTS_KEY := "{not json"]> ∅.

Section Session.
#[local] Existing Instance JSON_projects_host.
#[local] Existing Instance JSON_inspections_host.
#[local] Existing Instance engine_host.

(** The scenario of the specification: a fresh installation, project
    ["10234"], an entry at 09:00 with two photos, then one at 14:30
    without photos. *)
Definition session0 : State := mount ∅ ∅ "2024-03-01" "09:00".

Definition session1 : State :=
  saveProject 1000
    (set_dataForm form_first
       (openDataPrompt (setCredential "abcd" "abcd" session0))).

Definition session2 : State :=
  set_entryPhotos [photo1; photo2]
    (set_notesRef (Some " cracks in the wall ")
       (proceedInspection
          (set_inspectionId "10234" (openInspectionPrompt session1)))).

Definition session3 : State :=
  (saveInspectionEntry utc 2000 2001 2001 always_complete session2).2.

Definition session4 : State := set_entryTime "14:30" session3.

Definition session5 : State :=
  (saveInspectionEntry utc 3000 3001 3001 always_complete session4).2.

(** A third entry, on the next day. *)
Definition session6 : State :=
  (saveInspectionEntry utc 4000 4001 4001 always_complete
     (set_entryTime "08:15" (set_entryDate "2024-03-02" session5))).2.

(** Two submissions to one project that read the same [Date.now()]. *)
Definition same_millisecond : State :=
  (saveInspectionEntry utc 2000 2002 2002 always_complete
     (set_entryPhotos [photo2]
        (saveInspectionEntry utc 2000 2001 2001 always_complete
           (set_entryPhotos [photo1] session2)).2)).2.

(** In New York, an entry at 02:30 of 10 March 2024 and then one at
    03:00. *)
Definition spring_forward1 : State :=
  (saveInspectionEntry utc_new_york 2000 2001 2001 always_complete
     (set_entryTime "02:30"
        (set_entryDate "2024-03-10" (set_entryPhotos [] session2)))).2.

Definition spring_forward2 : State :=
  (saveInspectionEntry utc_new_york 3000 3001 3001 always_complete
     (set_entryTime "03:00" spring_forward1)).2.

(** The project ID ["__proto__"], saved twice. *)
Definition proto1 : State :=
  saveProject 1000
    (set_dataForm form_proto
       (openDataPrompt (setCredential "abcd" "abcd" session0))).

Definition proto2 : State :=
  saveProject 2000 (set_dataForm form_proto (openDataPrompt proto1)).

(** An inspection session for the project ID ["toString"]. *)
Definition named_toString : State :=
  set_entryPhotos [photo1]
    (proceedInspection
       (set_inspectionId "toString" (openInspectionPrompt session5))).

End Session.

(** ** The views and the steps of the application *)

Section Views.

Context {JSON_projects : JSON (gmap string ProjectMeta.t)}.
Context {JSON_inspections : JSON (gmap string (list InspectionEntry.t))}.
Context {engine : Engine}.
Variable UTC : Z → Z.

(** The three buttons of [HomeView] and the button of a recent project. *)
Definition homeData (st : State) : State :=
  openDataPrompt (set_view ViewData st).

Definition homeInspection (st : State) : State :=
  openInspectionPrompt (set_view ViewInspection st).

Definition homeReport (st : State) : State :=
  set_reportDialogOpen true (set_view ViewReport st).

Definition openRecent (p : ProjectMeta.t) (st : State) : State :=
  let st := set_activeProjectId (Some (ProjectMeta.id p)) st in
  let st := set_filterDate None st in
  set_view ViewInspectionProject st.

(** The list of recent projects:
    [Object.values(projects).sort((a, b) => b.updatedAt - a.updatedAt)
     .slice(0, 5)], on the values in the order of [Object.values]. *)
Definition byUpdated (a b : ProjectMeta.t) : option Z :=
  Some (Z.of_N (ProjectMeta.updatedAt b) - Z.of_N (ProjectMeta.updatedAt a))%Z.

Definition recentProjects (values : list ProjectMeta.t)
  : list ProjectMeta.t :=
  take 5 (Array_sort byUpdated values).

(** [onOpenChange] of the report dialog, the button that clears the
    date filter, [onChange] of the photo input. *)
Definition reportDialogChange (open : bool) (st : State) : State :=
  let st := set_reportDialogOpen open st in
  if open then st else set_reportDate "" (set_reportId "" st).

Definition clearFilter (st : State) : State := set_filterDate None st.

Definition addPhotos (files : list File) (st : State) : State :=
  match files with
  | [] => st
  | _ => set_entryPhotos (entryPhotos st ++ files) st
  end.

(** The timeline of the inspection view:
    [<InspectionList projectId={activeProjectId || ""}
                     filterDate={filterDate} />]. *)
Definition displayedTimeline (st : State)
  : option (list InspectionEntry.t) :=
  InspectionList (default "" (activeProjectId st)) (filterDate st) st.

(** [App] renders [AuthView] when [!authed && view === "auth"], and the
    other views otherwise. *)
Definition auth_view (st : State) : Prop :=
  authed st = false ∧ view st = ViewAuth.

(** One event of the user interface. The events of [AuthView] are
    those of its inputs and of the one button it shows. For the other
    views the guards by view and by open dialog are left out (but for the
    sign-out button, shown when [authed]): the relation has every step of
    the application, and more. A handler runs to its end, with the
    effects that follow its render, before the next event is taken. *)
Inductive step : State → State → Prop :=
  | step_passcodeInput st s :
      auth_view st → step st (set_passcodeInput s st)
  | step_passcodeConfirm st s :
      auth_view st → hasPasscode st = false →
      step st (set_passcodeConfirm s st)
  | step_handleSignIn st :
      auth_view st → hasPasscode st = true → step st (handleSignIn st)
  | step_handleSetPasscode st :
      auth_view st → hasPasscode st = false → step st (handleSetPasscode st)
  | step_goHome st : ¬ auth_view st → step st (goHome st)
  | step_handleSignOut st :
      ¬ auth_view st → authed st = true → step st (handleSignOut st)
  | step_homeData st : ¬ auth_view st → step st (homeData st)
  | step_homeInspection st : ¬ auth_view st → step st (homeInspection st)
  | step_homeReport st : ¬ auth_view st → step st (homeReport st)
  | step_openRecent st k p :
      ¬ auth_view st → projects st !! k = Some p → step st (openRecent p st)
  | step_dataForm st form : ¬ auth_view st → step st (set_dataForm form st)
  | step_dataDialog st open :
      ¬ auth_view st → step st (set_dataDialogOpen open st)
  | step_saveProject st now : ¬ auth_view st → step st (saveProject now st)
  | step_inspectionId st s : ¬ auth_view st → step st (set_inspectionId s st)
  | step_inspectionDialog st open :
      ¬ auth_view st → step st (set_inspectionDialogOpen open st)
  | step_proceedInspection st :
      ¬ auth_view st → step st (proceedInspection st)
  | step_reportId st s : ¬ auth_view st → step st (set_reportId s st)
  | step_reportDate st s : ¬ auth_view st → step st (set_reportDate s st)
  | step_reportDialog st open :
      ¬ auth_view st → step st (reportDialogChange open st)
  | step_reportFullTimeline st :
      ¬ auth_view st → step st (reportFullTimeline st)
  | step_reportByDate st : ¬ auth_view st → step st (reportByDate st)
  | step_clearFilter st : ¬ auth_view st → step st (clearFilter st)
  | step_entryDate st s : ¬ auth_view st → step st (set_entryDate s st)
  | step_entryTime st s : ¬ auth_view st → step st (set_entryTime s st)
  | step_notes st text : ¬ auth_view st → step st (set_notesRef text st)
  | step_fileInput st text :
      ¬ auth_view st → step st (set_fileInputRef text st)
  | step_addPhotos st files : ¬ auth_view st → step st (addPhotos files st)
  | step_removePendingPhoto st index :
      ¬ auth_view st → step st (removePendingPhoto index st)
  | step_saveInspectionEntry st nowId nowCreated nowUpdated tx :
      ¬ auth_view st →
      step st (saveInspectionEntry UTC nowId nowCreated nowUpdated tx st).2
  | step_photoURLFromKey st tx key :
      ¬ auth_view st → step st (photoURLFromKey tx key st).2.

(** The states that the application reaches from its start on some
    content of [localStorage] and of the photo store. *)
Definition reachable (st : State) : Prop :=
  ∃ storage photos today now,
    rtc step (mount storage photos today now) st.

(** [localStorage] holds the two collections as they are in memory. *)
Definition persisted (st : State) : Prop :=
  localStorage st !! LS_PROJECTS_KEY = Some (JSON_stringify (projects st))
  ∧ localStorage st !! LS_INSPECTIONS_KEY
    = Some (JSON_stringify (inspections st)).

End Views.

(** The stored digest of the passcode, if there is one. *)
Definition credential (storage : gmap string string) : option string :=
  match storage !! LS_PASSCODE_HASH with
  | Some h => if JS.truthy h then Some h else None
  | None => None
  end.

(** A string that is empty or starts with a character that [trim]
    keeps. *)
Definition starts_black (s : string) : Prop :=
  match s with
  | EmptyString => True
  | String a _ => JS.is_white a = false
  end.

(** A project ID as the handlers leave it: trimmed and not empty. *)
Definition normal_id (s : string) : Prop := s ≠ "" ∧ JS.trim s = s.

(** The records of the projects: each under its own ID, a normal one,
    with [createdAt <= updatedAt <= now]. *)
Definition projects_wf (now : N) (m : gmap string ProjectMeta.t) : Prop :=
  ∀ k r, m !! k = Some r →
    ProjectMeta.id r = k ∧ normal_id k
    ∧ JS.trim (ProjectMeta.address r) = ProjectMeta.address r
    ∧ JS.trim (ProjectMeta.scope r) = ProjectMeta.scope r
    ∧ (ProjectMeta.createdAt r ≤ ProjectMeta.updatedAt r)%N
    ∧ (ProjectMeta.updatedAt r ≤ now)%N.

(** Every project ID in use is a normal one. *)
Definition ids_normal (st : State) : Prop :=
  (∀ k r, projects st !! k = Some r → normal_id (ProjectMeta.id r))
  ∧ (∀ k l, inspections st !! k = Some l → normal_id k)
  ∧ (∀ p, activeProjectId st = Some p → normal_id p).

(** Every timeline of the store has entries of the formats of the data
    model, newest first. *)
Definition timelines_ok (m : gmap string (list InspectionEntry.t)) : Prop :=
  ∀ p l, m !! p = Some l →
    Forall (λ e, well_formed e = true) l ∧ StronglySorted not_older l.

(** [a] is older than [b]. *)
Definition older (a b : InspectionEntry.t) : bool :=
  match key_compare a b with Lt => true | _ => false end.

(** The URLs of the cache were made by [URL.createObjectURL], one for
    each key. *)
Definition cache_ok (st : State) : Prop :=
  (∀ k url, photoURLCache st !! k = Some url →
     ∃ n, (n < objectURLs st)%N ∧ url = "blob:" +:+ JS.decimal n)
  ∧ (∀ k k' url, photoURLCache st !! k = Some url →
       photoURLCache st !! k' = Some url → k = k').

(** The invariant of the steps: the collections are persisted, the
    views other than [AuthView] belong to unlocked sessions, and the flag
    [hasPasscode] tells whether a digest is stored. *)
Section StepInvariant.
Context {JSON_projects : JSON (gmap string ProjectMeta.t)}.
Context {JSON_inspections : JSON (gmap string (list InspectionEntry.t))}.

Definition step_inv (st : State) : Prop :=
  persisted st
  ∧ (authed st = true ∨ view st = ViewAuth)
  ∧ hasPasscode st = bool_decide (is_Some (credential (localStorage st)))
  ∧ (authed st = true → hasPasscode st = true).

End StepInvariant.

(** ** A host that reads back what it wrote

    A second host for the instances: its [JSON] writes a collection as
    the numeral of its code and reads a numeral back as the collection of
    that code, so that [JSON_parse (JSON_stringify m) = Some m]. *)

Definition ProjectMeta_eq_dec : EqDecision ProjectMeta.t.
Proof. solve_decision. Defined.

Definition InspectionEntry_eq_dec : EqDecision InspectionEntry.t.
Proof. solve_decision. Defined.

Definition ProjectMeta_countable : @Countable ProjectMeta.t ProjectMeta_eq_dec :=
  @inj_countable' _ _ _ _ ProjectMeta_eq_dec
    (λ r, (ProjectMeta.id r, ProjectMeta.address r, ProjectMeta.scope r,
           ProjectMeta.createdAt r, ProjectMeta.updatedAt r))
    (λ '(i, a, s, c, u), ProjectMeta.Build_t i a s c u)
    (λ r, match r with ProjectMeta.Build_t _ _ _ _ _ => eq_refl end).

Definition InspectionEntry_countable
  : @Countable InspectionEntry.t InspectionEntry_eq_dec :=
  @inj_countable' _ _ _ _ InspectionEntry_eq_dec
    (λ e, (InspectionEntry.id e, InspectionEntry.date e, InspectionEntry.time e,
           InspectionEntry.notes e, InspectionEntry.photoKeys e,
           InspectionEntry.createdAt e, InspectionEntry.updatedAt e))
    (λ '(i, d, t, n, k, c, u), InspectionEntry.Build_t i d t n k c u)
    (λ e, match e with InspectionEntry.Build_t _ _ _ _ _ _ _ => eq_refl end).

Definition JSON_codec {T : Type} `{Countable T} : JSON T :=
  {| JSON_stringify m := JS.decimal (Npos (encode m));
     JSON_parse s :=
       match NilZero.uint_of_string s with
       | Some d =>
           match N.of_uint d with
           | Npos p => decode p
           | N0 => None
           end
       | None => None
       end |}.

Definition JSON_projects_codec : JSON (gmap string ProjectMeta.t) :=
  @JSON_codec _ _ (@gmap_countable _ _ _ _ _ ProjectMeta_countable).

Definition JSON_inspections_codec
  : JSON (gmap string (list InspectionEntry.t)) :=
  @JSON_codec _ _
    (@gmap_countable _ _ _ _ _ (@list_countable _ _ InspectionEntry_countable)).

(** A visit of the application, event by event: a fresh installation,
    a passcode, project ["10234"], an entry at 09:00 with two photos, one
    at 14:30 without photos, the first photo displayed, signing out. *)
Section Visit.
Context {JSON_projects : JSON (gmap string ProjectMeta.t)}.
Context {JSON_inspections : JSON (gmap string (list InspectionEntry.t))}.
Context {engine : Engine}.

Definition visit0 : State := mount ∅ ∅ "2024-03-01" "09:00".

Definition visit1 : State := setCredential "abcd" "abcd" visit0.

Definition visit2 : State :=
  saveProject 1000 (set_dataForm form_first (homeData visit1)).

Definition visit3 : State :=
  addPhotos [photo1; photo2]
    (set_notesRef (Some " cracks in the wall ")
       (proceedInspection (set_inspectionId "10234" (homeInspection visit2)))).

Definition visit4 : State :=
  (saveInspectionEntry utc 2000 2001 2001 always_complete visit3).2.

Definition visit5 : State :=
  (saveInspectionEntry utc 3000 3001 3001 always_complete
     (set_entryTime "14:30" visit4)).2.

Definition visit6 : State :=
  (photoURLFromKey TxComplete "10234/inspections/2000/photo-0" visit5).2.

Definition visit7 : State := handleSignOut visit6.

End Visit.

(** ** Properties of the host primitives *)

Section ArraySortFacts.
Context {A : Type} (comparefn : A → A → option Z) (key : A → Z).
Context {engine : Engine}.

Lemma sort_insert_perm x l : sort_insert comparefn x l ≡ₚ x :: l.
Proof.
  induction l as [|y l IH]; simpl; [done|].
  destruct (0 <? SortCompare comparefn x y)%Z; [|done].
  rewrite IH. apply Permutation_swap.
Qed.

Lemma insertion_sort_perm l : insertion_sort comparefn l ≡ₚ l.
Proof.
  induction l as [|x l IH]; simpl; [done|].
  by rewrite sort_insert_perm, IH.
Qed.

Lemma by_key_cons x l : by_key comparefn key (x :: l) → by_key comparefn key l.
Proof. intros H a b Ha Hb. apply H; by right. Qed.

Lemma by_key_perm l l' : l ≡ₚ l' → by_key comparefn key l → by_key comparefn key l'.
Proof. intros Hp H a b Ha Hb. apply H; by rewrite Hp. Qed.

Lemma sort_insert_descending x l :
  by_key comparefn key (x :: l) → descending key l → descending key (sort_insert comparefn x l).
Proof.
  intros Hk Hs. induction Hs as [|y l Hs IH Hy]; simpl.
  { repeat constructor. }
  unfold SortCompare. rewrite (Hk x y) by (rewrite !elem_of_cons; auto).
  cbn [default from_option id].
  destruct (Z.ltb_spec 0 (key y - key x)) as [Hlt|Hge].
  - constructor.
    + apply IH. intros a b Ha Hb.
      apply Hk; rewrite elem_of_cons in *; rewrite elem_of_cons; tauto.
    + apply Forall_forall. intros z Hz.
      rewrite sort_insert_perm in Hz.
      apply elem_of_cons in Hz as [->|Hz]; [lia|].
      rewrite Forall_forall in Hy. by apply Hy.
  - constructor; [by constructor|].
    constructor; [lia|].
    eapply Forall_impl; [exact Hy|]. simpl. intros; lia.
Qed.

Lemma insertion_sort_descending l :
  by_key comparefn key l → descending key (insertion_sort comparefn l).
Proof.
  induction l as [|x l IH]; intros Hk; simpl; [constructor|].
  apply sort_insert_descending.
  - eapply by_key_perm; [|exact Hk].
    by rewrite insertion_sort_perm.
  - apply IH. by eapply by_key_cons.
Qed.

(** Stability: elements that share a key keep their order, so that a
    filter which selects elements of one key commutes with the sort. *)

Lemma sort_insert_stable f x l :
  by_key comparefn key (x :: l) → one_key key f (x :: l) →
  List.filter f (sort_insert comparefn x l) = List.filter f (x :: l).
Proof.
  intros Hk Hf. induction l as [|y l IH]; [done|].
  cbn [sort_insert]. unfold SortCompare.
  rewrite (Hk x y) by (rewrite !elem_of_cons; auto). cbn [default from_option id].
  destruct (Z.ltb_spec 0 (key y - key x)) as [Hlt|Hge]; [|done].
  cbn [List.filter]. rewrite IH.
  - cbn [List.filter].
    destruct (f x) eqn:Ex, (f y) eqn:Ey; try done.
    assert (key x = key y); [|lia].
    apply Hf; rewrite ?elem_of_cons; auto.
  - intros a b Ha Hb.
    apply Hk; rewrite elem_of_cons in *; rewrite elem_of_cons; tauto.
  - intros a b Ha Hb.
    apply Hf; rewrite elem_of_cons in *; rewrite elem_of_cons; tauto.
Qed.

Lemma insertion_sort_stable f l :
  by_key comparefn key l → one_key key f l →
  List.filter f (insertion_sort comparefn l) = List.filter f l.
Proof.
  induction l as [|x l IH]; intros Hk Hf; [done|].
  cbn [insertion_sort]. rewrite sort_insert_stable.
  - cbn [List.filter]. rewrite IH; [done|by eapply by_key_cons|].
    intros a b Ha Hb. apply Hf; rewrite elem_of_cons; auto.
  - eapply by_key_perm; [|exact Hk]. by rewrite insertion_sort_perm.
  - intros a b Ha Hb. apply Hf.
    + rewrite elem_of_cons in Ha |- *. by rewrite insertion_sort_perm in Ha.
    + rewrite elem_of_cons in Hb |- *. by rewrite insertion_sort_perm in Hb.
Qed.

(** A list that is descending is fixed by what each key selects from
    it: a stable sort has one result, whatever the algorithm. *)
Lemma descending_stable_unique l1 l2 :
  descending key l1 → descending key l2 →
  (∀ k, List.filter (λ a, key a =? k)%Z l1
        = List.filter (λ a, key a =? k)%Z l2) →
  l1 = l2.
Proof.
  intros H1. revert l2.
  induction H1 as [|x l1 H1 IH Hx]; intros l2 H2 Hsame.
  - destruct l2 as [|y l2]; [done|].
    specialize (Hsame (key y)). cbn in Hsame.
    by rewrite Z.eqb_refl in Hsame.
  - destruct H2 as [|y l2 H2 Hy].
    { specialize (Hsame (key x)). cbn in Hsame.
      by rewrite Z.eqb_refl in Hsame. }
    rewrite Forall_forall in Hx, Hy.
    assert (key x ≤ key y)%Z as Hxy.
    { pose proof (Hsame (key x)) as E. cbn in E. rewrite Z.eqb_refl in E.
      destruct (Z.eqb_spec (key y) (key x)) as [->|_]; [lia|].
      assert (x ∈ List.filter (λ a, (key a =? key x)%Z) l2) as Hin
        by (rewrite <- E; apply elem_of_cons; by left).
      apply list_elem_of_In, filter_In in Hin as [Hin%list_elem_of_In _].
      by apply Hy. }
    assert (key y ≤ key x)%Z as Hyx.
    { pose proof (Hsame (key y)) as E. cbn in E. rewrite Z.eqb_refl in E.
      destruct (Z.eqb_spec (key x) (key y)) as [->|_]; [lia|].
      assert (y ∈ List.filter (λ a, (key a =? key y)%Z) l1) as Hin
        by (rewrite E; apply elem_of_cons; by left).
      apply list_elem_of_In, filter_In in Hin as [Hin%list_elem_of_In _].
      by apply Hx. }
    assert (key x = key y) as Hk by lia.
    pose proof (Hsame (key x)) as E. cbn in E.
    rewrite Z.eqb_refl, <- Hk, Z.eqb_refl in E. injection E as -> E.
    f_equal. apply IH; [done|]. intros k.
    specialize (Hsame k). cbn in Hsame.
    destruct (key y =? k)%Z; congruence.
Qed.

Lemma insertion_sort_unique l l' :
  by_key comparefn key l → descending key l' →
  (∀ k, List.filter (λ a, key a =? k)%Z l'
        = List.filter (λ a, key a =? k)%Z l) →
  l' = insertion_sort comparefn l.
Proof.
  intros Hk Hd Hsame. apply descending_stable_unique; [done|..].
  - by apply insertion_sort_descending.
  - intros k. rewrite Hsame. symmetry. apply insertion_sort_stable; [done|].
    intros a b _ _ Ha%Z.eqb_eq Hb%Z.eqb_eq. congruence.
Qed.

(** A comparison function that is the difference of keys is a
    consistent comparator: [Array_sort] is then the stable sort. *)
Lemma by_key_consistent l :
  by_key comparefn key l → consistent_comparator comparefn l = true.
Proof.
  intros Hk. unfold consistent_comparator.
  apply forallb_forall. intros a Ha%list_elem_of_In.
  apply forallb_forall. intros b Hb%list_elem_of_In.
  apply forallb_forall. intros c Hc%list_elem_of_In.
  unfold consistent_at.
  rewrite (Hk a a), (Hk a b), (Hk b a), (Hk b c), (Hk a c) by done.
  repeat match goal with
         | |- context [(?x =? ?y)%Z] => destruct (Z.eqb_spec x y)
         | |- context [(?x <? ?y)%Z] => destruct (Z.ltb_spec x y)
         end; cbn; try done; lia.
Qed.

Lemma Array_sort_by_key l :
  by_key comparefn key l → Array_sort comparefn l = insertion_sort comparefn l.
Proof. intros Hk. unfold Array_sort. by rewrite by_key_consistent. Qed.

Lemma Array_sort_perm l : Array_sort comparefn l ≡ₚ l.
Proof.
  unfold Array_sort. destruct (consistent_comparator comparefn l).
  - apply insertion_sort_perm.
  - apply sort_implementation_defined_perm.
Qed.

Lemma Array_sort_singleton x : Array_sort comparefn [x] = [x].
Proof. apply Permutation_singleton_r, Array_sort_perm. Qed.

Lemma Array_sort_descending l :
  by_key comparefn key l → descending key (Array_sort comparefn l).
Proof.
  intros Hk. rewrite Array_sort_by_key by done.
  by apply insertion_sort_descending.
Qed.

Lemma Array_sort_stable f l :
  by_key comparefn key l → one_key key f l →
  List.filter f (Array_sort comparefn l) = List.filter f l.
Proof.
  intros Hk Hf. rewrite Array_sort_by_key by done.
  by apply insertion_sort_stable.
Qed.

Lemma Array_sort_unique l l' :
  by_key comparefn key l → descending key l' →
  (∀ k, List.filter (λ a, key a =? k)%Z l'
        = List.filter (λ a, key a =? k)%Z l) →
  l' = Array_sort comparefn l.
Proof.
  intros Hk Hd Hsame. rewrite Array_sort_by_key by done.
  by apply insertion_sort_unique.
Qed.

Lemma StronglySorted_impl_on (P : A → Prop) (R R' : A → A → Prop) l :
  (∀ a b, P a → P b → R a b → R' a b) →
  Forall P l → StronglySorted R l → StronglySorted R' l.
Proof.
  intros HR HP Hs. induction Hs as [|x l Hs IH Hx]; [constructor|].
  apply Forall_cons in HP as [HPx HPl].
  constructor; [by apply IH|].
  rewrite Forall_forall in Hx, HPl |- *. intros y Hy.
  apply HR; auto.
Qed.

End ArraySortFacts.

Module JSDateFacts.
Import JSDate.
Local Open Scope Z_scope.

Lemma digit_Some a x :
  digit a = Some x → 0 ≤ x ≤ 9 ∧ Z.of_N (N_of_ascii a) = x + 48.
Proof.
  unfold digit. intros H.
  destruct (Z.leb_spec 48 (Z.of_N (N_of_ascii a)));
    destruct (Z.leb_spec (Z.of_N (N_of_ascii a)) 57);
    simpl in H; simplify_eq; lia.
Qed.

Lemma num2_Some a b v :
  num2 a b = Some v →
  ∃ x y, digit a = Some x ∧ digit b = Some y ∧ v = 10 * x + y.
Proof.
  unfold num2. intros H.
  destruct (digit a) as [x|]; simpl in H; [|done].
  destruct (digit b) as [y|]; simpl in H; [|done].
  simplify_eq. eauto.
Qed.

Lemma num4_Some a b c d v :
  num4 a b c d = Some v →
  ∃ x y, num2 a b = Some x ∧ num2 c d = Some y ∧ v = 100 * x + y.
Proof.
  unfold num4. intros H.
  destruct (num2 a b) as [x|]; simpl in H; [|done].
  destruct (num2 c d) as [y|]; simpl in H; [|done].
  simplify_eq. eauto.
Qed.

Lemma num2_range a b v : num2 a b = Some v → 0 ≤ v ≤ 99.
Proof.
  intros (x & y & Hx%digit_Some & Hy%digit_Some & ->)%num2_Some. lia.
Qed.

(** A year has 365 days, a leap year 366. *)
Lemma DayFromYear_succ y :
  DayFromYear (y + 1) = DayFromYear y + 365 + (if InLeapYear y then 1 else 0).
Proof.
  unfold DayFromYear, InLeapYear.
  destruct (Z.eqb_spec (y mod 4) 0), (Z.eqb_spec (y mod 100) 0),
    (Z.eqb_spec (y mod 400) 0); simpl;
    Z.div_mod_to_equations; lia.
Qed.

Lemma DayFromYear_mono y y' : y ≤ y' → DayFromYear y ≤ DayFromYear y'.
Proof.
  intros H. unfold DayFromYear. Z.div_mod_to_equations. lia.
Qed.

Lemma month_cases m :
  1 ≤ m ≤ 12 →
  m = 1 ∨ m = 2 ∨ m = 3 ∨ m = 4 ∨ m = 5 ∨ m = 6 ∨ m = 7 ∨ m = 8 ∨ m = 9
  ∨ m = 10 ∨ m = 11 ∨ m = 12.
Proof. lia. Qed.

Lemma MonthStart_next leap m m' :
  1 ≤ m → m < m' → m' ≤ 12 →
  MonthStart leap m + DaysInMonth leap m ≤ MonthStart leap m'.
Proof.
  intros H1 H2 H3.
  destruct (month_cases m) as [?|[?|[?|[?|[?|[?|[?|[?|[?|[?|[?|?]]]]]]]]]]];
    [lia|subst m..];
    destruct (month_cases m') as [?|[?|[?|[?|[?|[?|[?|[?|[?|[?|[?|?]]]]]]]]]]];
    try lia; subst m'; destruct leap; simpl; lia.
Qed.

Lemma MonthStart_last leap m :
  1 ≤ m ≤ 12 →
  0 ≤ MonthStart leap m ∧
  MonthStart leap m + DaysInMonth leap m ≤ 365 + (if leap then 1 else 0).
Proof.
  intros H.
  destruct (month_cases m) as [?|[?|[?|[?|[?|[?|[?|[?|[?|[?|[?|?]]]]]]]]]]];
    [lia|subst m..]; destruct leap; simpl; lia.
Qed.

Lemma valid_ymd_spec y m d :
  valid_ymd y m d = true ↔
  1 ≤ m ≤ 12 ∧ 1 ≤ d ≤ DaysInMonth (InLeapYear y) m.
Proof. unfold valid_ymd. rewrite !andb_true_iff, !Z.leb_le. tauto. Qed.

(** Day numbers follow the order of the calendar. *)
Lemma MakeDay_mono y m d y' m' d' :
  valid_ymd y m d = true → valid_ymd y' m' d' = true →
  y < y' ∨ (y = y' ∧ (m < m' ∨ (m = m' ∧ d < d'))) →
  MakeDay y m d < MakeDay y' m' d'.
Proof.
  intros [Hm Hd]%valid_ymd_spec [Hm' Hd']%valid_ymd_spec Hlt.
  unfold MakeDay.
  pose proof (MonthStart_last (InLeapYear y) m Hm) as [_ Hlast].
  pose proof (MonthStart_last (InLeapYear y') m' Hm') as [Hfirst' _].
  destruct Hlt as [Hy|[<- [Hmm| [<- Hdd]]]].
  - pose proof (DayFromYear_succ y) as Hs.
    pose proof (DayFromYear_mono (y + 1) y' ltac:(lia)). lia.
  - pose proof (MonthStart_next (InLeapYear y) m m'). lia.
  - lia.
Qed.

End JSDateFacts.

(** ** The composite key and the time value of an entry *)

Section KeyFacts.
Import JSDate JSDateFacts.
Local Open Scope Z_scope.

Lemma list_ascii_of_string_app s1 s2 :
  list_ascii_of_string (s1 +:+ s2)
  = list_ascii_of_string s1 ++ list_ascii_of_string s2.
Proof. induction s1 as [|a s1 IH]; simpl; [done|]. by rewrite IH. Qed.

Lemma compare_digit_cons a b x y s s' :
  digit a = Some x → digit b = Some y →
  String.compare (String a s) (String b s')
  = match x ?= y with Eq => String.compare s s' | c => c end.
Proof.
  intros [_ Ha]%digit_Some [_ Hb]%digit_Some. simpl.
  unfold Ascii.compare. rewrite <- N2Z.inj_compare, Ha, Hb.
  by rewrite (Z.add_comm x), (Z.add_comm y), Z.add_compare_mono_l.
Qed.

Lemma compare_same_cons c s s' :
  String.compare (String c s) (String c s') = String.compare s s'.
Proof. simpl. unfold Ascii.compare. by rewrite N.compare_refl. Qed.

Ltac bind_cases :=
  repeat match goal with
    | H : mbind _ ?o = Some _ |- _ =>
        let E := fresh "E" in
        destruct o eqn:E; simpl in H; [|discriminate H]
    end.

Ltac head_compare :=
  repeat match goal with
    | |- match ?x ?= ?y with _ => _ end = _ =>
        destruct (Z.compare_spec x y)
    end.

Ltac close_compare :=
  symmetry;
  first [ apply Z.compare_eq_iff; lia
        | apply Z.compare_lt_iff; lia
        | apply Z.compare_gt_iff; lia ].

(** The order of two dates as strings is the order of their fields. *)
Lemma date_compare s s' y m d y' m' d' :
  parse_ymd (list_ascii_of_string s) = Some (y, m, d) →
  parse_ymd (list_ascii_of_string s') = Some (y', m', d') →
  String.compare s s'
  = (10000 * y + 100 * m + d ?= 10000 * y' + 100 * m' + d').
Proof.
  intros H H'.
  do 11 (destruct s as [|? s]; simpl in H; try discriminate H).
  do 11 (destruct s' as [|? s']; simpl in H'; try discriminate H').
  repeat match goal with
    | H : context [Ascii.eqb ?a ?b] |- _ =>
        destruct (Ascii.eqb_spec a b); simpl in H; [subst a|discriminate H]
    end.
  bind_cases.
  simplify_eq.
  repeat match goal with
    | H : num4 _ _ _ _ = Some _ |- _ =>
        apply num4_Some in H as (? & ? & ? & ? & ->)
    end.
  repeat match goal with
    | H : num2 _ _ = Some _ |- _ =>
        apply num2_Some in H as (? & ? & ? & ? & ->)
    end.
  repeat first
    [ rewrite compare_same_cons
    | erewrite compare_digit_cons by eassumption ].
  cbn [String.compare].
  repeat match goal with
    | H : digit _ = Some _ |- _ => apply digit_Some in H as [? _]
    end.
  head_compare; close_compare.
Qed.

Lemma time_compare s s' h mi h' mi' :
  parse_hm (list_ascii_of_string s) = Some (h, mi) →
  parse_hm (list_ascii_of_string s') = Some (h', mi') →
  String.compare s s' = (100 * h + mi ?= 100 * h' + mi').
Proof.
  intros H H'.
  do 6 (destruct s as [|? s]; simpl in H; try discriminate H).
  do 6 (destruct s' as [|? s']; simpl in H'; try discriminate H').
  repeat match goal with
    | H : context [Ascii.eqb ?a ?b] |- _ =>
        destruct (Ascii.eqb_spec a b); simpl in H; [subst a|discriminate H]
    end.
  bind_cases.
  simplify_eq.
  repeat match goal with
    | H : num2 _ _ = Some _ |- _ =>
        apply num2_Some in H as (? & ? & ? & ? & ->)
    end.
  repeat first
    [ rewrite compare_same_cons
    | erewrite compare_digit_cons by eassumption ].
  cbn [String.compare].
  repeat match goal with
    | H : digit _ = Some _ |- _ => apply digit_Some in H as [? _]
    end.
  head_compare; close_compare.
Qed.

Lemma parse_ymd_length cs v : parse_ymd cs = Some v → length cs = 10%nat.
Proof.
  intros H. do 11 (destruct cs as [|? cs]; try discriminate H). done.
Qed.

Lemma parse_hm_hms cs h mi :
  parse_hm cs = Some (h, mi) →
  length cs = 5%nat ∧ 0 ≤ h ∧ 0 ≤ mi ∧
  parse_hms (cs ++ list_ascii_of_string ":00") = Some (h, mi, 0).
Proof.
  intros H. do 6 (destruct cs as [|? cs]; try discriminate H).
  split; [done|]. simpl in *.
  destruct (Ascii.eqb _ _); simpl in *; [|done].
  bind_cases. simpl. simplify_eq.
  repeat match goal with
    | H : num2 _ _ = Some _ |- _ => apply num2_range in H
    end.
  repeat split; lia || done.
Qed.

(** A well-formed entry denotes a local time. *)
Lemma well_formed_parse e :
  well_formed e = true →
  ∃ y m d h mi,
    parse_ymd (list_ascii_of_string (InspectionEntry.date e)) = Some (y, m, d)
    ∧ valid_ymd y m d = true
    ∧ parse_hm (list_ascii_of_string (InspectionEntry.time e)) = Some (h, mi)
    ∧ 0 ≤ h ≤ 23 ∧ 0 ≤ mi ≤ 59
    ∧ parse_local (dateTimeString e)
      = Some (MakeDate (MakeDay y m d) (MakeTime h mi 0)).
Proof.
  unfold well_formed, valid_date, valid_time.
  intros [Hd Ht]%andb_true_iff.
  destruct (parse_ymd _) as [[[y m] d]|] eqn:Eymd; [|done].
  destruct (parse_hm _) as [[h mi]|] eqn:Ehm; [|done].
  apply andb_true_iff in Ht as [Hh%Z.leb_le Hmi%Z.leb_le].
  exists y, m, d, h, mi.
  pose proof (parse_ymd_length _ _ Eymd) as Hlen.
  pose proof (parse_hm_hms _ _ _ Ehm) as (Hlen' & ? & ? & Ehms).
  repeat split; try done; try lia.
  unfold parse_local, dateTimeString.
  rewrite !list_ascii_of_string_app.
  change (list_ascii_of_string "T") with ["T"%char].
  cbn [app].
  rewrite take_app_length' by done.
  rewrite list_lookup_middle by done.
  change 11%nat with (10 + 1)%nat. rewrite drop_app_add' by done.
  cbn [drop]. rewrite drop_0.
  rewrite Eymd, Ehms. simpl.
  rewrite Hd. unfold valid_hms.
  destruct (Z.leb_spec h 23); [|lia]. by destruct (Z.leb_spec mi 59); [|lia].
Qed.

(** On well-formed entries the order of the composite key is the order
    of the local times. *)
Lemma key_compare_local a b ta tb :
  well_formed a = true → well_formed b = true →
  localTime a = Some ta → localTime b = Some tb →
  key_compare a b = (ta ?= tb).
Proof.
  intros (y & m & d & h & mi & Ed & Hv & Et & Hh & Hmi & Ep)%well_formed_parse
    (y' & m' & d' & h' & mi' & Ed' & Hv' & Et' & Hh' & Hmi' & Ep')%well_formed_parse.
  unfold localTime. rewrite Ep, Ep'. intros [= <-] [= <-].
  unfold key_compare.
  rewrite (date_compare _ _ _ _ _ _ _ _ Ed Ed').
  rewrite (time_compare _ _ _ _ _ _ Et Et').
  pose proof Hv as [Hm Hdd]%valid_ymd_spec.
  pose proof Hv' as [Hm' Hdd']%valid_ymd_spec.
  assert (DaysInMonth (InLeapYear y) m ≤ 31) by
    (unfold DaysInMonth; repeat case_match; lia).
  assert (DaysInMonth (InLeapYear y') m' ≤ 31) by
    (unfold DaysInMonth; repeat case_match; lia).
  unfold MakeDate, MakeTime, msPerDay.
  destruct (Z.compare_spec (10000 * y + 100 * m + d)
              (10000 * y' + 100 * m' + d')) as [Heq|Hlt|Hgt].
  - assert (y = y' ∧ m = m' ∧ d = d') as (<- & <- & <-) by lia.
    destruct (Z.compare_spec (100 * h + mi) (100 * h' + mi'));
      symmetry;
      [apply Z.compare_eq_iff|apply Z.compare_lt_iff|apply Z.compare_gt_iff];
      lia.
  - pose proof (MakeDay_mono y m d y' m' d' Hv Hv' ltac:(lia)).
    symmetry. apply Z.compare_lt_iff. lia.
  - pose proof (MakeDay_mono y' m' d' y m d Hv' Hv ltac:(lia)).
    symmetry. apply Z.compare_gt_iff. lia.
Qed.

End KeyFacts.

(** ** Photo keys *)

Section PhotoKeyFacts.

Lemma string_of_uint_digits d :
  Forall (λ a, is_digit a = true)
    (list_ascii_of_string (NilEmpty.string_of_uint d)).
Proof. induction d; simpl; by constructor. Qed.

Lemma decimal_digits n :
  Forall (λ a, is_digit a = true) (list_ascii_of_string (JS.decimal n)).
Proof.
  unfold JS.decimal, NilZero.string_of_uint.
  destruct (N.to_uint n) eqn:E; try apply string_of_uint_digits.
  repeat constructor.
Qed.

Lemma decimal_inj n n' : JS.decimal n = JS.decimal n' → n = n'.
Proof.
  unfold JS.decimal. intros H.
  assert (∀ m, N.to_uint m ≠ Decimal.Nil) as Hnonnil.
  { intros [|p]; [done|]. apply DecimalPos.Unsigned.to_uint_nonnil. }
  apply (f_equal NilZero.uint_of_string) in H.
  rewrite !NilZero.usu in H by apply Hnonnil.
  injection H as H. by apply DecimalN.Unsigned.to_uint_inj.
Qed.

(** A run of digits ends at the first character that is not a digit. *)
Lemma digits_split ds ds' c c' r r' :
  Forall (λ a, is_digit a = true) ds →
  Forall (λ a, is_digit a = true) ds' →
  is_digit c = false → is_digit c' = false →
  ds ++ c :: r = ds' ++ c' :: r' →
  ds = ds' ∧ c = c' ∧ r = r'.
Proof.
  intros Hds. revert ds'.
  induction Hds as [|a ds Ha Hds IH]; intros ds' Hds' Hc Hc' E.
  - destruct Hds' as [|a' ds' Ha' _]; simpl in E.
    + by simplify_eq.
    + simplify_eq. congruence.
  - destruct Hds' as [|a' ds' Ha' Hds']; simpl in E.
    + simplify_eq. congruence.
    + injection E as -> E.
      destruct (IH ds' Hds' Hc Hc' E) as (-> & -> & ->). done.
Qed.

Lemma list_ascii_of_string_inj s s' :
  list_ascii_of_string s = list_ascii_of_string s' → s = s'.
Proof.
  intros H. apply (f_equal string_of_list_ascii) in H.
  by rewrite !string_of_list_ascii_of_string in H.
Qed.

(** A photo key determines the project, the entry and the index. *)
Lemma photoKey_inj p n i p' n' i' :
  photoKey p (JS.decimal n) i = photoKey p' (JS.decimal n') i' →
  p = p' ∧ n = n' ∧ i = i'.
Proof.
  unfold photoKey. intros H.
  apply (f_equal list_ascii_of_string) in H.
  rewrite !list_ascii_of_string_app in H.
  apply (f_equal reverse) in H. rewrite !reverse_app in H.
  rewrite <- !app_assoc in H.
  change (reverse (list_ascii_of_string "/photo-"))
    with ("-"%char :: reverse (list_ascii_of_string "/photo")) in H.
  apply digits_split in H as (Hi & _ & H);
    [| by apply Forall_reverse, decimal_digits ..|done|done].
  cbn [app] in H. apply app_inv_head in H.
  change (reverse (list_ascii_of_string "/inspections/"))
    with ("/"%char :: reverse (list_ascii_of_string "/inspections")) in H.
  apply digits_split in H as (Hn & _ & H);
    [| by apply Forall_reverse, decimal_digits ..|done|done].
  apply app_inv_head in H.
  apply (inj reverse), list_ascii_of_string_inj in Hi, Hn, H.
  apply decimal_inj in Hi, Hn. split; [done|]. split; [done|lia].
Qed.

End PhotoKeyFacts.

(** ** Properties of the application *)

Section ObjectFacts.
Context {T : Type}.
Implicit Types (o : gmap string T) (k : string) (v : T).

Lemma inherited_false o k :
  inherited o k = false ↔ is_Some (o !! k) ∨ Object_prototype_get k = None.
Proof.
  unfold inherited, Object_get.
  destruct (o !! k) as [v|]; [by split; eauto|].
  destruct (Object_prototype_get k); split; try done.
  - by intros [[? ?]|?].
  - by right.
Qed.

Lemma inherited_true o k :
  inherited o k = true ↔ o !! k = None ∧ is_Some (Object_prototype_get k).
Proof.
  unfold inherited, Object_get.
  destruct (o !! k) as [v|]; [by split; [|intros []]|].
  destruct (Object_prototype_get k); split; try done; eauto.
  by intros [_ [? ?]].
Qed.

(** But for the name ["__proto__"] without an own property, [o[k] = v]
    adds or replaces the own property [k]. *)
Lemma Object_set_insert o k v :
  (k = "__proto__" → is_Some (o !! k)) → Object_set o k v = <[k := v]> o.
Proof.
  intros Hk. unfold Object_set. destruct (o !! k) as [w|] eqn:E; [done|].
  destruct (String.eqb_spec k "__proto__") as [->|]; [|done].
  by destruct (Hk eq_refl).
Qed.

Lemma Object_set_proto o v :
  o !! "__proto__" = None → Object_set o "__proto__" v = o.
Proof. intros E. unfold Object_set. by rewrite E. Qed.

Lemma Object_set_not_inherited o k v :
  inherited o k = false → Object_set o k v = <[k := v]> o.
Proof.
  intros [H|H]%inherited_false; apply Object_set_insert; [done|].
  by intros ->.
Qed.

Lemma Object_set_delete o k v : delete k (Object_set o k v) = delete k o.
Proof.
  unfold Object_set. destruct (o !! k); [by rewrite delete_insert_eq|].
  destruct (String.eqb k "__proto__"); [done|by rewrite delete_insert_eq].
Qed.

Lemma Object_set_lookup_ne o k k' v :
  k ≠ k' → Object_set o k v !! k' = o !! k'.
Proof.
  intros Hne. unfold Object_set.
  destruct (o !! k); [by rewrite lookup_insert_ne|].
  destruct (String.eqb k "__proto__"); [done|by rewrite lookup_insert_ne].
Qed.

Lemma Object_set_lookup_Some o k v k' r :
  Object_set o k v !! k' = Some r → (k' = k ∧ r = v) ∨ o !! k' = Some r.
Proof.
  unfold Object_set. intros H.
  assert (<[k := v]> o !! k' = Some r → (k' = k ∧ r = v) ∨ o !! k' = Some r)
    as Hins.
  { destruct (decide (k = k')) as [<-|Hne].
    - rewrite lookup_insert_eq. intros [= <-]. by left.
    - rewrite lookup_insert_ne by done. by right. }
  destruct (o !! k); [by apply Hins|].
  destruct (String.eqb k "__proto__"); [by right|by apply Hins].
Qed.

Lemma Object_get_Own o k v : o !! k = Some v → Object_get o k = Own v.
Proof. intros E. unfold Object_get. by rewrite E. Qed.

Lemma Object_get_Undefined o k :
  o !! k = None → Object_prototype_get k = None → Object_get o k = Undefined.
Proof. intros E E'. unfold Object_get. by rewrite E, E'. Qed.

End ObjectFacts.

Lemma Object_get_list {T : Type} (o : gmap string (list T)) (k : string) :
  inherited o k = false →
  match Object_get o k with Own l => l | _ => [] end = default [] (o !! k).
Proof.
  unfold inherited, Object_get. destruct (o !! k); [done|].
  by destruct (Object_prototype_get k).
Qed.

Section Properties.

Context {JSON_projects : JSON (gmap string ProjectMeta.t)}.
Context {JSON_inspections : JSON (gmap string (list InspectionEntry.t))}.
Context {engine : Engine}.
Variable UTC : Z → Z.

Lemma truthy_spec s : JS.truthy s = true ↔ s ≠ "".
Proof. destruct s; simpl; split; done. Qed.

(** *** Projects *)

Lemma saveProject_projects now st :
  JS.trim (DataForm.id (dataForm st)) ≠ "" →
  projects (saveProject now st)
  = Object_set (projects st) (JS.trim (DataForm.id (dataForm st)))
      (newProject now st).
Proof.
  intros Hid. unfold saveProject.
  apply truthy_spec in Hid. by rewrite Hid.
Qed.

Lemma saveProject_toast now st :
  JS.trim (DataForm.id (dataForm st)) ≠ "" →
  toasts (saveProject now st)
  = ToastSuccess
      match Object_get (projects st) (JS.trim (DataForm.id (dataForm st))) with
      | Own _ | Inherited _ => "Project updated."
      | Undefined => "Project created."
      end :: toasts st.
Proof.
  intros Hid. unfold saveProject.
  apply truthy_spec in Hid. by rewrite Hid.
Qed.

Lemma saveProject_rejected now st :
  JS.trim (DataForm.id (dataForm st)) = "" →
  saveProject now st = toast_error "Please enter a Project ID." st.
Proof. intros H. unfold saveProject. by rewrite H. Qed.

(** X22. Saving project metadata twice under one non-empty project ID
    updates in place, unless the ID is ["__proto__"] and the collection
    has no property of this name: the second save does not change the
    size of the collection, keeps the [createdAt] left by the first save
    and sets [updatedAt] to the time of the second save; with a clock
    that does not run backwards, [createdAt <= updatedAt]. *)
Theorem saveProject_twice (st : State) (form2 : DataForm.t) (t1 t2 : N) :
  let id := JS.trim (DataForm.id (dataForm st)) in
  let st1 := saveProject t1 st in
  let st2 := saveProject t2 (set_dataForm form2 st1) in
  id ≠ "" →
  JS.trim (DataForm.id form2) = id →
  (id = "__proto__" → is_Some (projects st !! id)) →
  size (projects st2) = size (projects st1)
  ∧ ∃ r1 r2,
      projects st1 !! id = Some r1
      ∧ projects st2 !! id = Some r2
      ∧ ProjectMeta.createdAt r2 = ProjectMeta.createdAt r1
      ∧ ProjectMeta.updatedAt r1 = t1
      ∧ ProjectMeta.updatedAt r2 = t2
      ∧ ((t1 ≤ t2)%N →
         (∀ r0, projects st !! id = Some r0 →
                (ProjectMeta.createdAt r0 ≤ t1)%N) →
         (ProjectMeta.createdAt r2 ≤ ProjectMeta.updatedAt r2)%N).
Proof.
  intros id st1 st2 Hid Hsame Hproto.
  assert (projects st1 = <[id := newProject t1 st]> (projects st)) as E1.
  { unfold st1. rewrite saveProject_projects by done.
    by apply Object_set_insert. }
  assert (projects st1 !! id = Some (newProject t1 st)) as Hr1
    by (by rewrite E1, lookup_insert_eq).
  assert (projects st2
          = <[id := newProject t2 (set_dataForm form2 st1)]> (projects st1))
    as E2.
  { unfold st2. rewrite saveProject_projects; cbn; rewrite Hsame; [|done].
    apply Object_set_insert. by rewrite Hr1. }
  split.
  - rewrite E2. apply map_size_insert_Some. eauto.
  - eexists _, _. split; [exact Hr1|]. split.
    { by rewrite E2, lookup_insert_eq. }
    unfold newProject at 1 3 4. cbn. rewrite Hsame. fold id.
    rewrite (Object_get_Own _ _ _ Hr1).
    split; [done|]. split; [done|]. split; [done|].
    intros Hclock Hpast. unfold newProject. cbn. fold id.
    unfold Object_get. destruct (projects st !! id) as [r0|] eqn:E0.
    + specialize (Hpast r0 eq_refl). lia.
    + destruct (Object_prototype_get id); lia.
Qed.

(** *** The photo loop *)

(** The loop writes to the photo store and to its log only. *)
Lemma savePhotos_frame tx pid eid files i keys st :
  let st' := (savePhotos tx pid eid i files keys st).2 in
  st' = set_idbLog (idbLog st') (set_photoStore (photoStore st') st).
Proof.
  revert i keys st. induction files as [|f files IH]; intros i keys st.
  { done. }
  cbn [savePhotos]. destruct (tx i); cbn [idbSet]; [|done..].
  cbv zeta in IH. rewrite IH at 1. done.
Qed.

Lemma savePhotos_keys tx pid eid files i keys st :
  all_complete tx i (length files) →
  (savePhotos tx pid eid i files keys st).1
  = (Resolved, keys ++ imap (λ j _, photoKey pid eid (i + j)) files).
Proof.
  revert i keys st. induction files as [|f files IH]; intros i keys st Hall.
  { simpl. by rewrite app_nil_r. }
  cbn [savePhotos].
  rewrite (Hall i) by (simpl; lia). cbn [idbSet].
  rewrite IH.
  - rewrite <- app_assoc. simpl. rewrite Nat.add_0_r. do 3 f_equal.
    apply imap_ext. intros j ? _. simpl. f_equal. lia.
  - intros j Hj. apply Hall. simpl. lia.
Qed.

Lemma savePhotos_failed tx pid eid files i keys st j :
  (i ≤ j < i + length files)%nat → tx j ≠ TxComplete →
  (savePhotos tx pid eid i files keys st).1.1 ≠ Resolved.
Proof.
  revert i keys st. induction files as [|f files IH]; intros i keys st Hj Hbad.
  { simpl in Hj. lia. }
  cbn [savePhotos].
  destruct (tx i) eqn:Ei; cbn [idbSet]; [|done..].
  apply IH; [|done]. simpl in Hj.
  destruct (decide (j = i)) as [->|]; [congruence|lia].
Qed.

(** *** Frame *)

Lemma saveInspectionEntry_frame nowId nowCreated nowUpdated tx st :
  let st' := (saveInspectionEntry UTC nowId nowCreated nowUpdated tx st).2 in
  projects st' = projects st
  ∧ match activeProjectId st with
    | Some p => delete p (inspections st') = delete p (inspections st)
    | None => inspections st' = inspections st
    end.
Proof.
  unfold saveInspectionEntry.
  destruct (activeProjectId st) as [p|]; [|done].
  destruct (JS.truthy p); [|done]. cbn [negb].
  destruct (negb (JS.truthy (entryDate st)) || negb (JS.truthy (entryTime st)));
    [done|].
  pose proof (savePhotos_frame tx p (JS.decimal nowId) (entryPhotos st) 0 [] st)
    as Hframe.
  destruct (savePhotos _ _ _ _ _ _ _) as [[[] keys] st1];
    cbv zeta in Hframe; cbn [snd] in *; rewrite Hframe; cbn; try done.
  destruct (Object_get (inspections st) p); cbn; try done;
    (split; [done|]); by rewrite Object_set_delete.
Qed.

(** C10. Saving a project changes the projects mapping at the key of
    the (trimmed) project ID only and leaves the inspections mapping
    as it is; submitting an inspection entry for project [p] changes the
    inspections mapping at key [p] only and leaves the projects mapping
    as it is. *)
Theorem frame_effect (st : State) (now nowId nowCreated nowUpdated : N)
  (tx : nat → TxOutcome) :
  (let st' := saveProject now st in
   let id := JS.trim (DataForm.id (dataForm st)) in
   inspections st' = inspections st
   ∧ delete id (projects st') = delete id (projects st))
  ∧ (let st' :=
       (saveInspectionEntry UTC nowId nowCreated nowUpdated tx st).2 in
     projects st' = projects st
     ∧ match activeProjectId st with
       | Some p => delete p (inspections st') = delete p (inspections st)
       | None => inspections st' = inspections st
       end).
Proof.
  split; [|apply saveInspectionEntry_frame].
  cbv zeta. unfold saveProject.
  destruct (JS.truthy _); cbn; [|done].
  split; [done|]. by rewrite Object_set_delete.
Qed.

(** *** Loading the collections *)

(** C8. Loading a collection from an absent payload, or from a payload
    that [JSON.parse] rejects, gives the empty mapping. *)
Theorem load_absent_or_corrupted (storage : gmap string string) :
  (storage !! LS_PROJECTS_KEY = None → loadProjects storage = ∅)
  ∧ (∀ raw, storage !! LS_PROJECTS_KEY = Some raw →
            JSON_parse (T := gmap string ProjectMeta.t) raw = None →
            loadProjects storage = ∅)
  ∧ (storage !! LS_INSPECTIONS_KEY = None → loadInspections storage = ∅)
  ∧ (∀ raw, storage !! LS_INSPECTIONS_KEY = Some raw →
            JSON_parse (T := gmap string (list InspectionEntry.t)) raw = None →
            loadInspections storage = ∅).
Proof.
  unfold loadProjects, loadInspections.
  repeat split.
  - by intros ->.
  - intros raw -> ->. by destruct (JS.truthy raw).
  - by intros ->.
  - intros raw -> ->. by destruct (JS.truthy raw).
Qed.

(** *** The access gate *)

Lemma handleSetPasscode_accepted st :
  (4 ≤ String.length (passcodeInput st))%nat →
  passcodeInput st = passcodeConfirm st →
  handleSetPasscode st
  = toast_success "Passcode set"
      (set_view ViewHome
         (set_authed true
            (set_hasPasscode true
               (set_localStorage
                  (<[LS_PASSCODE_HASH := sha256Base64 (passcodeInput st)]>
                     (localStorage st)) st)))).
Proof.
  intros Hlen Heq. unfold handleSetPasscode.
  destruct (passcodeInput st) as [|c s] eqn:E; [simpl in Hlen; lia|].
  cbn [JS.truthy negb orb].
  destruct (Nat.ltb_spec (String.length (String c s)) 4); [lia|].
  rewrite <- Heq, String.eqb_refl. done.
Qed.

Lemma handleSetPasscode_rejected st :
  (String.length (passcodeInput st) < 4)%nat
  ∨ passcodeInput st ≠ passcodeConfirm st →
  ∃ msg, handleSetPasscode st = toast_error msg st.
Proof.
  intros H. unfold handleSetPasscode.
  destruct (negb (JS.truthy (passcodeInput st))
            || (String.length (passcodeInput st) <? 4)%nat) eqn:E1; [eauto|].
  destruct (String.eqb_spec (passcodeInput st) (passcodeConfirm st)) as [Heq|];
    [|eauto].
  apply orb_false_iff in E1 as [_ E1%Nat.ltb_ge].
  destruct H; [lia|done].
Qed.

(** [verify] compares the digest of its input with the stored one. *)
Lemma verify_spec passcode st :
  verify passcode st
  = match localStorage st !! LS_PASSCODE_HASH with
    | Some stored =>
        JS.truthy passcode && JS.truthy stored
        && String.eqb (sha256Base64 passcode) stored
    | None => false
    end.
Proof.
  unfold verify, handleSignIn. cbn.
  destruct (JS.truthy passcode); cbn; [|by destruct (_ !! _)].
  destruct (localStorage st !! LS_PASSCODE_HASH) as [stored|]; [|done].
  destruct (JS.truthy stored); cbn; [|done].
  by destruct (String.eqb _ _).
Qed.

(** C4. After [setCredential "abcd"] (confirmed) the stored value is
    the SHA-256 digest of ["abcd"] in base 64, [verify "abcd"] is true
    and [verify "wrong"] is false, [verify] comparing the SHA-256 digest
    of its input with the stored one; [setCredential] with a passcode of
    fewer than 4 characters, or with a confirmation that differs, is
    rejected and stores nothing. *)
Theorem passcode_contract :
  (∀ st, let st' := setCredential "abcd" "abcd" st in
         localStorage st' !! LS_PASSCODE_HASH
         = Some "iNQmb9TmM40TuEX88olXnSCciXgjuSF9o+Fhk28DFYk="
         ∧ verify "abcd" st' = true
         ∧ verify "wrong" st' = false)
  ∧ (∀ st passcode,
       (4 ≤ String.length passcode)%nat →
       localStorage (setCredential passcode passcode st) !! LS_PASSCODE_HASH
       = Some (Base64.encode (Sha256.digest (TextEncoder_encode passcode))))
  ∧ (∀ st passcode stored,
       localStorage st !! LS_PASSCODE_HASH = Some stored →
       passcode ≠ "" → stored ≠ "" →
       (verify passcode st = true ↔ sha256Base64 passcode = stored))
  ∧ (∀ st passcode, localStorage st !! LS_PASSCODE_HASH = None →
       verify passcode st = false)
  ∧ (∀ st passcode confirm,
       (String.length passcode < 4)%nat ∨ passcode ≠ confirm →
       let st' := setCredential passcode confirm st in
       localStorage st' = localStorage st
       ∧ hasPasscode st' = hasPasscode st
       ∧ authed st' = authed st
       ∧ ∃ msg, toasts st' = ToastError msg :: toasts st).
Proof.
  assert (∀ st, setCredential "abcd" "abcd" st
      = toast_success "Passcode set"
          (set_view ViewHome
             (set_authed true
                (set_hasPasscode true
                   (set_localStorage
                      (<[LS_PASSCODE_HASH := sha256Base64 "abcd"]>
                         (localStorage st))
                      (set_passcodeConfirm "abcd"
                         (set_passcodeInput "abcd" st))))))) as Hset.
  { intros st. unfold setCredential.
    by rewrite handleSetPasscode_accepted by (cbn; lia || done). }
  split; [|split; [|split; [|split]]].
  - intros st. cbv zeta. rewrite !verify_spec, Hset. cbn.
    rewrite lookup_insert_eq. split; [by vm_compute|]. split; by vm_compute.
  - intros st passcode Hlen. unfold setCredential.
    rewrite handleSetPasscode_accepted by done. cbn.
    by rewrite lookup_insert_eq.
  - intros st passcode stored Hstored Hp%truthy_spec Hs%truthy_spec.
    rewrite verify_spec, Hstored, Hp, Hs. cbn. apply String.eqb_eq.
  - intros st passcode Hnone. by rewrite verify_spec, Hnone.
  - intros st passcode confirm Hbad. unfold setCredential.
    destruct (handleSetPasscode_rejected
      (set_passcodeConfirm confirm (set_passcodeInput passcode st)) Hbad)
      as [msg ->].
    cbn. eauto.
Qed.

Lemma mount_gate storage photos today now :
  gate (mount storage photos today now)
  = match storage !! LS_PASSCODE_HASH with
    | Some h => if JS.truthy h then Locked else NoCredential
    | None => NoCredential
    end.
Proof. unfold gate, mount. cbn. by destruct (storage !! _). Qed.

(** *** The timeline *)

Lemma filter_StronglySorted {A} (R : A → A → Prop) (f : A → bool) l :
  StronglySorted R l → StronglySorted R (List.filter f l).
Proof.
  induction 1 as [|x l Hs IH Hx]; simpl; [constructor|].
  destruct (f x); [|done].
  constructor; [done|].
  rewrite Forall_forall in Hx |- *. intros y Hy%list_elem_of_In.
  apply filter_In in Hy as [Hy%list_elem_of_In _]. by apply Hx.
Qed.

Lemma filter_sublist {A} (f : A → bool) l : sublist (List.filter f l) l.
Proof.
  induction l as [|x l IH]; simpl; [constructor|].
  destruct (f x); by constructor.
Qed.

(** The report dialog sets no empty filter date. *)
Lemma reportByDate_filterDate st d :
  filterDate (reportByDate st) = Some d → filterDate st = Some d ∨ d ≠ "".
Proof.
  unfold reportByDate.
  destruct (JS.truthy (JS.trim (reportId st))); cbn; [|by left].
  destruct (JS.truthy (reportDate st)) eqn:E; cbn; [|by left].
  intros [= <-]. right. by apply truthy_spec.
Qed.

Lemma InspectionList_stored st projectId :
  inherited (inspections st) projectId = false →
  InspectionList projectId None st
  = Some (default [] (inspections st !! projectId)).
Proof.
  intros Hown. unfold InspectionList. rewrite <- (Object_get_list _ _ Hown).
  unfold inherited in Hown.
  by destruct (Object_get (inspections st) projectId).
Qed.

Lemma timeline_filter_stored st projectId d :
  d ≠ "" →
  inherited (inspections st) projectId = false →
  InspectionList projectId None st
  = Some (default [] (inspections st !! projectId))
  ∧ InspectionList projectId (Some d) st
    = Some (List.filter (λ e, String.eqb (InspectionEntry.date e) d)
              (default [] (inspections st !! projectId))).
Proof.
  intros Hd Hown. split; [by apply InspectionList_stored|].
  unfold InspectionList. rewrite <- (Object_get_list _ _ Hown).
  unfold inherited in Hown. apply truthy_spec in Hd. rewrite Hd.
  by destruct (Object_get (inspections st) projectId).
Qed.

(** X24. The timeline of a project ID that is not inherited from
    [Object.prototype] is the stored list of the project, empty when
    there is none; with a (non-empty) filter date it is the stored list
    filtered by [e.date === filterDate], in the order of the stored list:
    newest first if that one is, and empty when no entry has the date. *)
Theorem timeline_filter (st : State) (projectId d : string) :
  d ≠ "" →
  inherited (inspections st) projectId = false →
  let stored := default [] (inspections st !! projectId) in
  let shown :=
    List.filter (λ e, String.eqb (InspectionEntry.date e) d) stored in
  InspectionList projectId None st = Some stored
  ∧ InspectionList projectId (Some d) st = Some shown
  ∧ (∀ e, e ∈ shown ↔ e ∈ stored ∧ InspectionEntry.date e = d)
  ∧ sublist shown stored
  ∧ (StronglySorted not_older stored → StronglySorted not_older shown)
  ∧ ((∀ e, e ∈ stored → InspectionEntry.date e ≠ d) → shown = [])
  ∧ (inspections st !! projectId = None → stored = []).
Proof.
  intros Hd Hown stored shown.
  assert (InspectionList projectId None st = Some stored) as Eall
    by (by apply InspectionList_stored).
  assert (InspectionList projectId (Some d) st = Some shown) as Eshown
    by (by apply timeline_filter_stored).
  split; [done|]. split; [done|].
  split; [|split; [|split; [|split]]].
  - intros e. unfold shown.
    rewrite !list_elem_of_In, filter_In, String.eqb_eq. done.
  - apply filter_sublist.
  - apply filter_StronglySorted.
  - unfold shown. clearbody stored. clear Eall Eshown. intros Hno.
    induction stored as [|e l IH]; [done|]. simpl.
    destruct (String.eqb_spec (InspectionEntry.date e) d) as [Heq|_].
    + exfalso. apply (Hno e); [|done]. rewrite elem_of_cons. by left.
    + apply IH. intros e' He'. apply Hno. rewrite elem_of_cons. by right.
  - unfold stored. by intros ->.
Qed.

(** *** Photo URLs *)

Lemma createObjectURL_nonempty st : (createObjectURL st).1 ≠ "".
Proof. done. Qed.


(** *** Submitting an inspection entry *)

Lemma saveInspectionEntry_resolved nowId nowCreated nowUpdated tx st p :
  admitted p st →
  all_complete tx 0 (length (entryPhotos st)) →
  inherited (inspections st) p = false →
  ∃ st',
    saveInspectionEntry UTC nowId nowCreated nowUpdated tx st = (Resolved, st')
    ∧ inspections st'
      = <[p := Array_sort (newestFirst UTC)
                 (default [] (inspections st !! p)
                  ++ [newEntry p nowId nowCreated nowUpdated st])]>
          (inspections st)
    ∧ toasts st' = ToastSuccess "Inspection saved." :: toasts st.
Proof.
  intros (Hp & Hne%truthy_spec & Hd%truthy_spec & Ht%truthy_spec) Hall Hown.
  unfold saveInspectionEntry. rewrite Hp, Hne, Hd, Ht. cbn [negb orb].
  pose proof (savePhotos_frame tx p (JS.decimal nowId) (entryPhotos st) 0 [] st)
    as Hframe.
  pose proof (savePhotos_keys tx p (JS.decimal nowId) (entryPhotos st) 0 [] st
                Hall) as Hkeys.
  destruct (savePhotos _ _ _ _ _ _ _) as [[o keys] st1].
  cbv zeta in Hframe. cbn [fst snd] in *. injection Hkeys as -> ->.
  rewrite Hframe. cbn.
  rewrite <- (Object_get_list _ _ Hown).
  rewrite <- (Object_set_not_inherited _ _ _ Hown).
  unfold inherited in Hown.
  destruct (Object_get (inspections st) p); [|done|]; by eexists.
Qed.

(** A project ID that [inspections] inherits from [Object.prototype]:
    the photos are written, then the handler throws. *)
Lemma saveInspectionEntry_inherited nowId nowCreated nowUpdated tx st p :
  admitted p st →
  all_complete tx 0 (length (entryPhotos st)) →
  inherited (inspections st) p = true →
  ∃ st',
    saveInspectionEntry UTC nowId nowCreated nowUpdated tx st = (Rejected, st')
    ∧ st' = set_idbLog (idbLog st') (set_photoStore (photoStore st') st).
Proof.
  intros (Hp & Hne%truthy_spec & Hd%truthy_spec & Ht%truthy_spec) Hall Hinh.
  unfold saveInspectionEntry. rewrite Hp, Hne, Hd, Ht. cbn [negb orb].
  pose proof (savePhotos_frame tx p (JS.decimal nowId) (entryPhotos st) 0 [] st)
    as Hframe.
  pose proof (savePhotos_keys tx p (JS.decimal nowId) (entryPhotos st) 0 [] st
                Hall) as Hkeys.
  destruct (savePhotos _ _ _ _ _ _ _) as [[o keys] st1].
  cbv zeta in Hframe. cbn [fst snd] in *. injection Hkeys as -> ->.
  rewrite Hframe. cbn. unfold inherited in Hinh.
  destruct (Object_get (inspections st) p); [done| |done].
  eexists. split; [done|]. done.
Qed.





(** *** The order of the timeline *)

Lemma well_formed_getTime e :
  well_formed e = true →
  ∃ t, localTime e = Some t ∧ getTime UTC e = Some (UTC t).
Proof.
  intros (y & m & d & h & mi & _ & _ & _ & _ & _ & Ep)%well_formed_parse.
  unfold getTime, localTime. rewrite Ep. eauto.
Qed.

Lemma newestFirst_by_key l :
  Forall (λ e, well_formed e = true) l →
  by_key (newestFirst UTC) (stamp UTC) l.
Proof.
  rewrite Forall_forall. intros Hwf a b Ha Hb.
  destruct (well_formed_getTime a (Hwf a Ha)) as (ta & _ & Ea).
  destruct (well_formed_getTime b (Hwf b Hb)) as (tb & _ & Eb).
  unfold newestFirst, stamp. by rewrite Ea, Eb.
Qed.

Lemma same_key_one_key d t l : one_key (stamp UTC) (same_key d t) l.
Proof.
  intros a b _ _ [Ha1 Ha2]%andb_true_iff [Hb1 Hb2]%andb_true_iff.
  apply String.eqb_eq in Ha1, Ha2, Hb1, Hb2.
  unfold stamp, getTime, localTime, dateTimeString.
  by rewrite Ha1, Ha2, Hb1, Hb2.
Qed.

(** Where the local times keep their order as time values, a list in
    descending order of the time values is newest first by
    [(date, time)]. *)
Lemma descending_keeps_order l :
  Forall (λ e, well_formed e = true) l → keeps_order UTC l →
  descending (stamp UTC) l → StronglySorted not_older l.
Proof.
  intros Hwf Hkeep Hdesc.
  eapply (StronglySorted_impl_on (λ e, well_formed e = true ∧ e ∈ l));
    [| |exact Hdesc].
  - intros a b [Ha Hal] [Hb Hbl] Hle.
    destruct (well_formed_getTime a Ha) as (ta & Hla & Ea).
    destruct (well_formed_getTime b Hb) as (tb & Hlb & Eb).
    unfold stamp in Hle. rewrite Ea, Eb in Hle. cbn in Hle.
    unfold not_older. rewrite (key_compare_local a b ta tb) by done.
    intros Hlt%Z.compare_lt_iff.
    specialize (Hkeep a b ta tb Hal Hbl Hla Hlb Hlt). lia.
  - rewrite Forall_forall in Hwf |- *. auto.
Qed.

(** C1, as the code has it. An entry whose date and time have the
    formats of the data model is submitted to a project whose entries
    have them too, under a project ID that [inspections] does not inherit
    from [Object.prototype]. The stored list of the project is then the
    old list with the new entry, in descending order of the time values
    of the entries, entries of equal time value, and so those of equal
    [(date, time)], in their former order (the new entry last among
    them); it is sorted by [(date, time)], newest first, when the local
    times of its entries keep their order as time values. Its entries
    have the formats of the data model again. *)
Theorem entries_newest_first (st : State) (nowId nowCreated nowUpdated : N)
  (tx : nat → TxOutcome) (p : string) :
  admitted p st →
  all_complete tx 0 (length (entryPhotos st)) →
  inherited (inspections st) p = false →
  valid_date (entryDate st) = true →
  valid_time (entryTime st) = true →
  Forall (λ e, well_formed e = true) (default [] (inspections st !! p)) →
  let old := default [] (inspections st !! p) in
  let entry := newEntry p nowId nowCreated nowUpdated st in
  let st' := (saveInspectionEntry UTC nowId nowCreated nowUpdated tx st).2 in
  ∃ l,
    inspections st' !! p = Some l
    ∧ InspectionList p None st' = Some l
    ∧ l ≡ₚ old ++ [entry]
    ∧ Forall (λ e, well_formed e = true) l
    ∧ descending (stamp UTC) l
    ∧ (∀ v, List.filter (λ e, stamp UTC e =? v)%Z l
            = List.filter (λ e, stamp UTC e =? v)%Z (old ++ [entry]))
    ∧ (∀ d t,
         List.filter (same_key d t) l
         = List.filter (same_key d t) (old ++ [entry]))
    ∧ (keeps_order UTC (old ++ [entry]) → StronglySorted not_older l).
Proof.
  intros Hadm Hall Hown Hdate Htime Hold old entry st'.
  destruct (saveInspectionEntry_resolved nowId nowCreated nowUpdated tx st p
              Hadm Hall Hown) as (st1 & Hrun & Hins & _).
  unfold st'. rewrite Hrun. cbn [snd]. fold entry old in Hins.
  assert (Forall (λ e, well_formed e = true) (old ++ [entry])) as Hwf.
  { apply Forall_app. split; [done|]. constructor; [|done].
    unfold well_formed, entry, newEntry. cbn. by rewrite Hdate, Htime. }
  pose proof (newestFirst_by_key _ Hwf) as Hkey.
  set (l := Array_sort (newestFirst UTC) (old ++ [entry])) in *.
  assert (l ≡ₚ old ++ [entry]) as Hperm by apply Array_sort_perm.
  assert (inspections st1 !! p = Some l) as Hl
    by (by rewrite Hins, lookup_insert_eq).
  assert (descending (stamp UTC) l) as Hdesc
    by (by apply Array_sort_descending).
  exists l. split; [done|]. split.
  { rewrite InspectionList_stored, Hl; [done|].
    apply inherited_false. left. by rewrite Hl. }
  split; [done|]. split; [by rewrite Hperm|]. split; [done|]. split.
  { intros v. apply (Array_sort_stable _ (stamp UTC)); [done|].
    intros a b _ _ Ha%Z.eqb_eq Hb%Z.eqb_eq. congruence. }
  split.
  { intros d t. apply (Array_sort_stable _ (stamp UTC)); [done|].
    apply same_key_one_key. }
  intros Hkeep. apply descending_keeps_order; [by rewrite Hperm| |done].
  intros a b ta tb Ha Hb. apply Hkeep; by rewrite <- Hperm.
Qed.

(** *** Photo keys of the store *)

Lemma named_distinct_unique (m : gmap string (list InspectionEntry.t)) :
  keys_named m → ids_distinct m → unique_photoKeys m.
Proof.
  intros Hnamed Hids p n i p' n' i' k Hk Hk'.
  unfold key_at in Hk, Hk'.
  destruct (m !! p) as [l|] eqn:El; [|done].
  destruct (m !! p') as [l'|] eqn:El'; [|done]. cbn in Hk, Hk'.
  destruct (l !! n) as [e|] eqn:Ee; [|done].
  destruct (l' !! n') as [e'|] eqn:Ee'; [|done]. cbn in Hk, Hk'.
  destruct (Hnamed p l e El) as [[x Hx] Hkeys].
  { by eapply list_elem_of_lookup_2. }
  destruct (Hnamed p' l' e' El') as [[x' Hx'] Hkeys'].
  { by eapply list_elem_of_lookup_2. }
  apply Hkeys in Hk. apply Hkeys' in Hk'. rewrite Hx in Hk. rewrite Hx' in Hk'.
  rewrite Hk in Hk'. apply photoKey_inj in Hk' as (-> & -> & ->).
  split; [done|]. split; [|done].
  rewrite El in El'. injection El' as <-.
  eapply NoDup_lookup; [by apply (Hids p' l)|..];
    rewrite list_lookup_fmap.
  - by rewrite Ee.
  - rewrite Ee'. cbn. congruence.
Qed.

Lemma newEntry_photoKeys p nowId nowCreated nowUpdated st i :
  InspectionEntry.photoKeys (newEntry p nowId nowCreated nowUpdated st) !! i
  = (λ _, photoKey p (JS.decimal nowId) i) <$> entryPhotos st !! i.
Proof. unfold newEntry. cbn. by rewrite list_lookup_imap. Qed.

(** X23. A submission with N photos gives the new entry exactly N keys, the
    key at index [i] being
    [`${projectId}/inspections/${entryId}/photo-${i}`] with the entry ID
    written from the reading of [Date.now()]; the entry is stored unless
    the project ID is inherited from [Object.prototype]. A key determines
    the project, the entry ID and the index; so the keys of a store whose
    entries were named in this way are unique whenever the entry IDs of
    each project differ, and a submission keeps them unique when no entry
    of the project has the ID of the new one. *)
Theorem photoKeys_of_entry (st : State) (nowId nowCreated nowUpdated : N)
  (tx : nat → TxOutcome) (p : string) :
  admitted p st →
  all_complete tx 0 (length (entryPhotos st)) →
  let entry := newEntry p nowId nowCreated nowUpdated st in
  let st' := (saveInspectionEntry UTC nowId nowCreated nowUpdated tx st).2 in
  (inherited (inspections st) p = false →
   ∃ l, inspections st' !! p = Some l ∧ entry ∈ l)
  ∧ length (InspectionEntry.photoKeys entry) = length (entryPhotos st)
  ∧ (∀ i, (i < length (entryPhotos st))%nat →
          InspectionEntry.photoKeys entry !! i
          = Some (p +:+ "/inspections/" +:+ JS.decimal nowId +:+ "/photo-"
                    +:+ JS.decimal (N.of_nat i)))
  ∧ NoDup (InspectionEntry.photoKeys entry)
  ∧ (∀ q n i q' n' i',
       photoKey q (JS.decimal n) i = photoKey q' (JS.decimal n') i' →
       q = q' ∧ n = n' ∧ i = i')
  ∧ (keys_named (inspections st) → ids_distinct (inspections st) →
     JS.decimal nowId
       ∉ InspectionEntry.id <$> default [] (inspections st !! p) →
     keys_named (inspections st') ∧ ids_distinct (inspections st')
     ∧ unique_photoKeys (inspections st')).
Proof.
  intros Hadm Hall entry st'.
  assert (∀ q n i q' n' i',
       photoKey q (JS.decimal n) i = photoKey q' (JS.decimal n') i' →
       q = q' ∧ n = n' ∧ i = i') as Hinj
    by (intros q n i q' n' i'; apply photoKey_inj).
  assert (NoDup (InspectionEntry.photoKeys entry)) as Hnodup.
  { apply NoDup_alt. intros i j k Hi Hj.
    unfold entry in Hi, Hj. rewrite newEntry_photoKeys in Hi, Hj.
    destruct (entryPhotos st !! i); [|done].
    destruct (entryPhotos st !! j); [|done]. cbn in Hi, Hj.
    assert (photoKey p (JS.decimal nowId) i = photoKey p (JS.decimal nowId) j)
      as E by congruence.
    by apply photoKey_inj in E as (_ & _ & ?). }
  assert (∀ i, (i < length (entryPhotos st))%nat →
          InspectionEntry.photoKeys entry !! i
          = Some (p +:+ "/inspections/" +:+ JS.decimal nowId +:+ "/photo-"
                    +:+ JS.decimal (N.of_nat i))) as Hformat.
  { intros i Hi. unfold entry. rewrite newEntry_photoKeys.
    destruct (lookup_lt_is_Some_2 (entryPhotos st) i Hi) as [f ->]. done. }
  assert (length (InspectionEntry.photoKeys entry) = length (entryPhotos st))
    as Hlen by (unfold entry, newEntry; cbn; by rewrite length_imap).
  destruct (inherited (inspections st) p) eqn:Hown.
  { destruct (saveInspectionEntry_inherited nowId nowCreated nowUpdated tx st p
                Hadm Hall Hown) as (st1 & Hrun & Hframe).
    unfold st'. rewrite Hrun. cbn [snd].
    do 5 (split; [done|]). rewrite Hframe. cbn.
    intros Hnamed Hids _. split; [done|]. split; [done|].
    by apply named_distinct_unique. }
  destruct (saveInspectionEntry_resolved nowId nowCreated nowUpdated tx st p
              Hadm Hall Hown) as (st1 & Hrun & Hins & _).
  unfold st'. rewrite Hrun. cbn [snd]. fold entry in Hins.
  set (old := default [] (inspections st !! p)) in *.
  set (l := Array_sort (newestFirst UTC) (old ++ [entry])) in *.
  assert (l ≡ₚ old ++ [entry]) as Hperm by apply Array_sort_perm.
  split; [|do 4 (split; [done|])].
  - intros _. exists l. split; [by rewrite Hins, lookup_insert_eq|].
    rewrite Hperm, elem_of_app, list_elem_of_singleton. by right.
  - intros Hnamed Hids Hfresh.
    assert (keys_named (inspections st1)) as Hnamed1.
    { intros q lq e Hq He. rewrite Hins in Hq.
      destruct (decide (p = q)) as [<-|Hne].
      - rewrite lookup_insert_eq in Hq. injection Hq as <-.
        rewrite Hperm, elem_of_app, list_elem_of_singleton in He.
        destruct He as [He| ->].
        + unfold old in He. destruct (inspections st !! p) as [lp|] eqn:Ep.
          * by apply (Hnamed p lp).
          * by apply elem_of_nil in He.
        + split; [by exists nowId|]. intros i k.
          unfold entry. rewrite newEntry_photoKeys.
          destruct (entryPhotos st !! i); [|done]. cbn. congruence.
      - rewrite lookup_insert_ne in Hq by done. by apply (Hnamed q lq). }
    assert (ids_distinct (inspections st1)) as Hids1.
    { intros q lq Hq. rewrite Hins in Hq.
      destruct (decide (p = q)) as [<-|Hne].
      - rewrite lookup_insert_eq in Hq. injection Hq as <-.
        rewrite Hperm, fmap_app. apply NoDup_app. split; [|split].
        + unfold old. destruct (inspections st !! p) as [lp|] eqn:Ep.
          * by apply (Hids p lp).
          * constructor.
        + intros x Hx [->|[]%elem_of_nil]%elem_of_cons. by apply Hfresh.
        + cbn. apply NoDup_singleton.
      - rewrite lookup_insert_ne in Hq by done. by apply (Hids q lq). }
    split; [done|]. split; [done|]. by apply named_distinct_unique.
Qed.

End Properties.

(** ** Strings and digests *)

Section StringFacts.

Lemma list_ascii_of_string_rev_app s1 s2 :
  list_ascii_of_string (String.rev_app s1 s2)
  = reverse (list_ascii_of_string s1) ++ list_ascii_of_string s2.
Proof.
  revert s2. induction s1 as [|a s1 IH]; intros s2; [done|].
  cbn [String.rev_app list_ascii_of_string]. rewrite IH, reverse_cons.
  by rewrite <- app_assoc.
Qed.

Lemma list_ascii_of_string_rev s :
  list_ascii_of_string (String.rev s) = reverse (list_ascii_of_string s).
Proof.
  unfold String.rev. rewrite list_ascii_of_string_rev_app. apply app_nil_r.
Qed.

Lemma string_rev_involutive s : String.rev (String.rev s) = s.
Proof.
  apply list_ascii_of_string_inj.
  by rewrite !list_ascii_of_string_rev, reverse_involutive.
Qed.

Lemma trimStart_black s : starts_black s → JS.trimStart s = s.
Proof. destruct s as [|a s]; [done|]. simpl. by intros ->. Qed.

Lemma trimStart_starts_black s : starts_black (JS.trimStart s).
Proof.
  induction s as [|a s IH]; [done|]. simpl.
  by destruct (JS.is_white a) eqn:E.
Qed.

Lemma trimStart_suffix s :
  ∃ pre, list_ascii_of_string s
         = pre ++ list_ascii_of_string (JS.trimStart s).
Proof.
  induction s as [|a s [pre IH]]; [by exists []|]. simpl.
  destruct (JS.is_white a).
  - exists (a :: pre). simpl. by rewrite IH.
  - by exists [].
Qed.

Lemma starts_black_list s :
  starts_black s ↔
  match list_ascii_of_string s with
  | [] => True
  | a :: _ => JS.is_white a = false
  end.
Proof. by destruct s. Qed.

(** What [trimStart] leaves of a reversed string that started black,
    reversed again, starts black. *)
Lemma rev_trimStart_rev_black t :
  starts_black t → starts_black (String.rev (JS.trimStart (String.rev t))).
Proof.
  intros Ht. destruct (trimStart_suffix (String.rev t)) as [pre Hpre].
  apply starts_black_list. rewrite list_ascii_of_string_rev.
  apply (f_equal reverse) in Hpre.
  rewrite list_ascii_of_string_rev, reverse_involutive, reverse_app in Hpre.
  apply starts_black_list in Ht. rewrite Hpre in Ht.
  by destruct (reverse (list_ascii_of_string _)).
Qed.

Lemma trim_idempotent s : JS.trim (JS.trim s) = JS.trim s.
Proof.
  unfold JS.trim, JS.trimEnd.
  pose proof (trimStart_starts_black s) as Ht.
  set (t := JS.trimStart s) in *.
  rewrite (trimStart_black (String.rev (JS.trimStart (String.rev t))))
    by (by apply rev_trimStart_rev_black).
  rewrite string_rev_involutive.
  by rewrite (trimStart_black (JS.trimStart (String.rev t)))
    by apply trimStart_starts_black.
Qed.

Lemma trim_blank s :
  Forall (λ a, JS.is_white a = true) (list_ascii_of_string s) →
  JS.trim s = "".
Proof.
  intros H. unfold JS.trim, JS.trimEnd.
  assert (JS.trimStart s = "") as ->; [|done].
  induction s as [|a s IH]; [done|].
  apply Forall_cons in H as [Ha Hs]. simpl. rewrite Ha. by apply IH.
Qed.

Lemma trim_normal s : JS.trim s ≠ "" → normal_id (JS.trim s).
Proof. intros H. split; [done|apply trim_idempotent]. Qed.

(** A digest has 32 bytes, its text in base 64 has 44 characters. *)
Lemma digest_length msg : length (Sha256.digest msg) = 32%nat.
Proof.
  unfold Sha256.digest.
  generalize (Sha256.blocks (length (Sha256.be_words (Sha256.pad msg)))
                Sha256.init (Sha256.be_words (Sha256.pad msg))).
  intros h. reflexivity.
Qed.

Lemma get_elem_of n s a :
  String.get n s = Some a → a ∈ list_ascii_of_string s.
Proof.
  revert n. induction s as [|c s IH]; intros n; cbn; [done|].
  destruct n as [|n]; [intros [= ->]; by left|].
  intros H. right. by apply (IH n).
Qed.

Lemma get_is_Some n s :
  (n < String.length s)%nat → is_Some (String.get n s).
Proof.
  revert n. induction s as [|c s IH]; intros n; cbn; [lia|].
  destruct n as [|n]; [by eexists|]. intros H. apply IH. lia.
Qed.

Lemma sextet_alphabet v :
  Base64.sextet v ∈ list_ascii_of_string Base64.alphabet.
Proof.
  unfold Base64.sextet.
  destruct (get_is_Some (N.to_nat (v mod 64)) Base64.alphabet) as [a Ea].
  { pose proof (N.mod_upper_bound v 64).
    change (String.length Base64.alphabet) with 64%nat. lia. }
  rewrite Ea. by apply (get_elem_of (N.to_nat (v mod 64))).
Qed.

Lemma encode_32 bytes :
  length bytes = 32%nat →
  String.length (Base64.encode bytes) = 44%nat
  ∧ Forall (λ c, c ∈ list_ascii_of_string (Base64.alphabet +:+ "="))
      (list_ascii_of_string (Base64.encode bytes)).
Proof.
  intros H. do 33 (destruct bytes as [|? bytes]; [discriminate H||idtac|]);
    try discriminate H.
  split; [reflexivity|]. cbn [Base64.encode list_ascii_of_string].
  rewrite list_ascii_of_string_app.
  repeat (apply Forall_cons; split;
    [first [ apply elem_of_app; left; apply sextet_alphabet
           | apply elem_of_app; right; vm_compute; set_solver ] |]).
  constructor.
Qed.

End StringFacts.

(** ** The application, step by step *)

Section Coverage.

Context {JSON_projects : JSON (gmap string ProjectMeta.t)}.
Context {JSON_inspections : JSON (gmap string (list InspectionEntry.t))}.
Context {engine : Engine}.
Variable UTC : Z → Z.

Lemma sha256Base64_length input : String.length (sha256Base64 input) = 44%nat.
Proof.
  unfold sha256Base64. apply encode_32, digest_length.
Qed.

Lemma sha256Base64_truthy input : JS.truthy (sha256Base64 input) = true.
Proof.
  pose proof (sha256Base64_length input) as H.
  by destruct (sha256Base64 input).
Qed.

(** What a submission does to the fields of the state: it touches the
    photo store and its log, and, when it goes through, the inspections
    with their stored copy, the form and the toasts. *)
Lemma saveInspectionEntry_cases nowId nowCreated nowUpdated tx st :
  let st' := (saveInspectionEntry UTC nowId nowCreated nowUpdated tx st).2 in
  (view st' = view st ∧ authed st' = authed st
   ∧ hasPasscode st' = hasPasscode st ∧ projects st' = projects st
   ∧ activeProjectId st' = activeProjectId st
   ∧ photoURLCache st' = photoURLCache st ∧ objectURLs st' = objectURLs st)
  ∧ ((inspections st' = inspections st ∧ localStorage st' = localStorage st)
     ∨ ∃ p e,
         admitted p st
         ∧ InspectionEntry.date e = entryDate st
         ∧ InspectionEntry.time e = entryTime st
         ∧ inspections st'
           = <[p := Array_sort (newestFirst UTC)
                      (default [] (inspections st !! p) ++ [e])]>
               (inspections st)
         ∧ localStorage st'
           = <[LS_INSPECTIONS_KEY := JSON_stringify (inspections st')]>
               (localStorage st)).
Proof.
  unfold saveInspectionEntry.
  destruct (activeProjectId st) as [p|] eqn:Ep; [|by auto 10].
  destruct (JS.truthy p) eqn:Et; [|by auto 10]. cbn [negb].
  destruct (JS.truthy (entryDate st)) eqn:Ed; [|by cbn; auto 10].
  destruct (JS.truthy (entryTime st)) eqn:Eti; [|by cbn; auto 10].
  cbn [negb orb].
  pose proof (savePhotos_frame tx p (JS.decimal nowId) (entryPhotos st) 0 [] st)
    as Hframe.
  destruct (savePhotos _ _ _ _ _ _ _) as [[[] keys] st1];
    cbv zeta in Hframe; cbn [snd] in *; rewrite Hframe; cbn;
    rewrite ?Ep; try by auto 10.
  assert (admitted p st) as Hadm by (by repeat split; try apply truthy_spec).
  unfold Object_get, Object_set.
  destruct (inspections st !! p) as [l|] eqn:El; cbn.
  { rewrite ?Ep. split; [done|]. right. eexists p, _. split; [done|].
    rewrite El. cbn.
    split; [|split; [|split]]; [| |reflexivity|reflexivity]; reflexivity. }
  destruct (Object_prototype_get p) eqn:Eproto; cbn; rewrite ?Ep;
    [by auto 10|].
  destruct (String.eqb_spec p "__proto__") as [->|Hne]; [done|].
  split; [done|]. right. eexists p, _. split; [done|].
  rewrite El. cbn.
  split; [|split; [|split]]; [| |reflexivity|reflexivity]; reflexivity.
Qed.

Lemma photoURLFromKey_cases tx key st :
  let st' := (photoURLFromKey tx key st).2 in
  view st' = view st ∧ authed st' = authed st
  ∧ hasPasscode st' = hasPasscode st ∧ projects st' = projects st
  ∧ inspections st' = inspections st ∧ localStorage st' = localStorage st
  ∧ activeProjectId st' = activeProjectId st
  ∧ photoStore st' = photoStore st.
Proof.
  unfold photoURLFromKey.
  destruct (photoURLCache st !! key); [done|].
  destruct tx; cbn; [|done..].
  by destruct (photoStore st !! key).
Qed.

Lemma credential_insert_other k v storage :
  k ≠ LS_PASSCODE_HASH →
  credential (<[k := v]> storage) = credential storage.
Proof. intros H. unfold credential. by rewrite lookup_insert_ne. Qed.

Lemma mount_step_inv storage photos today now :
  step_inv (mount storage photos today now).
Proof.
  unfold step_inv, persisted, mount. cbn.
  split; [split|split; [by right|split; [|done]]].
  - by rewrite lookup_insert_ne, lookup_insert_eq.
  - by rewrite lookup_insert_eq.
  - rewrite !credential_insert_other by done. unfold credential.
    destruct (storage !! LS_PASSCODE_HASH) as [h|]; [|done].
    by destruct (JS.truthy h).
Qed.

Lemma handleSetPasscode_step_inv st :
  step_inv st → step_inv (handleSetPasscode st).
Proof.
  intros (Hp & Hg & Hc & Ha). unfold handleSetPasscode.
  destruct (_ || _); [done|]. destruct (negb _); [done|].
  destruct Hp as [Hp1 Hp2].
  unfold step_inv, persisted. cbn.
  rewrite !lookup_insert_ne by done.
  split; [done|]. split; [by left|]. split; [|done].
  unfold credential. rewrite lookup_insert_eq, sha256Base64_truthy. done.
Qed.

Lemma handleSignIn_step_inv st :
  step_inv st → hasPasscode st = true → step_inv (handleSignIn st).
Proof.
  intros (Hp & Hg & Hc & Ha) Hhas. unfold handleSignIn.
  destruct (negb _); [done|].
  destruct (localStorage st !! LS_PASSCODE_HASH); [|done].
  destruct (negb _); [done|]. destruct (negb _); [done|].
  unfold step_inv, persisted. cbn. by auto.
Qed.

Lemma saveProject_step_inv now st :
  step_inv st → authed st = true → step_inv (saveProject now st).
Proof.
  intros ([Hp1 Hp2] & Hg & Hc & Ha) Hauth. unfold saveProject.
  destruct (negb _); [done|].
  unfold step_inv, persisted. cbn.
  rewrite lookup_insert_eq, lookup_insert_ne by done.
  rewrite credential_insert_other by done. by auto.
Qed.

Lemma saveInspectionEntry_step_inv nowId nowCreated nowUpdated tx st :
  step_inv st → authed st = true →
  step_inv (saveInspectionEntry UTC nowId nowCreated nowUpdated tx st).2.
Proof.
  intros ([Hp1 Hp2] & Hg & Hc & Ha) Hauth.
  destruct (saveInspectionEntry_cases nowId nowCreated nowUpdated tx st)
    as ((Hv & Hau & Hh & Hpr & _) & Hcases).
  cbv zeta in *.
  set (st' := (saveInspectionEntry _ _ _ _ _ _).2) in *.
  unfold step_inv, persisted. rewrite Hv, Hau, Hh, Hpr.
  destruct Hcases as [[-> ->]|(p & e & _ & _ & _ & _ & ->)]; [done|].
  rewrite lookup_insert_eq, lookup_insert_ne by done.
  rewrite credential_insert_other by done. by auto.
Qed.

(** In the views other than [AuthView] the session is unlocked. *)
Lemma main_view_authed st :
  step_inv st → ¬ auth_view st → authed st = true.
Proof.
  intros (_ & [Hg|Hg] & _) Hmain; [done|].
  destruct (authed st) eqn:E; [done|]. by destruct Hmain.
Qed.

Lemma step_step_inv st st' : step_inv st → step UTC st st' → step_inv st'.
Proof.
  intros Hinv Hstep.
  destruct Hstep;
    try (pose proof (main_view_authed _ Hinv ltac:(assumption)) as Hauth).
  all: try (by apply handleSetPasscode_step_inv).
  all: try (by apply handleSignIn_step_inv).
  all: try (by apply saveProject_step_inv).
  all: try (by apply saveInspectionEntry_step_inv).
  all: try (destruct (photoURLFromKey_cases tx key st)
              as (Hv & Hau & Hh & Hpr & Hin & Hls & _);
            destruct Hinv as ([??] & ? & ? & ?);
            unfold step_inv, persisted;
            by rewrite Hv, Hau, Hh, Hpr, Hin, Hls).
  all: destruct Hinv as ([??] & ? & ? & ?);
    unfold step_inv, persisted, goHome, handleSignOut, homeData,
      homeInspection, homeReport, openRecent, openDataPrompt,
      openInspectionPrompt, proceedInspection, reportDialogChange,
      reportFullTimeline, reportByDate, clearFilter, addPhotos,
      removePendingPhoto, toast_error;
    repeat case_match; cbn; auto.
Qed.

Lemma reachable_step_inv st : reachable UTC st → step_inv st.
Proof.
  intros (storage & photos & today & now & Hsteps).
  revert st Hsteps. apply rtc_ind_r; [apply mount_step_inv|].
  intros y z _ Hstep IH. by eapply step_step_inv.
Qed.

(** X1. In every state that the application reaches, from whatever
    content of [localStorage] it started on, [localStorage] holds the
    serialisation of the projects and of the inspections that are in
    memory. *)
Theorem collections_persisted (st : State) :
  reachable UTC st →
  localStorage st !! LS_PROJECTS_KEY = Some (JSON_stringify (projects st))
  ∧ localStorage st !! LS_INSPECTIONS_KEY
    = Some (JSON_stringify (inspections st)).
Proof. intros H. by destruct (reachable_step_inv st H) as (Hp & _). Qed.

(** X2. A view other than [AuthView] is rendered only for a session
    that is unlocked and has a stored digest. *)
Theorem main_views_need_unlock (st : State) :
  reachable UTC st → ¬ auth_view st →
  authed st = true ∧ is_Some (credential (localStorage st)).
Proof.
  intros Hr Hmain. pose proof (reachable_step_inv st Hr) as Hinv.
  pose proof (main_view_authed st Hinv Hmain) as Hauth.
  destruct Hinv as (_ & _ & Hc & Ha). split; [done|].
  rewrite Hc in Ha. specialize (Ha Hauth).
  by apply bool_decide_eq_true in Ha.
Qed.

Lemma step_credential st st' :
  step UTC st st' →
  credential (localStorage st') = credential (localStorage st)
  ∨ (auth_view st ∧ hasPasscode st = false).
Proof.
  intros Hstep. destruct Hstep; try (by right); left.
  all: try (destruct (photoURLFromKey_cases tx key st)
              as (_ & _ & _ & _ & _ & -> & _); done).
  all: try (destruct (saveInspectionEntry_cases nowId nowCreated nowUpdated
                        tx st) as (_ & [[_ ->]|(? & ? & _ & _ & _ & _ & ->)]);
            by rewrite ?credential_insert_other).
  all: unfold handleSignIn, goHome, handleSignOut, homeData,
      homeInspection, homeReport, openRecent, openDataPrompt,
      openInspectionPrompt, proceedInspection, reportDialogChange,
      reportFullTimeline, reportByDate, clearFilter, addPhotos,
      removePendingPhoto, saveProject, toast_error;
    repeat case_match; cbn; rewrite ?credential_insert_other; done.
Qed.

(** X3. Once a digest is stored, no step of the application changes or
    removes it: there is no way to reset the passcode. *)
Theorem credential_never_changes (st st' : State) :
  reachable UTC st → rtc (step UTC) st st' →
  is_Some (credential (localStorage st)) →
  credential (localStorage st') = credential (localStorage st).
Proof.
  intros Hr Hsteps Hsome. induction Hsteps as [|st st1 st' Hstep Hsteps IH].
  { done. }
  assert (credential (localStorage st1) = credential (localStorage st)) as E.
  { destruct (step_credential st st1 Hstep) as [E|[_ Hno]]; [done|].
    destruct (reachable_step_inv st Hr) as (_ & _ & Hc & _).
    rewrite Hno in Hc. symmetry in Hc.
    by apply bool_decide_eq_false in Hc. }
  rewrite <- E. apply IH; [|by rewrite E].
  destruct Hr as (storage & photos & today & now & Hr).
  exists storage, photos, today, now. by eapply rtc_r.
Qed.

(** X4. The text that [sha256Base64] returns has 44 characters, all of
    the base-64 alphabet or the padding character; it is never empty. *)
Theorem digest_text (input : string) :
  String.length (sha256Base64 input) = 44%nat
  ∧ Forall (λ c, c ∈ list_ascii_of_string (Base64.alphabet +:+ "="))
      (list_ascii_of_string (sha256Base64 input))
  ∧ JS.truthy (sha256Base64 input) = true.
Proof.
  split; [apply sha256Base64_length|]. split; [|apply sha256Base64_truthy].
  unfold sha256Base64. apply encode_32, digest_length.
Qed.

Lemma verify_after_setCredential p q st :
  (4 ≤ String.length p)%nat →
  verify q (setCredential p p st)
  = JS.truthy q && String.eqb (sha256Base64 q) (sha256Base64 p).
Proof.
  intros Hlen. rewrite verify_spec. unfold setCredential.
  rewrite handleSetPasscode_accepted by done. cbn.
  by rewrite lookup_insert_eq, sha256Base64_truthy, andb_true_r.
Qed.

(** X5. After a passcode of 4 or more characters has been set, [verify]
    accepts exactly the non-empty inputs of the same digest, among them
    the passcode itself; after a restart on the same [localStorage] the
    gate is locked and [verify] answers as before. *)
Theorem credential_verifies (st : State) (p : string) :
  (4 ≤ String.length p)%nat →
  let st' := setCredential p p st in
  verify p st' = true
  ∧ (∀ q, verify q st' = true ↔ q ≠ "" ∧ sha256Base64 q = sha256Base64 p)
  ∧ ∀ photos today now,
      let st'' := mount (localStorage st') photos today now in
      gate st'' = Locked ∧ ∀ q, verify q st'' = verify q st'.
Proof.
  intros Hlen st'.
  assert (∀ q, verify q st' = true ↔ q ≠ "" ∧ sha256Base64 q = sha256Base64 p)
    as Hiff.
  { intros q. unfold st'. rewrite verify_after_setCredential by done.
    by rewrite andb_true_iff, truthy_spec, String.eqb_eq. }
  split; [|split; [done|]].
  - apply Hiff. split; [|done]. intros ->. simpl in Hlen. lia.
  - intros photos today now st''.
    assert (localStorage st' !! LS_PASSCODE_HASH = Some (sha256Base64 p)) as E.
    { unfold st', setCredential. rewrite handleSetPasscode_accepted by done.
      cbn. by rewrite lookup_insert_eq. }
    split.
    + unfold st''. rewrite mount_gate, E. by rewrite sha256Base64_truthy.
    + intros q. rewrite !verify_spec. unfold st'', mount. cbn.
      by rewrite !lookup_insert_ne by done.
Qed.

(** X6. [handleSignIn] unlocks only on an input whose digest is the
    stored one; otherwise it shows an error and changes nothing else. It
    never writes to [localStorage]. *)
Theorem signIn_sound (st : State) :
  let st' := handleSignIn st in
  localStorage st' = localStorage st
  ∧ (authed st' = true →
     authed st = true
     ∨ (passcodeInput st ≠ ""
        ∧ credential (localStorage st)
          = Some (sha256Base64 (passcodeInput st))))
  ∧ (credential (localStorage st) ≠ Some (sha256Base64 (passcodeInput st)) →
     ∃ msg, st' = toast_error msg st).
Proof.
  cbv zeta. unfold handleSignIn, credential.
  destruct (JS.truthy (passcodeInput st)) eqn:Ep; cbn [negb].
  2:{ split; [done|]. split; [by left|eauto]. }
  destruct (localStorage st !! LS_PASSCODE_HASH) as [stored|].
  2:{ split; [done|]. split; [by left|eauto]. }
  destruct (JS.truthy stored) eqn:Es; cbn [negb].
  2:{ split; [done|]. split; [by left|eauto]. }
  destruct (String.eqb_spec (sha256Base64 (passcodeInput st)) stored)
    as [<-|Hne]; cbn [negb].
  - split; [done|]. split; [|done]. intros _. right.
    split; [by apply truthy_spec|done].
  - split; [done|]. split; [by left|eauto].
Qed.

(** What [handleSignIn] does to a locked session. *)
Lemma handleSignIn_gate st :
  gate st = Locked →
  gate (handleSignIn st) = Locked
  ∨ (gate (handleSignIn st) = Unlocked
     ∧ passcodeInput st ≠ ""
     ∧ credential (localStorage st) = Some (sha256Base64 (passcodeInput st))).
Proof.
  intros Hlocked. unfold handleSignIn, credential.
  destruct (JS.truthy (passcodeInput st)) eqn:Ep; cbn [negb]; [|by left].
  destruct (localStorage st !! LS_PASSCODE_HASH) as [stored|]; [|by left].
  destruct (JS.truthy stored) eqn:Es; cbn [negb]; [|by left].
  destruct (String.eqb_spec (sha256Base64 (passcodeInput st)) stored)
    as [<-|Hne]; cbn [negb]; [|by left].
  right. split; [done|]. split; [by apply truthy_spec|done].
Qed.

Lemma gate_Locked st :
  gate st = Locked ↔ authed st = false ∧ hasPasscode st = true.
Proof. unfold gate. destruct (authed st), (hasPasscode st); by split; [|intros []]. Qed.

(** C5, as the code has it. A successful [setCredential] stores the
    digest and leaves the session unlocked at once, on the home view,
    from [NoCredential] as from any other state. The unlocked state is
    not kept across restarts: a mounted application is [Locked] when a
    digest is stored and [NoCredential] otherwise. A locked session
    stays locked at every step but a sign-in with an input that is not
    empty and whose digest is the stored one, which unlocks it; signing
    out of a session with a passcode locks it. *)
Theorem gate_transitions :
  (∀ st passcode,
     (4 ≤ String.length passcode)%nat →
     let st' := setCredential passcode passcode st in
     localStorage st' !! LS_PASSCODE_HASH = Some (sha256Base64 passcode)
     ∧ gate st' = Unlocked ∧ authed st' = true ∧ view st' = ViewHome)
  ∧ (∀ storage photos today now,
       gate (mount storage photos today now)
       = match credential storage with
         | Some _ => Locked
         | None => NoCredential
         end)
  ∧ (∀ st st',
       reachable UTC st → gate st = Locked → step UTC st st' →
       gate st' = Locked
       ∨ (gate st' = Unlocked ∧ st' = handleSignIn st
          ∧ passcodeInput st ≠ ""
          ∧ credential (localStorage st)
            = Some (sha256Base64 (passcodeInput st))))
  ∧ (∀ st passcode,
       gate st = Locked → passcode ≠ "" →
       credential (localStorage st) = Some (sha256Base64 passcode) →
       gate (handleSignIn (set_passcodeInput passcode st)) = Unlocked)
  ∧ (∀ st, hasPasscode st = true → gate (handleSignOut st) = Locked).
Proof.
  split; [|split; [|split; [|split]]].
  - intros st passcode Hlen. cbv zeta. unfold setCredential.
    rewrite handleSetPasscode_accepted by done. cbn.
    by rewrite lookup_insert_eq.
  - intros storage photos today now. rewrite mount_gate. unfold credential.
    destruct (storage !! LS_PASSCODE_HASH) as [h|]; [|done].
    by destruct (JS.truthy h).
  - intros st st' Hr Hlocked Hstep.
    pose proof Hlocked as [Hauth Hhas]%gate_Locked.
    destruct (reachable_step_inv st Hr) as (_ & [Hg|Hg] & _); [congruence|].
    assert (auth_view st) as Hview by done.
    destruct Hstep; try done; try congruence.
    + left. apply gate_Locked. by cbn.
    + destruct (handleSignIn_gate st Hlocked) as [?|(?&?&?)]; [by left|].
      right. by repeat split.
  - intros st passcode [Hauth Hhas]%gate_Locked Hp%truthy_spec Hc.
    unfold credential in Hc. unfold handleSignIn. cbn. rewrite Hp. cbn.
    destruct (localStorage st !! LS_PASSCODE_HASH) as [stored|]; [|done].
    destruct (JS.truthy stored); [|done]. injection Hc as ->. cbn.
    by rewrite String.eqb_refl.
  - intros st Hp. unfold gate, handleSignOut. cbn. by rewrite Hp.
Qed.

(** *** Projects *)

(** X7. [saveProject] keeps the records of the projects in order: each
    is stored under its own ID, which is trimmed and not empty, its
    address and scope are trimmed, and [createdAt <= updatedAt <= now]
    as long as the clock does not run backwards. *)
Theorem saveProject_keeps_records (st : State) (now now' : N) :
  projects_wf now (projects st) → (now ≤ now')%N →
  projects_wf now' (projects (saveProject now' st)).
Proof.
  intros Hwf Hclock k r Hr.
  assert (∀ k r, projects st !! k = Some r →
    ProjectMeta.id r = k ∧ normal_id k
    ∧ JS.trim (ProjectMeta.address r) = ProjectMeta.address r
    ∧ JS.trim (ProjectMeta.scope r) = ProjectMeta.scope r
    ∧ (ProjectMeta.createdAt r ≤ ProjectMeta.updatedAt r)%N
    ∧ (ProjectMeta.updatedAt r ≤ now')%N) as Hold.
  { intros k0 r0 H0. destruct (Hwf k0 r0 H0) as (?&?&?&?&?&?).
    do 5 (split; [done|]). lia. }
  destruct (JS.trim (DataForm.id (dataForm st))) as [|c s] eqn:Eid.
  { rewrite saveProject_rejected in Hr by done. by apply Hold. }
  rewrite saveProject_projects in Hr by (by rewrite Eid).
  apply Object_set_lookup_Some in Hr as [[-> ->]|Hr]; [|by apply Hold].
  unfold newProject. cbn.
  split; [done|]. split; [apply trim_normal; by rewrite Eid|].
  split; [apply trim_idempotent|]. split; [apply trim_idempotent|].
  split; [|lia]. unfold Object_get.
  destruct (projects st !! _) as [p|] eqn:Ep.
  - destruct (Hwf _ _ Ep) as (_ & _ & _ & _ & ? & ?). lia.
  - destruct (Object_prototype_get _); lia.
Qed.

(** X8. A project ID that is empty or made of white space only is
    refused by every handler that takes one: the state is left as it is,
    but for the error that is shown. *)
Theorem blank_id_refused (st : State) (now : N) :
  (Forall (λ a, JS.is_white a = true)
     (list_ascii_of_string (DataForm.id (dataForm st))) →
   saveProject now st = toast_error "Please enter a Project ID." st)
  ∧ (Forall (λ a, JS.is_white a = true)
       (list_ascii_of_string (inspectionId st)) →
     proceedInspection st = toast_error "Enter a Project ID." st)
  ∧ (Forall (λ a, JS.is_white a = true)
       (list_ascii_of_string (reportId st)) →
     reportFullTimeline st = toast_error "Enter a Project ID." st
     ∧ reportByDate st = toast_error "Enter a Project ID." st).
Proof.
  split; [|split].
  - intros H%trim_blank. by apply saveProject_rejected.
  - intros H%trim_blank. unfold proceedInspection. by rewrite H.
  - intros H%trim_blank. unfold reportFullTimeline, reportByDate.
    by rewrite H.
Qed.

(** X9. Saving under an ID that has no record creates one, unless the
    ID is ["__proto__"], for which the assignment changes the prototype
    of the copy and stores nothing: but for this ID the collection grows
    by one record, which has the trimmed fields of the form and the
    reading of the clock as [createdAt] and [updatedAt]. The dialog
    closes on the home view; the message is that of a creation, or, when
    the ID names a member of [Object.prototype], that of an update. *)
Theorem saveProject_creates (st : State) (now : N) :
  let id := JS.trim (DataForm.id (dataForm st)) in
  let st' := saveProject now st in
  id ≠ "" → projects st !! id = None →
  (id ≠ "__proto__" →
   size (projects st') = S (size (projects st))
   ∧ projects st' !! id
     = Some {| ProjectMeta.id := id;
               ProjectMeta.address := JS.trim (DataForm.address (dataForm st));
               ProjectMeta.scope := JS.trim (DataForm.scope (dataForm st));
               ProjectMeta.createdAt := now;
               ProjectMeta.updatedAt := now |})
  ∧ (id = "__proto__" → projects st' = projects st)
  ∧ toasts st'
    = ToastSuccess
        match Object_prototype_get id with
        | Some _ => "Project updated."
        | None => "Project created."
        end :: toasts st
  ∧ view st' = ViewHome ∧ dataDialogOpen st' = false.
Proof.
  intros id st' Hid Hnew.
  pose proof (saveProject_projects now st Hid) as E. fold id st' in E.
  assert (newProject now st
          = {| ProjectMeta.id := id;
               ProjectMeta.address := JS.trim (DataForm.address (dataForm st));
               ProjectMeta.scope := JS.trim (DataForm.scope (dataForm st));
               ProjectMeta.createdAt := now;
               ProjectMeta.updatedAt := now |}) as Enew.
  { unfold newProject, Object_get. fold id. rewrite Hnew.
    by destruct (Object_prototype_get id). }
  split; [|split; [|split]].
  - intros Hne. rewrite E, Object_set_insert by done. rewrite <- Enew.
    split; [by apply map_size_insert_None|by rewrite lookup_insert_eq].
  - intros Hproto. rewrite E. rewrite Hproto in *.
    by apply Object_set_proto.
  - unfold st'. rewrite saveProject_toast by done. fold id.
    unfold Object_get. rewrite Hnew.
    by destruct (Object_prototype_get id).
  - unfold st', saveProject. fold id.
    apply truthy_spec in Hid. by rewrite Hid.
Qed.

(** *** Project IDs *)

Lemma saveProject_ids_normal now st :
  ids_normal st → ids_normal (saveProject now st).
Proof.
  intros (Hp & Hi & Ha).
  destruct (JS.trim (DataForm.id (dataForm st))) as [|c s] eqn:Eid.
  { by rewrite saveProject_rejected. }
  split; [|split].
  - intros k r. rewrite saveProject_projects by (by rewrite Eid).
    intros [[-> ->]|Hr]%Object_set_lookup_Some; [|by eapply Hp].
    unfold newProject. cbn. apply trim_normal. by rewrite Eid.
  - unfold saveProject. rewrite Eid. apply Hi.
  - unfold saveProject. rewrite Eid. apply Ha.
Qed.

Lemma saveInspectionEntry_ids_normal nowId nowCreated nowUpdated tx st :
  ids_normal st →
  ids_normal (saveInspectionEntry UTC nowId nowCreated nowUpdated tx st).2.
Proof.
  intros (Hp & Hi & Ha).
  destruct (saveInspectionEntry_cases nowId nowCreated nowUpdated tx st)
    as ((_ & _ & _ & Hpr & Hact & _) & Hcases).
  cbv zeta in *.
  set (st' := (saveInspectionEntry _ _ _ _ _ _).2) in *.
  unfold ids_normal. rewrite Hpr, Hact.
  split; [done|]. split; [|done].
  destruct Hcases as [[-> _]|(p & e & (Hadm & _) & _ & _ & -> & _)]; [done|].
  intros k l. destruct (decide (p = k)) as [<-|Hne].
  - intros _. by apply Ha.
  - rewrite lookup_insert_ne by done. apply Hi.
Qed.

Lemma step_ids_normal st st' :
  ids_normal st → step UTC st st' → ids_normal st'.
Proof.
  intros Hn Hstep. destruct Hstep.
  all: try (by apply saveProject_ids_normal).
  all: try (by apply saveInspectionEntry_ids_normal).
  all: try (destruct (photoURLFromKey_cases tx key st)
              as (_ & _ & _ & Hpr & Hin & _ & Hact & _);
            unfold ids_normal; by rewrite Hpr, Hin, Hact).
  all: try (destruct Hn as (Hp & Hi & Ha); split; [|split]; cbn;
            [done|done|intros ? [= <-]; by eapply Hp]).
  all: destruct Hn as (Hp & Hi & Ha);
    unfold ids_normal, handleSetPasscode, handleSignIn, goHome,
      handleSignOut, homeData, homeInspection, homeReport, openDataPrompt,
      openInspectionPrompt, proceedInspection, reportDialogChange,
      reportFullTimeline, reportByDate, clearFilter, addPhotos,
      removePendingPhoto, toast_error;
    repeat case_match; cbn; (split; [exact Hp|split; [exact Hi|]]);
    first [ exact Ha
          | by intros ? [=]
          | intros ? [= <-]; apply trim_normal, truthy_spec;
            by apply negb_false_iff ].
Qed.

(** X10. If the project IDs that the application starts with are
    trimmed and not empty (as on a fresh installation), so is every
    project ID in every state it reaches: of the records of the projects,
    of the timelines and of the active project. *)
Theorem ids_stay_normal (storage : gmap string string)
  (photos : gmap string File) (today now : string) (st : State) :
  ids_normal (mount storage photos today now) →
  rtc (step UTC) (mount storage photos today now) st →
  ids_normal st.
Proof.
  intros Hinit Hsteps. revert st Hsteps. apply rtc_ind_r; [done|].
  intros y z _ Hstep IH. by eapply step_ids_normal.
Qed.

(** *** Submissions *)

(** X11. A submission without an active project, or without a date or
    a time, is refused before any write: the photo store, its log, the
    inspections and the pending photos are as before, and the handler
    returns at once (with an error shown when the date or the time is
    missing). *)
Theorem refused_submission (st : State) (nowId nowCreated nowUpdated : N)
  (tx : nat → TxOutcome) :
  activeProjectId st = None ∨ activeProjectId st = Some ""
  ∨ entryDate st = "" ∨ entryTime st = "" →
  let '(o, st') := saveInspectionEntry UTC nowId nowCreated nowUpdated tx st in
  o = Resolved
  ∧ (st' = st ∨ st' = toast_error "Enter date and time." st)
  ∧ idbLog st' = idbLog st ∧ photoStore st' = photoStore st
  ∧ inspections st' = inspections st ∧ localStorage st' = localStorage st
  ∧ entryPhotos st' = entryPhotos st.
Proof.
  intros H. unfold saveInspectionEntry.
  destruct (activeProjectId st) as [p|]; [|by repeat split; auto].
  destruct (JS.truthy p) eqn:Ep; [|by repeat split; auto]. cbn [negb].
  destruct (negb (JS.truthy (entryDate st)) || negb (JS.truthy (entryTime st)))
    eqn:Eg; [by repeat split; auto|].
  apply orb_false_iff in Eg as [Ed%negb_false_iff Et%negb_false_iff].
  apply truthy_spec in Ep, Ed, Et.
  destruct H as [H|[H|[H|H]]]; congruence.
Qed.

(** The photo store after the loop over the photos. *)
Lemma savePhotos_store tx p n files i keys st :
  all_complete tx i (length files) →
  let st' := (savePhotos tx p (JS.decimal n) i files keys st).2 in
  (∀ j f, files !! j = Some f →
          photoStore st' !! photoKey p (JS.decimal n) (i + j) = Some f)
  ∧ (∀ k, (∀ j, (j < length files)%nat →
                k ≠ photoKey p (JS.decimal n) (i + j)) →
          photoStore st' !! k = photoStore st !! k).
Proof.
  revert i keys st. induction files as [|f0 files IH]; intros i keys st Hall.
  { split; [by intros j f|done]. }
  cbn [savePhotos]. rewrite (Hall i) by (simpl; lia). cbn [idbSet].
  set (st1 := set_idbLog _ _).
  destruct (IH (S i) (keys ++ [photoKey p (JS.decimal n) i]) st1) as [IH1 IH2].
  { intros j Hj. apply Hall. simpl. lia. }
  cbv zeta in *. split.
  - intros [|j] f Hf.
    + injection Hf as ->. rewrite IH2.
      * rewrite Nat.add_0_r. unfold st1. cbn. by rewrite lookup_insert_eq.
      * intros j _ E. apply photoKey_inj in E as (_ & _ & E). lia.
    + replace (i + S j)%nat with (S i + j)%nat by lia. by apply IH1.
  - intros k Hk. rewrite IH2.
    + unfold st1. cbn. rewrite lookup_insert_ne; [done|].
      intros E. apply (Hk 0%nat); [simpl; lia|]. by rewrite Nat.add_0_r.
    + intros j Hj E. apply (Hk (S j)); [simpl; lia|].
      by replace (i + S j)%nat with (S i + j)%nat by lia.
Qed.

Lemma saveInspectionEntry_photoStore nowId nowCreated nowUpdated tx st p :
  admitted p st →
  photoStore (saveInspectionEntry UTC nowId nowCreated nowUpdated tx st).2
  = photoStore
      (savePhotos tx p (JS.decimal nowId) 0 (entryPhotos st) [] st).2.
Proof.
  intros (Hp & Hne%truthy_spec & Hd%truthy_spec & Ht%truthy_spec).
  unfold saveInspectionEntry. rewrite Hp, Hne, Hd, Ht. cbn [negb orb].
  destruct (savePhotos _ _ _ _ _ _ _) as [[[] keys] st1]; [|done..].
  cbn. by destruct (Object_get _ _).
Qed.

(** X12. After a submission that goes through, the photo store holds
    each attached file under the key that the entry has at its index, and
    every other key of the photo store is as before; such a key, when it
    is not in the cache and the read completes, resolves to a URL that is
    not empty. *)
Theorem photos_stored (st : State) (nowId nowCreated nowUpdated : N)
  (tx : nat → TxOutcome) (p : string) :
  admitted p st →
  all_complete tx 0 (length (entryPhotos st)) →
  let entry := newEntry p nowId nowCreated nowUpdated st in
  let st' := (saveInspectionEntry UTC nowId nowCreated nowUpdated tx st).2 in
  (∀ j f, entryPhotos st !! j = Some f →
     ∃ k, InspectionEntry.photoKeys entry !! j = Some k
          ∧ photoStore st' !! k = Some f
          ∧ (photoURLCache st !! k = None →
             ∃ url st2,
               photoURLFromKey TxComplete k st' = (Resolved, url, st2)
               ∧ url ≠ ""))
  ∧ (∀ k, k ∉ InspectionEntry.photoKeys entry →
          photoStore st' !! k = photoStore st !! k).
Proof.
  intros Hadm Hall entry st'.
  destruct (savePhotos_store tx p nowId (entryPhotos st) 0 [] st Hall)
    as [Hin Hout].
  cbv zeta in Hin, Hout.
  rewrite <- (saveInspectionEntry_photoStore nowId nowCreated nowUpdated)
    in Hin, Hout by done.
  fold st' in Hin, Hout. split.
  - intros j f Hf. exists (photoKey p (JS.decimal nowId) j).
    split; [|split].
    + unfold entry. by rewrite newEntry_photoKeys, Hf.
    + by apply (Hin j f).
    + intros Hmiss.
      destruct (saveInspectionEntry_cases nowId nowCreated nowUpdated tx st)
        as ((_ & _ & _ & _ & _ & Hcache & _) & _).
      cbv zeta in Hcache. fold st' in Hcache.
      pose proof (Hin j f Hf) as E. cbn [Nat.add] in E.
      unfold photoURLFromKey. rewrite Hcache, Hmiss. cbn.
      rewrite E. cbn. eauto.
  - intros k Hk. apply Hout. intros j Hj ->. apply Hk.
    destruct (lookup_lt_is_Some_2 (entryPhotos st) j Hj) as [f Hf].
    apply (list_elem_of_lookup_2 _ j). unfold entry.
    by rewrite newEntry_photoKeys, Hf.
Qed.

(** X13. A submission that goes through, under a project ID that is
    not inherited from [Object.prototype], shows up in the timelines of
    its project: the full timeline has the entries it had and the new
    one, the timeline of a date has the new entry exactly when the date
    is the one of the entry; the timelines of the other projects are as
    before. *)
Theorem submitted_entry_listed (st : State) (nowId nowCreated nowUpdated : N)
  (tx : nat → TxOutcome) (p : string) :
  admitted p st →
  all_complete tx 0 (length (entryPhotos st)) →
  inherited (inspections st) p = false →
  let entry := newEntry p nowId nowCreated nowUpdated st in
  let st' := (saveInspectionEntry UTC nowId nowCreated nowUpdated tx st).2 in
  (∃ old new,
     InspectionList p None st = Some old
     ∧ InspectionList p None st' = Some new
     ∧ new ≡ₚ old ++ [entry])
  ∧ (∀ d, d ≠ "" →
       ∃ old new,
         InspectionList p (Some d) st = Some old
         ∧ InspectionList p (Some d) st' = Some new
         ∧ ∀ e, e ∈ new ↔ e ∈ old ∨ (e = entry ∧ d = entryDate st))
  ∧ (∀ q filter, q ≠ p →
       InspectionList q filter st' = InspectionList q filter st).
Proof.
  intros Hadm Hall Hown entry st'.
  destruct (saveInspectionEntry_resolved UTC nowId nowCreated nowUpdated tx
              st p Hadm Hall Hown) as (st1 & Hrun & Hins & _).
  unfold st'. rewrite Hrun. cbn [snd]. fold entry in Hins.
  set (old := default [] (inspections st !! p)) in *.
  set (new := Array_sort (newestFirst UTC) (old ++ [entry])) in *.
  assert (inspections st1 !! p = Some new) as Hnew
    by (by rewrite Hins, lookup_insert_eq).
  assert (inherited (inspections st1) p = false) as Hown1.
  { apply inherited_false. left. by rewrite Hnew. }
  assert (new ≡ₚ old ++ [entry]) as Hperm by apply Array_sort_perm.
  split; [|split].
  - exists old, new. rewrite !InspectionList_stored by done.
    by rewrite Hnew.
  - intros d Hd.
    destruct (timeline_filter_stored st p d Hd Hown) as [_ E].
    destruct (timeline_filter_stored st1 p d Hd Hown1) as [_ E1].
    eexists _, _. split; [exact E|]. split; [exact E1|].
    intros e. rewrite Hnew. cbn. fold old.
    rewrite !list_elem_of_In, !filter_In, <- !list_elem_of_In.
    rewrite Hperm, elem_of_app, list_elem_of_singleton, String.eqb_eq.
    split.
    + intros [[?| ->] Hdate]; [by left|]. right. by rewrite <- Hdate.
    + intros [[??]|[-> ->]]; [by auto|]. by auto.
  - intros q filter Hq. unfold InspectionList, Object_get.
    by rewrite Hins, lookup_insert_ne.
Qed.

(** X14. The first submission to a project, whether it has metadata or
    not, makes its timeline, when the project ID is not the name of a
    member of [Object.prototype]: the new entry alone. *)
Theorem first_entry (st : State) (nowId nowCreated nowUpdated : N)
  (tx : nat → TxOutcome) (p : string) :
  admitted p st →
  all_complete tx 0 (length (entryPhotos st)) →
  inspections st !! p = None →
  Object_prototype_get p = None →
  let st' := (saveInspectionEntry UTC nowId nowCreated nowUpdated tx st).2 in
  InspectionList p None st' = Some [newEntry p nowId nowCreated nowUpdated st]
  ∧ projects st' !! p = projects st !! p.
Proof.
  intros Hadm Hall Hnone Hplain st'.
  assert (inherited (inspections st) p = false) as Hown
    by (apply inherited_false; by right).
  destruct (saveInspectionEntry_resolved UTC nowId nowCreated nowUpdated tx
              st p Hadm Hall Hown) as (st1 & Hrun & Hins & _).
  destruct (saveInspectionEntry_cases nowId nowCreated nowUpdated tx st)
    as ((_ & _ & _ & Hpr & _) & _).
  cbv zeta in Hpr. fold st' in Hpr. rewrite Hpr. split; [|done].
  unfold st'. rewrite Hrun. cbn [snd].
  rewrite InspectionList_stored.
  - rewrite Hins, lookup_insert_eq, Hnone. cbn [default from_option id app].
    by rewrite Array_sort_singleton.
  - apply inherited_false. left. by rewrite Hins, lookup_insert_eq.
Qed.

(** X25. Under a project ID that [inspections] inherits from
    [Object.prototype] (["toString"], ["constructor"], ["__proto__"] and
    the like, without a timeline of that name in the store) no entry can
    be saved: the photos are written, then the handler throws. The
    promise is rejected, no entry is stored, nothing is reported, the
    form keeps its photos, the files stay in the photo store under the
    keys that the entry would have had, and the timeline of the project
    does not render with a date filter. *)
Theorem inherited_id_rejected (st : State) (nowId nowCreated nowUpdated : N)
  (tx : nat → TxOutcome) (p : string) :
  admitted p st →
  all_complete tx 0 (length (entryPhotos st)) →
  inherited (inspections st) p = true →
  let '(o, st') := saveInspectionEntry UTC nowId nowCreated nowUpdated tx st in
  o = Rejected
  ∧ inspections st' = inspections st
  ∧ localStorage st' = localStorage st
  ∧ toasts st' = toasts st
  ∧ entryPhotos st' = entryPhotos st
  ∧ (∀ j f, entryPhotos st !! j = Some f →
       photoStore st' !! photoKey p (JS.decimal nowId) j = Some f)
  ∧ (∀ d, d ≠ "" → InspectionList p (Some d) st' = None)
  ∧ (InspectionList p None st' = None ∨ InspectionList p None st' = Some []).
Proof.
  intros Hadm Hall Hinh.
  destruct (savePhotos_store tx p nowId (entryPhotos st) 0 [] st Hall)
    as [Hin _].
  cbv zeta in Hin.
  rewrite <- (saveInspectionEntry_photoStore nowId nowCreated nowUpdated)
    in Hin by done.
  destruct (saveInspectionEntry_inherited UTC nowId nowCreated nowUpdated tx
              st p Hadm Hall Hinh) as (st' & Hrun & Hframe).
  rewrite Hrun in *. cbn [snd] in Hin.
  assert (inspections st' = inspections st) as Hins by (by rewrite Hframe).
  split; [done|]. split; [done|].
  split; [by rewrite Hframe|]. split; [by rewrite Hframe|].
  split; [by rewrite Hframe|]. split; [done|].
  unfold InspectionList. rewrite Hins. unfold inherited in Hinh.
  destruct (Object_get (inspections st) p) as [|b|]; [done| |done].
  split.
  - intros d Hd%truthy_spec. by rewrite Hd.
  - destruct b as [[|n]|]; auto.
Qed.

(** *** The cache of object URLs *)

Lemma blob_inj a b : "blob:" +:+ a = "blob:" +:+ b → a = b.
Proof. intros H. by simplify_eq/=. Qed.

Lemma photoURLFromKey_cache_ok tx key st :
  cache_ok st → cache_ok (photoURLFromKey tx key st).2.
Proof.
  intros [Hmade Hone]. unfold photoURLFromKey.
  destruct (photoURLCache st !! key) eqn:Ek; [done|].
  destruct tx; cbn; [|done..].
  destruct (photoStore st !! key); [|done]. unfold cache_ok. cbn. split.
  - intros k url. destruct (decide (key = k)) as [<-|Hne].
    + rewrite lookup_insert_eq. intros [= <-].
      exists (objectURLs st). split; [lia|done].
    + rewrite lookup_insert_ne by done. intros (n & Hn & ->)%Hmade.
      exists n. split; [lia|done].
  - assert (∀ k, photoURLCache st !! k
                 ≠ Some ("blob:" +:+ JS.decimal (objectURLs st))) as Hfresh.
    { intros k (n & Hn & E%blob_inj%decimal_inj)%Hmade. lia. }
    intros k k' url.
    destruct (decide (key = k)) as [<-|Hne], (decide (key = k')) as [<-|Hne'];
      rewrite ?lookup_insert_eq, ?lookup_insert_ne by done; try done.
    + intros [= <-] H. by apply Hfresh in H.
    + intros H [= <-]. by apply Hfresh in H.
    + apply Hone.
Qed.

Lemma step_cache st st' :
  step UTC st st' →
  (photoURLCache st' = photoURLCache st ∧ objectURLs st' = objectURLs st)
  ∨ ∃ tx key, st' = (photoURLFromKey tx key st).2.
Proof.
  intros Hstep. destruct Hstep; try (by right; eauto); left.
  all: try (destruct (saveInspectionEntry_cases nowId nowCreated nowUpdated
                        tx st) as ((_ & _ & _ & _ & _ & -> & ->) & _); done).
  all: unfold handleSignIn, handleSetPasscode, goHome, handleSignOut, homeData,
      homeInspection, homeReport, openRecent, openDataPrompt,
      openInspectionPrompt, proceedInspection, reportDialogChange,
      reportFullTimeline, reportByDate, clearFilter, addPhotos,
      removePendingPhoto, saveProject, toast_error;
    repeat case_match; done.
Qed.

(** X15. In every state that the application reaches, each URL of the
    cache was made by [URL.createObjectURL] and belongs to one photo key:
    two photos never share an object URL. *)
Theorem cache_one_url_per_key (st : State) : reachable UTC st → cache_ok st.
Proof.
  intros (storage & photos & today & now & Hsteps).
  revert st Hsteps. apply rtc_ind_r.
  { split; intros ??; cbn; by rewrite ?lookup_empty. }
  intros st st' _ Hstep IH.
  destruct (step_cache st st' Hstep) as [[Ec Eo]|(tx & key & ->)].
  - unfold cache_ok. by rewrite Ec, Eo.
  - by apply photoURLFromKey_cache_ok.
Qed.

(** *** The recent projects of the home view *)

Lemma byUpdated_by_key l :
  by_key byUpdated (λ p, Z.of_N (ProjectMeta.updatedAt p)) l.
Proof. by intros a b _ _. Qed.

(** X17. The home view shows at most five projects, all of them when
    there are no more than five, the latest update first; a project
    that is left out was not updated after any project that is shown. *)
Theorem recentProjects_latest (values : list ProjectMeta.t) :
  let shown := recentProjects values in
  length shown = (5 `min` length values)%nat
  ∧ StronglySorted
      (λ a b, (ProjectMeta.updatedAt b ≤ ProjectMeta.updatedAt a)%N) shown
  ∧ ∃ rest, values ≡ₚ shown ++ rest
      ∧ ∀ a b, a ∈ shown → b ∈ rest →
          (ProjectMeta.updatedAt b ≤ ProjectMeta.updatedAt a)%N.
Proof.
  unfold recentProjects.
  pose proof (Array_sort_perm byUpdated values) as Hperm.
  pose proof (Array_sort_descending byUpdated _ values
                (byUpdated_by_key values)) as Hdesc.
  set (sorted := Array_sort byUpdated values) in *. cbv zeta.
  rewrite <- (take_drop 5 sorted) in Hdesc.
  apply StronglySorted_app in Hdesc as (Hcross & Htake & _).
  split; [by rewrite length_take, Hperm|]. split.
  - eapply StronglySorted_impl_on with (P := λ _, True);
      [|by apply Forall_true|exact Htake].
    intros a b _ _ Hab. cbv beta in Hab. lia.
  - exists (drop 5 sorted). split; [by rewrite take_drop|].
    intros a b Ha Hb. specialize (Hcross a b Ha Hb). cbv beta in Hcross. lia.
Qed.

(** *** Restarting the application *)

(** X18. Closing and opening the application loses nothing that was
    saved: on a host whose [JSON.parse] reads back what [JSON.stringify]
    wrote for the two collections, the application started on the
    [localStorage] of a state it had reached has the same projects and
    timelines and the same passcode, and is locked. *)
Theorem restart_restores (st : State) (photos : gmap string File)
  (today now : string) :
  reachable UTC st →
  JSON_parse (JSON_stringify (projects st)) = Some (projects st) →
  JSON_parse (JSON_stringify (inspections st)) = Some (inspections st) →
  JS.truthy (JSON_stringify (projects st)) = true →
  JS.truthy (JSON_stringify (inspections st)) = true →
  let st' := mount (localStorage st) photos today now in
  projects st' = projects st
  ∧ inspections st' = inspections st
  ∧ localStorage st' = localStorage st
  ∧ hasPasscode st' = hasPasscode st
  ∧ authed st' = false ∧ view st' = ViewAuth.
Proof.
  intros Hr Hp Hi Htp Hti.
  destruct (reachable_step_inv st Hr) as ((Hsp & Hsi) & _ & Hc & _).
  assert (loadProjects (localStorage st) = projects st) as Elp.
  { unfold loadProjects. by rewrite Hsp, Htp, Hp. }
  assert (loadInspections (localStorage st) = inspections st) as Eli.
  { unfold loadInspections. by rewrite Hsi, Hti, Hi. }
  unfold mount. cbn. rewrite Elp, Eli.
  split; [done|]. split; [done|]. split.
  { rewrite (insert_id (localStorage st)) by done. by apply insert_id. }
  split; [|done]. rewrite Hc. unfold credential.
  destruct (localStorage st !! LS_PASSCODE_HASH) as [h|]; [|done].
  by destruct (JS.truthy h).
Qed.

(** *** The order of the timelines *)

Section Order.
Hypothesis UTC_increasing : ∀ s t, (s < t)%Z → (UTC s < UTC t)%Z.

Lemma UTC_compare s t : (UTC s ?= UTC t)%Z = (s ?= t)%Z.
Proof.
  destruct (Z.compare_spec s t) as [->|Hlt|Hgt].
  - apply Z.compare_refl.
  - by apply Z.compare_lt_iff, UTC_increasing.
  - by apply Z.compare_gt_iff, UTC_increasing.
Qed.

Lemma key_compare_stamp a b :
  well_formed a = true → well_formed b = true →
  key_compare a b = (stamp UTC a ?= stamp UTC b)%Z.
Proof.
  intros Ha Hb.
  destruct (well_formed_getTime UTC a Ha) as (ta & Hla & Ea).
  destruct (well_formed_getTime UTC b Hb) as (tb & Hlb & Eb).
  unfold stamp. rewrite Ea, Eb. cbn. rewrite UTC_compare.
  by apply key_compare_local.
Qed.

(** X19. On entries of the formats of the data model the comparison
    function of the sort is the difference of the time values, and its
    sign tells the order of the keys [(date, time)]: positive when the
    first entry is the older one, zero when the keys are equal, negative
    when the first entry is the newer one. *)
Theorem newestFirst_sign (a b : InspectionEntry.t) :
  well_formed a = true → well_formed b = true →
  ∃ v, newestFirst UTC a b = Some v
       ∧ v = (stamp UTC b - stamp UTC a)%Z
       ∧ ((0 < v)%Z ↔ key_compare a b = Lt)
       ∧ (v = 0%Z ↔ key_compare a b = Eq)
       ∧ ((v < 0)%Z ↔ key_compare a b = Gt).
Proof.
  intros Ha Hb. rewrite (key_compare_stamp a b Ha Hb).
  destruct (well_formed_getTime UTC a Ha) as (ta & _ & Ea).
  destruct (well_formed_getTime UTC b Hb) as (tb & _ & Eb).
  unfold newestFirst, stamp. rewrite Ea, Eb. cbn.
  eexists. split; [done|]. split; [done|].
  rewrite Z.compare_lt_iff, Z.compare_eq_iff, Z.compare_gt_iff. lia.
Qed.

Lemma descending_not_older l :
  Forall (λ e, well_formed e = true) l →
  descending (stamp UTC) l ↔ StronglySorted not_older l.
Proof.
  intros Hwf. split; intros Hs.
  - eapply StronglySorted_impl_on; [|exact Hwf|exact Hs].
    intros a b Ha Hb Hle. unfold not_older.
    rewrite key_compare_stamp by done. rewrite Z.compare_lt_iff.
    cbv beta in Hle. lia.
  - eapply StronglySorted_impl_on; [|exact Hwf|exact Hs].
    intros a b Ha Hb Hno. unfold not_older in Hno.
    rewrite key_compare_stamp, Z.compare_lt_iff in Hno by done.
    cbv beta. lia.
Qed.

Lemma older_stamp a b :
  well_formed a = true → well_formed b = true →
  older a b = (stamp UTC a <? stamp UTC b)%Z.
Proof.
  intros Ha Hb. unfold older. rewrite key_compare_stamp by done.
  unfold Z.ltb. by destruct (_ ?= _)%Z.
Qed.

(** A sorted list of well-formed entries, with one more. *)
Lemma Array_sort_not_older l :
  Forall (λ e, well_formed e = true) l →
  Forall (λ e, well_formed e = true) (Array_sort (newestFirst UTC) l)
  ∧ StronglySorted not_older (Array_sort (newestFirst UTC) l).
Proof.
  intros Hwf.
  assert (Forall (λ e, well_formed e = true) (Array_sort (newestFirst UTC) l))
    as Hwf' by (by rewrite Array_sort_perm).
  split; [done|]. apply descending_not_older; [done|].
  by apply Array_sort_descending, newestFirst_by_key.
Qed.

(** X20. If every timeline of the store has entries of the formats of
    the data model, newest first, then so it is after a submission with a
    date and a time of these formats, whatever its outcome. *)
Theorem timelines_stay_sorted (st : State) (nowId nowCreated nowUpdated : N)
  (tx : nat → TxOutcome) :
  timelines_ok (inspections st) →
  valid_date (entryDate st) = true → valid_time (entryTime st) = true →
  timelines_ok
    (inspections (saveInspectionEntry UTC nowId nowCreated nowUpdated tx st).2).
Proof.
  intros Hok Hd Ht.
  destruct (saveInspectionEntry_cases nowId nowCreated nowUpdated tx st)
    as (_ & [[-> _]|(p & e & _ & Hde & Hte & -> & _)]); [done|].
  intros q l. destruct (decide (p = q)) as [<-|Hne].
  - rewrite lookup_insert_eq. intros [= <-].
    apply Array_sort_not_older. apply Forall_app. split.
    + destruct (inspections st !! p) as [old|] eqn:E; [|constructor].
      by apply (Hok p old).
    + constructor; [|done]. unfold well_formed. by rewrite Hde, Hte, Hd, Ht.
  - rewrite lookup_insert_ne by done. apply Hok.
Qed.

Lemma filter_filter_key {A} (key : A → Z) (g : A → bool) (k : Z) (b : bool) l :
  (∀ x, x ∈ l → key x = k → g x = b) →
  List.filter (λ x, key x =? k)%Z (List.filter g l)
  = if b then List.filter (λ x, key x =? k)%Z l else [].
Proof.
  induction l as [|x l IH]; intros Hg; [by destruct b|].
  assert (∀ y, y ∈ l → key y = k → g y = b) as Hg'
    by (intros y Hy; apply Hg; rewrite elem_of_cons; auto).
  specialize (IH Hg'). cbn [List.filter].
  destruct (Z.eqb_spec (key x) k) as [Hk|Hk].
  - rewrite (Hg x) by (rewrite ?elem_of_cons; auto).
    destruct b; cbn [List.filter]; [|done].
    destruct (Z.eqb_spec (key x) k); [|done]. by rewrite IH.
  - destruct (g x); cbn [List.filter]; [|done].
    by destruct (Z.eqb_spec (key x) k).
Qed.

End Order.

(** Where the local times keep their order as time values, the order
    of the keys [(date, time)] is the order of the time values. *)
Lemma key_compare_keeps_order l a b :
  keeps_order UTC l → a ∈ l → b ∈ l →
  well_formed a = true → well_formed b = true →
  key_compare a b = (stamp UTC a ?= stamp UTC b)%Z.
Proof.
  intros Hkeep Hal Hbl Ha Hb.
  destruct (well_formed_getTime UTC a Ha) as (ta & Hla & Ea).
  destruct (well_formed_getTime UTC b Hb) as (tb & Hlb & Eb).
  unfold stamp. rewrite Ea, Eb. cbn.
  rewrite (key_compare_local a b ta tb) by done.
  destruct (Z.compare_spec ta tb) as [->|Hlt|Hgt]; symmetry.
  - apply Z.compare_refl.
  - apply Z.compare_lt_iff. by apply (Hkeep a b ta tb).
  - apply Z.compare_gt_iff. by apply (Hkeep b a tb ta).
Qed.

(** X21. In a timeline that is newest first, of a project ID that is
    not inherited from [Object.prototype], the new entry takes its place
    behind the entries that are not older than it (those of the same
    date and time among them) and before the older ones, which all keep
    their order, when the local times of the entries keep their order as
    time values. *)
Theorem entry_position (st : State) (nowId nowCreated nowUpdated : N)
  (tx : nat → TxOutcome) (p : string) :
  admitted p st →
  all_complete tx 0 (length (entryPhotos st)) →
  inherited (inspections st) p = false →
  valid_date (entryDate st) = true →
  valid_time (entryTime st) = true →
  Forall (λ e, well_formed e = true) (default [] (inspections st !! p)) →
  StronglySorted not_older (default [] (inspections st !! p)) →
  keeps_order UTC
    (default [] (inspections st !! p)
     ++ [newEntry p nowId nowCreated nowUpdated st]) →
  let old := default [] (inspections st !! p) in
  let entry := newEntry p nowId nowCreated nowUpdated st in
  let st' := (saveInspectionEntry UTC nowId nowCreated nowUpdated tx st).2 in
  InspectionList p None st = Some old
  ∧ InspectionList p None st'
    = Some (List.filter (λ e, negb (older e entry)) old
            ++ entry :: List.filter (λ e, older e entry) old).
Proof.
  intros Hadm Hall Hown Hd Ht Hwf Hsorted Hkeep old entry st'.
  destruct (saveInspectionEntry_resolved UTC nowId nowCreated nowUpdated tx
              st p Hadm Hall Hown) as (st1 & Hrun & Hins & _).
  unfold st'. rewrite Hrun. cbn [snd]. fold entry old in Hins.
  split; [by apply InspectionList_stored|].
  rewrite (InspectionList_stored st1 p)
    by (apply inherited_false; left; by rewrite Hins, lookup_insert_eq).
  rewrite Hins, lookup_insert_eq. cbn [default from_option id]. f_equal.
  fold old entry in Hwf, Hsorted, Hkeep.
  assert (well_formed entry = true) as Hentry.
  { unfold well_formed, entry, newEntry. cbn. by rewrite Hd, Ht. }
  assert (Forall (λ e, well_formed e = true) (old ++ [entry])) as Hall_wf.
  { apply Forall_app. split; [done|]. by constructor. }
  rewrite Forall_forall in Hwf.
  assert (∀ x, x ∈ old →
            older x entry = (stamp UTC x <? stamp UTC entry)%Z) as Holder.
  { intros x Hx. unfold older.
    rewrite (key_compare_keeps_order (old ++ [entry]) x entry Hkeep);
      [|set_solver|set_solver|by apply Hwf|done].
    unfold Z.ltb. by destruct (_ ?= _)%Z. }
  assert (descending (stamp UTC) old) as Hdesc.
  { eapply (StronglySorted_impl_on (λ e, well_formed e = true ∧ e ∈ old));
      [| |exact Hsorted].
    - intros a b [Ha Hal] [Hb Hbl] Hno. unfold not_older in Hno.
      rewrite (key_compare_keeps_order (old ++ [entry]) a b Hkeep) in Hno;
        [|set_solver|set_solver|done|done].
      rewrite Z.compare_lt_iff in Hno. cbv beta. lia.
    - apply Forall_forall. auto. }
  symmetry. apply (Array_sort_unique _ (stamp UTC)).
  - by apply newestFirst_by_key.
  - unfold descending in *. apply StronglySorted_app. split; [|split].
    + intros x1 x2 [Hx1 Ho1]%list_elem_of_In%filter_In.
      apply list_elem_of_In in Hx1. rewrite Holder in Ho1 by done.
      apply negb_true_iff, Z.ltb_ge in Ho1.
      intros [->|[Hx2 Ho2]%list_elem_of_In%filter_In]%elem_of_cons; [done|].
      apply list_elem_of_In in Hx2. rewrite Holder in Ho2 by done.
      apply Z.ltb_lt in Ho2. lia.
    + by apply filter_StronglySorted.
    + constructor.
      * by apply filter_StronglySorted.
      * apply Forall_forall.
        intros x [Hx Ho]%list_elem_of_In%filter_In.
        apply list_elem_of_In in Hx. rewrite Holder in Ho by done.
        apply Z.ltb_lt in Ho. lia.
  - intros k. rewrite !List.filter_app. cbn [List.filter].
    destruct (Z.compare_spec k (stamp UTC entry)) as [->|Hlt|Hgt].
    + rewrite Z.eqb_refl.
      rewrite (filter_filter_key _ _ _ true), (filter_filter_key _ _ _ false).
      * done.
      * intros x Hx Hk. rewrite Holder by done. apply Z.ltb_ge. lia.
      * intros x Hx Hk. rewrite Holder by done.
        apply negb_true_iff, Z.ltb_ge. lia.
    + destruct (Z.eqb_spec (stamp UTC entry) k) as [?|_]; [lia|].
      rewrite (filter_filter_key _ _ _ false), (filter_filter_key _ _ _ true).
      * by rewrite app_nil_r.
      * intros x Hx Hk. rewrite Holder by done. apply Z.ltb_lt. lia.
      * intros x Hx Hk. rewrite Holder by done.
        apply negb_false_iff, Z.ltb_lt. lia.
    + destruct (Z.eqb_spec (stamp UTC entry) k) as [?|_]; [lia|].
      rewrite (filter_filter_key _ _ _ true), (filter_filter_key _ _ _ false).
      * by rewrite !app_nil_r.
      * intros x Hx Hk. rewrite Holder by done. apply Z.ltb_ge. lia.
      * intros x Hx Hk. rewrite Holder by done.
        apply negb_true_iff, Z.ltb_ge. lia.
Qed.

End Coverage.

(** ** The two hosts *)

Lemma JSON_codec_read_back {T : Type} `{Countable T} (m : T) :
  @JSON_parse T JSON_codec (@JSON_stringify T JSON_codec m) = Some m
  ∧ JS.truthy (@JSON_stringify T JSON_codec m) = true.
Proof.
  cbn. unfold JS.decimal.
  assert (N.to_uint (N.pos (encode m)) ≠ Decimal.Nil) as Hnonnil
    by apply DecimalPos.Unsigned.to_uint_nonnil.
  rewrite NilZero.usu by done.
  rewrite DecimalN.Unsigned.of_to, decode_encode. split; [done|].
  unfold NilZero.string_of_uint.
  by destruct (N.to_uint _).
Qed.

(** ** The model on the host of the session *)

Section Instances.
#[local] Existing Instance JSON_projects_host.
#[local] Existing Instance JSON_inspections_host.
#[local] Existing Instance engine_host.

(** The scenario of the specification. *)
Example scenario_timeline :
  InspectionList "10234" None session5
  = Some (default [] (inspections session5 !! "10234"))
  ∧ InspectionEntry.time <$> default [] (inspections session5 !! "10234")
    = ["14:30"; "09:00"]
  ∧ InspectionList "10234" (Some "2024-03-02") session5 = Some []
  ∧ InspectionEntry.photoKeys <$> default [] (inspections session5 !! "10234")
    = [[]; ["10234/inspections/2000/photo-0";
            "10234/inspections/2000/photo-1"]]
  ∧ photoStore session5 !! "10234/inspections/2000/photo-1" = Some photo2.
Proof. by vm_compute. Qed.

Example sha256Base64_abc :
  sha256Base64 "abc" = "ungWv48Bz+pBQUDeXa4iI7ADYaOWF3qctBD/YfIAFa0=".
Proof. by vm_compute. Qed.

(** *** Instances of the properties *)

Lemma utc_keeps_order l : keeps_order utc l.
Proof. by intros a b ta tb _ _ _ _ H. Qed.

Lemma entries_newest_first_witness :
  ∃ l,
    inspections session5 !! "10234" = Some l
    ∧ InspectionList "10234" None session5 = Some l
    ∧ l ≡ₚ default [] (inspections session4 !! "10234")
          ++ [newEntry "10234" 3000 3001 3001 session4]
    ∧ Forall (λ e, well_formed e = true) l
    ∧ descending (stamp utc) l
    ∧ StronglySorted not_older l
    ∧ ∀ d t,
        List.filter (same_key d t) l
        = List.filter (same_key d t)
            (default [] (inspections session4 !! "10234")
             ++ [newEntry "10234" 3000 3001 3001 session4]).
Proof.
  destruct (entries_newest_first utc session4 3000 3001 3001 always_complete
              "10234")
    as (l & Hl & Hlist & Hperm & Hwf & Hdesc & _ & Hstable & Hsorted).
  - by vm_compute.
  - intros j _. reflexivity.
  - by vm_compute.
  - by vm_compute.
  - by vm_compute.
  - apply (bool_decide_unpack
             (Forall (λ e, well_formed e = true)
                (default [] (inspections session4 !! "10234")))).
    by vm_compute.
  - exists l. do 5 (split; [done|]). split; [|done].
    apply Hsorted, utc_keeps_order.
Defined.

(** C1, as stated, fails in two ways. In New York an entry at 02:30 of
    10 March 2024, an hour that daylight saving time skips, has the time
    value of 03:30: submitted before an entry at 03:00 it stays before
    it, and the stored list is not in descending order of
    [(date, time)]. Under the project ID ["toString"] the submission
    throws once the photos are written, and no list is stored. *)
Lemma entries_not_newest_first :
  (InspectionEntry.date <$> default [] (inspections spring_forward2 !! "10234")
   = ["2024-03-10"; "2024-03-10"]
   ∧ InspectionEntry.time <$> default [] (inspections spring_forward2 !! "10234")
     = ["02:30"; "03:00"]
   ∧ ¬ StronglySorted not_older
         (default [] (inspections spring_forward2 !! "10234")))
  ∧ (admitted "toString" named_toString
     ∧ (saveInspectionEntry utc 5000 5001 5001 always_complete
          named_toString).1 = Rejected
     ∧ inspections
         (saveInspectionEntry utc 5000 5001 5001 always_complete
            named_toString).2 !! "toString" = None).
Proof.
  split; [|by vm_compute].
  split; [by vm_compute|]. split; [by vm_compute|].
  destruct (default [] (inspections spring_forward2 !! "10234"))
    as [|a [|b rest]] eqn:E; [by vm_compute in E..|].
  vm_compute in E. injection E as <- <- <-.
  intros Hs. inversion Hs as [|? ? _ Hall]. inversion Hall as [|? ? Hab _].
  by apply Hab.
Qed.


(** The photo written before the failure stays in the photo store. *)
Example orphaned_photo :
  let st' := (saveInspectionEntry utc 2000 2001 2001 failing_second session2).2 in
  photoStore st' !! "10234/inspections/2000/photo-0" = Some photo1
  ∧ InspectionList "10234" None st' = Some [].
Proof. by vm_compute. Qed.

(** C3, at the project ID ["__proto__"]. The assignment
    [next["__proto__"] = {...}] reaches the setter of
    [Object.prototype]: no record is stored, by the first save and by
    the second, the collection stays as it was, and each save reports an
    update. *)
Theorem saveProject_proto :
  JS.trim (DataForm.id form_proto) = "__proto__"
  ∧ projects proto1 !! "__proto__" = None
  ∧ projects proto2 !! "__proto__" = None
  ∧ projects proto1 = projects session0
  ∧ projects proto2 = projects session0
  ∧ head (toasts proto1) = Some (ToastSuccess "Project updated.")
  ∧ head (toasts proto2) = Some (ToastSuccess "Project updated.")
  ∧ view proto2 = ViewHome.
Proof. by vm_compute. Qed.

Lemma saveProject_twice_witness :
  let st := set_dataForm form_first session0 in
  let st1 := saveProject 1000 st in
  let st2 := saveProject 2000 (set_dataForm form_again st1) in
  size (projects st2) = size (projects st1)
  ∧ ∃ r1 r2,
      projects st1 !! "10234" = Some r1
      ∧ projects st2 !! "10234" = Some r2
      ∧ ProjectMeta.createdAt r2 = ProjectMeta.createdAt r1
      ∧ ProjectMeta.updatedAt r1 = 1000%N
      ∧ ProjectMeta.updatedAt r2 = 2000%N
      ∧ ((1000 ≤ 2000)%N →
         (∀ r0, projects st !! "10234" = Some r0 →
                (ProjectMeta.createdAt r0 ≤ 1000)%N) →
         (ProjectMeta.createdAt r2 ≤ ProjectMeta.updatedAt r2)%N).
Proof.
  apply (saveProject_twice
           (set_dataForm form_first session0)
           form_again 1000 2000).
  - by vm_compute.
  - by vm_compute.
  - intros H. by vm_compute in H.
Defined.

(** C7, at the project ID ["toString"] with a filter date. The
    collection has no timeline of this name, and [inspections[projectId]]
    is the function [Object.prototype.toString]: it is truthy, so the
    empty list does not stand in for it, and it has no method [filter]:
    rendering throws. So it does, without a filter too, for
    ["constructor"] and ["__proto__"], which have no method [map]. *)
Theorem timeline_throws :
  inspections session5 !! "toString" = None
  ∧ InspectionList "toString" (Some "2024-03-01") session5 = None
  ∧ InspectionList "constructor" None session5 = None
  ∧ InspectionList "__proto__" None session5 = None
  ∧ displayedTimeline
      (reportByDate
         (set_reportDate "2024-03-01" (set_reportId "toString" session5)))
    = None.
Proof. by vm_compute. Qed.

Lemma timeline_filter_witness :
  InspectionList "10234" None session6
  = Some (default [] (inspections session6 !! "10234"))
  ∧ InspectionList "10234" (Some "2024-03-01") session6
    = Some (List.filter
              (λ e, String.eqb (InspectionEntry.date e) "2024-03-01")
              (default [] (inspections session6 !! "10234")))
  ∧ InspectionEntry.time <$> default [] (inspections session6 !! "10234")
    = ["08:15"; "14:30"; "09:00"]
  ∧ InspectionEntry.time
      <$> List.filter (λ e, String.eqb (InspectionEntry.date e) "2024-03-01")
            (default [] (inspections session6 !! "10234"))
    = ["14:30"; "09:00"].
Proof.
  destruct (timeline_filter session6 "10234" "2024-03-01")
    as (Hall & Hshown & _); [discriminate|by vm_compute|].
  split; [exact Hall|]. split; [exact Hshown|]. clear Hall Hshown.
  split; vm_compute; reflexivity.
Defined.

Lemma load_absent_or_corrupted_witness :
  loadProjects corrupted_storage = ∅
  ∧ loadInspections corrupted_storage = ∅.
Proof.
  destruct (load_absent_or_corrupted corrupted_storage)
    as (_ & Hcorrupted & Habsent & _).
  split.
  - apply (Hcorrupted "{not json"); reflexivity.
  - apply Habsent. reflexivity.
Defined.

Lemma passcode_contract_witness :
  localStorage (setCredential "abcd" "abcd" session0) !! LS_PASSCODE_HASH
  = Some "iNQmb9TmM40TuEX88olXnSCciXgjuSF9o+Fhk28DFYk="
  ∧ verify "abcd" (setCredential "abcd" "abcd" session0) = true
  ∧ verify "wrong" (setCredential "abcd" "abcd" session0) = false
  ∧ localStorage (setCredential "abc" "abc" session0) = localStorage session0
  ∧ localStorage (setCredential "abcd" "abcx" session0)
    = localStorage session0.
Proof.
  destruct passcode_contract as (Hset & _ & _ & _ & Hrejected).
  destruct (Hset session0) as (Hstored & Hright & Hwrong).
  split; [exact Hstored|]. split; [exact Hright|]. split; [exact Hwrong|].
  split.
  - apply (Hrejected session0 "abc" "abc"). left. vm_compute. lia.
  - apply (Hrejected session0 "abcd" "abcx"). right. discriminate.
Defined.

(** C5, as stated, fails on a fresh installation: setting the passcode
    leaves the gate unlocked, not locked. *)
Lemma setCredential_not_locked :
  gate session0 = NoCredential
  ∧ localStorage (setCredential "abcd" "abcd" session0) !! LS_PASSCODE_HASH
    = Some (sha256Base64 "abcd")
  ∧ gate (setCredential "abcd" "abcd" session0) = Unlocked
  ∧ gate (setCredential "abcd" "abcd" session0) ≠ Locked.
Proof. by vm_compute. Qed.

(** C6, when two submissions to one project read the same
    [Date.now()]: the two entries get the same ID, against the comment
    of the type ([id: string; // unique id]), and the same photo key; the
    photo of the second replaces that of the first in the photo store. *)
Theorem photoKeys_not_unique :
  InspectionEntry.id <$> default [] (inspections same_millisecond !! "10234")
  = ["2000"; "2000"]
  ∧ key_at (inspections same_millisecond) "10234" 0 0
    = Some "10234/inspections/2000/photo-0"
  ∧ key_at (inspections same_millisecond) "10234" 1 0
    = Some "10234/inspections/2000/photo-0"
  ∧ photoStore same_millisecond !! "10234/inspections/2000/photo-0"
    = Some photo2
  ∧ ¬ unique_photoKeys (inspections same_millisecond).
Proof.
  assert (key_at (inspections same_millisecond) "10234" 0 0
          = Some "10234/inspections/2000/photo-0") as H0 by (by vm_compute).
  assert (key_at (inspections same_millisecond) "10234" 1 0
          = Some "10234/inspections/2000/photo-0") as H1 by (by vm_compute).
  split; [by vm_compute|].
  split; [exact H0|]. split; [exact H1|]. split; [by vm_compute|].
  intros Hunique. destruct (Hunique _ _ _ _ _ _ _ H0 H1) as (_ & Hn & _).
  discriminate Hn.
Qed.

Lemma photoKeys_of_entry_witness :
  let entry := newEntry "10234" 2000 2001 2001 session2 in
  InspectionEntry.photoKeys entry
  = ["10234/inspections/2000/photo-0"; "10234/inspections/2000/photo-1"]
  ∧ (∃ l, inspections session3 !! "10234" = Some l ∧ entry ∈ l)
  ∧ unique_photoKeys (inspections session3).
Proof.
  destruct (photoKeys_of_entry utc session2 2000 2001 2001 always_complete
              "10234") as (Hstored & _ & Hkeys & _ & _ & Hunique).
  - by vm_compute.
  - intros j _. reflexivity.
  - split; [reflexivity|]. split; [by apply Hstored|].
    apply Hunique.
    + intros p l e Hp. by vm_compute in Hp.
    + intros p l Hp. by vm_compute in Hp.
    + vm_compute. apply not_elem_of_nil.
Defined.



End Instances.

(** ** The visit *)

Section Visits.
Context {JSON_projects : JSON (gmap string ProjectMeta.t)}.
Context {JSON_inspections : JSON (gmap string (list InspectionEntry.t))}.
Context {engine : Engine}.

Lemma unlocked_not_auth_view st : authed st = true → ¬ auth_view st.
Proof. intros E [E' _]. congruence. Qed.

Ltac stepped c :=
  eapply rtc_r;
  [|apply c; first [by apply unlocked_not_auth_view; vm_compute
                   |by vm_compute]].

Lemma visit_sets_passcode : rtc (step utc) visit0 visit1.
Proof.
  unfold visit1, setCredential.
  stepped step_handleSetPasscode.
  stepped step_passcodeConfirm.
  stepped step_passcodeInput.
  apply rtc_refl.
Qed.

Lemma visit_enters_data : rtc (step utc) visit1 visit5.
Proof.
  unfold visit5. stepped step_saveInspectionEntry.
  stepped step_entryTime.
  unfold visit4. stepped step_saveInspectionEntry.
  unfold visit3. stepped step_addPhotos.
  stepped step_notes.
  stepped step_proceedInspection.
  stepped step_inspectionId.
  stepped step_homeInspection.
  unfold visit2. stepped step_saveProject.
  stepped step_dataForm.
  stepped step_homeData.
  apply rtc_refl.
Qed.

Lemma visit_signs_out : rtc (step utc) visit5 visit7.
Proof.
  unfold visit7. stepped step_handleSignOut.
  unfold visit6. stepped step_photoURLFromKey.
  apply rtc_refl.
Qed.

Lemma visit_reachable st : rtc (step utc) visit0 st → reachable utc st.
Proof. intros H. by exists ∅, ∅, "2024-03-01", "09:00". Qed.

Lemma visit5_reachable : reachable utc visit5.
Proof.
  apply visit_reachable.
  etrans; [apply visit_sets_passcode|apply visit_enters_data].
Qed.

Lemma visit7_reachable : reachable utc visit7.
Proof.
  apply visit_reachable.
  etrans; [apply visit_sets_passcode|].
  etrans; [apply visit_enters_data|apply visit_signs_out].
Qed.

Lemma utc_increasing s t : (s < t)%Z → (utc s < utc t)%Z.
Proof. done. Qed.

End Visits.

(** ** The properties of the steps on the visit *)

Section CoverageInstances.
#[local] Existing Instance JSON_projects_host.
#[local] Existing Instance JSON_inspections_host.
#[local] Existing Instance engine_host.

Lemma gate_transitions_witness :
  (localStorage visit1 !! LS_PASSCODE_HASH = Some (sha256Base64 "abcd")
   ∧ gate visit1 = Unlocked ∧ authed visit1 = true ∧ view visit1 = ViewHome)
  ∧ gate visit7 = Locked
  ∧ gate (set_passcodeInput "wrong" visit7) = Locked
  ∧ gate (handleSignIn (set_passcodeInput "wrong" visit7)) = Locked
  ∧ gate (handleSignIn (set_passcodeInput "abcd" visit7)) = Unlocked
  ∧ gate (mount (localStorage visit7) ∅ "2024-03-02" "08:00") = Locked.
Proof.
  destruct (gate_transitions utc) as (Hset & Hmount & Hlocked & Hin & Hout).
  split; [apply (Hset visit0 "abcd"); vm_compute; lia|].
  assert (gate visit7 = Locked) as H7.
  { apply (Hout visit6). by vm_compute. }
  split; [exact H7|].
  assert (reachable utc (set_passcodeInput "wrong" visit7)) as Hr.
  { destruct visit7_reachable as (storage & photos & today & now & Hsteps).
    exists storage, photos, today, now.
    eapply rtc_r; [exact Hsteps|]. apply step_passcodeInput. by vm_compute. }
  assert (gate (set_passcodeInput "wrong" visit7) = Locked) as Hw
    by exact H7.
  split; [exact Hw|]. split.
  - destruct (Hlocked (set_passcodeInput "wrong" visit7)
                (handleSignIn (set_passcodeInput "wrong" visit7)) Hr Hw)
      as [H|(_ & _ & _ & H)]; [|exact H|].
    + apply step_handleSignIn; by vm_compute.
    + by vm_compute in H.
  - split.
    + apply (Hin visit7 "abcd" H7); by vm_compute.
    + rewrite Hmount. by vm_compute.
Defined.

Lemma collections_persisted_witness :
  localStorage visit5 !! LS_PROJECTS_KEY
  = Some (JSON_stringify (projects visit5))
  ∧ localStorage visit5 !! LS_INSPECTIONS_KEY
    = Some (JSON_stringify (inspections visit5)).
Proof. apply (collections_persisted utc visit5). apply visit5_reachable. Defined.

Lemma main_views_need_unlock_witness :
  authed visit5 = true ∧ is_Some (credential (localStorage visit5)).
Proof.
  apply (main_views_need_unlock utc visit5).
  - apply visit5_reachable.
  - apply unlocked_not_auth_view. by vm_compute.
Defined.

Lemma credential_never_changes_witness :
  credential (localStorage visit7) = credential (localStorage visit1).
Proof.
  apply (credential_never_changes utc visit1 visit7).
  - apply visit_reachable, visit_sets_passcode.
  - etrans; [apply visit_enters_data|apply visit_signs_out].
  - eexists. by vm_compute.
Defined.

Lemma credential_verifies_witness :
  verify "abcd" (setCredential "abcd" "abcd" visit0) = true
  ∧ (∀ q, verify q (setCredential "abcd" "abcd" visit0) = true
          ↔ q ≠ "" ∧ sha256Base64 q = sha256Base64 "abcd")
  ∧ ∀ photos today now,
      gate (mount (localStorage (setCredential "abcd" "abcd" visit0))
              photos today now) = Locked
      ∧ ∀ q, verify q (mount (localStorage (setCredential "abcd" "abcd" visit0))
                         photos today now)
             = verify q (setCredential "abcd" "abcd" visit0).
Proof. apply (credential_verifies visit0 "abcd"). vm_compute. lia. Defined.

Lemma signIn_sound_witness :
  ∃ msg,
    handleSignIn (set_passcodeInput "wrong" visit7)
    = toast_error msg (set_passcodeInput "wrong" visit7).
Proof.
  destruct (signIn_sound (set_passcodeInput "wrong" visit7)) as (_ & _ & H).
  apply H. by vm_compute.
Defined.

Lemma saveProject_keeps_records_witness :
  projects_wf 2000
    (projects
       (saveProject 2000
          (set_dataForm form_again
             (saveProject 1000 (set_dataForm form_first visit1))))).
Proof.
  apply (saveProject_keeps_records
           (set_dataForm form_again
              (saveProject 1000 (set_dataForm form_first visit1)))
           1000 2000); [|lia].
  change (projects_wf 1000
            (projects (saveProject 1000 (set_dataForm form_first visit1)))).
  apply (saveProject_keeps_records (set_dataForm form_first visit1) 0 1000);
    [|lia].
  intros k r Hk. by vm_compute in Hk.
Defined.

Lemma blank_id_refused_witness :
  proceedInspection (set_inspectionId "  " visit2)
  = toast_error "Enter a Project ID." (set_inspectionId "  " visit2).
Proof.
  destruct (blank_id_refused (set_inspectionId "  " visit2) 0) as (_ & H & _).
  apply H. by repeat constructor.
Defined.

Lemma saveProject_creates_witness :
  let st := set_dataForm form_first (homeData visit1) in
  (size (projects (saveProject 1000 st)) = S (size (projects st))
   ∧ projects (saveProject 1000 st) !! "10234"
     = Some {| ProjectMeta.id := "10234";
               ProjectMeta.address := "123 Main St";
               ProjectMeta.scope := "";
               ProjectMeta.createdAt := 1000;
               ProjectMeta.updatedAt := 1000 |})
  ∧ toasts (saveProject 1000 st) = ToastSuccess "Project created." :: toasts st
  ∧ projects (saveProject 1000 (set_dataForm form_proto (homeData visit1)))
    = projects (set_dataForm form_proto (homeData visit1)).
Proof.
  destruct (saveProject_creates (set_dataForm form_first (homeData visit1))
              1000) as (Hcreated & _ & Htoast & _); [by vm_compute..|].
  destruct (saveProject_creates (set_dataForm form_proto (homeData visit1))
              1000) as (_ & Hproto & _); [by vm_compute..|].
  split; [apply Hcreated; by vm_compute|]. split; [exact Htoast|].
  apply Hproto. by vm_compute.
Defined.

Lemma ids_stay_normal_witness : ids_normal visit5.
Proof.
  apply (ids_stay_normal utc ∅ ∅ "2024-03-01" "09:00" visit5).
  - split; [|split]; [intros ?? H|intros ?? H|intros ? H]; by vm_compute in H.
  - etrans; [apply visit_sets_passcode|apply visit_enters_data].
Defined.

Lemma refused_submission_witness :
  let '(o, st') := saveInspectionEntry utc 2000 2001 2001 always_complete visit2 in
  o = Resolved
  ∧ (st' = visit2 ∨ st' = toast_error "Enter date and time." visit2)
  ∧ idbLog st' = idbLog visit2 ∧ photoStore st' = photoStore visit2
  ∧ inspections st' = inspections visit2
  ∧ localStorage st' = localStorage visit2
  ∧ entryPhotos st' = entryPhotos visit2.
Proof.
  apply (refused_submission utc visit2 2000 2001 2001 always_complete).
  left. by vm_compute.
Defined.

Lemma photos_stored_witness :
  (∀ j f, entryPhotos visit3 !! j = Some f →
     ∃ k, InspectionEntry.photoKeys (newEntry "10234" 2000 2001 2001 visit3) !! j
          = Some k
          ∧ photoStore visit4 !! k = Some f
          ∧ (photoURLCache visit3 !! k = None →
             ∃ url st2,
               photoURLFromKey TxComplete k visit4 = (Resolved, url, st2)
               ∧ url ≠ ""))
  ∧ (∀ k, k ∉ InspectionEntry.photoKeys (newEntry "10234" 2000 2001 2001 visit3) →
          photoStore visit4 !! k = photoStore visit3 !! k).
Proof.
  apply (photos_stored utc visit3 2000 2001 2001 always_complete "10234").
  - by vm_compute.
  - intros j _. reflexivity.
Defined.

Lemma submitted_entry_listed_witness :
  let st := set_entryTime "14:30" visit4 in
  let entry := newEntry "10234" 3000 3001 3001 st in
  (∃ old new,
     InspectionList "10234" None st = Some old
     ∧ InspectionList "10234" None visit5 = Some new
     ∧ new ≡ₚ old ++ [entry])
  ∧ (∃ old new,
       InspectionList "10234" (Some "2024-03-01") st = Some old
       ∧ InspectionList "10234" (Some "2024-03-01") visit5 = Some new
       ∧ ∀ e, e ∈ new ↔ e ∈ old ∨ (e = entry ∧ "2024-03-01" = entryDate st)).
Proof.
  destruct (submitted_entry_listed utc (set_entryTime "14:30" visit4)
              3000 3001 3001 always_complete "10234")
    as (Hfull & Hdate & _).
  - by vm_compute.
  - intros j _. reflexivity.
  - by vm_compute.
  - split; [exact Hfull|]. apply Hdate. discriminate.
Defined.

Lemma first_entry_witness :
  InspectionList "10234" None visit4
  = Some [newEntry "10234" 2000 2001 2001 visit3]
  ∧ projects visit4 !! "10234" = projects visit3 !! "10234".
Proof.
  apply (first_entry utc visit3 2000 2001 2001 always_complete "10234").
  - by vm_compute.
  - intros j _. reflexivity.
  - by vm_compute.
  - by vm_compute.
Defined.

Lemma inherited_id_rejected_witness :
  let st :=
    addPhotos [photo1]
      (proceedInspection (set_inspectionId "toString" (homeInspection visit5)))
  in
  let '(o, st') := saveInspectionEntry utc 5000 5001 5001 always_complete st in
  o = Rejected
  ∧ inspections st' = inspections st
  ∧ toasts st' = toasts st
  ∧ entryPhotos st' = [photo1]
  ∧ photoStore st' !! "toString/inspections/5000/photo-0" = Some photo1
  ∧ InspectionList "toString" (Some "2024-03-01") st' = None.
Proof.
  cbv zeta.
  set (st := addPhotos [photo1]
               (proceedInspection
                  (set_inspectionId "toString" (homeInspection visit5)))).
  assert (admitted "toString" st) as Hadm by (by vm_compute).
  assert (all_complete always_complete 0 (length (entryPhotos st))) as Hall
    by (intros j _; reflexivity).
  assert (inherited (inspections st) "toString" = true) as Hinh
    by (by vm_compute).
  pose proof (inherited_id_rejected utc st 5000 5001 5001 always_complete
                "toString" Hadm Hall Hinh) as H.
  destruct (saveInspectionEntry utc 5000 5001 5001 always_complete st)
    as [o st'].
  destruct H as (Ho & Hins & _ & Htoasts & Hphotos & Hstore & Hlist & _).
  split; [exact Ho|]. split; [exact Hins|]. split; [exact Htoasts|].
  split; [exact Hphotos|]. split.
  - apply (Hstore 0%nat photo1). reflexivity.
  - apply Hlist. discriminate.
Defined.

Lemma cache_one_url_per_key_witness : cache_ok visit7.
Proof. apply (cache_one_url_per_key utc visit7). apply visit7_reachable. Defined.

Lemma newestFirst_sign_witness :
  ∃ v,
    newestFirst utc (newEntry "10234" 2000 2001 2001 visit3)
      (newEntry "10234" 3000 3001 3001 (set_entryTime "14:30" visit4)) = Some v
    ∧ v = (stamp utc (newEntry "10234" 3000 3001 3001
                        (set_entryTime "14:30" visit4))
           - stamp utc (newEntry "10234" 2000 2001 2001 visit3))%Z
    ∧ ((0 < v)%Z ↔
       key_compare (newEntry "10234" 2000 2001 2001 visit3)
         (newEntry "10234" 3000 3001 3001 (set_entryTime "14:30" visit4)) = Lt)
    ∧ (v = 0%Z ↔
       key_compare (newEntry "10234" 2000 2001 2001 visit3)
         (newEntry "10234" 3000 3001 3001 (set_entryTime "14:30" visit4)) = Eq)
    ∧ ((v < 0)%Z ↔
       key_compare (newEntry "10234" 2000 2001 2001 visit3)
         (newEntry "10234" 3000 3001 3001 (set_entryTime "14:30" visit4)) = Gt).
Proof.
  apply (newestFirst_sign utc utc_increasing); by vm_compute.
Defined.

Lemma timelines_stay_sorted_witness : timelines_ok (inspections visit5).
Proof.
  apply (timelines_stay_sorted utc utc_increasing (set_entryTime "14:30" visit4)
           3000 3001 3001 always_complete); [|by vm_compute..].
  change (timelines_ok
            (inspections
               (saveInspectionEntry utc 2000 2001 2001 always_complete
                  visit3).2)).
  apply (timelines_stay_sorted utc utc_increasing visit3
           2000 2001 2001 always_complete); [|by vm_compute..].
  intros p l H. by vm_compute in H.
Defined.

Lemma entry_position_witness :
  let st := set_entryTime "14:30" visit4 in
  let old := default [] (inspections st !! "10234") in
  let entry := newEntry "10234" 3000 3001 3001 st in
  InspectionList "10234" None st = Some old
  ∧ InspectionList "10234" None visit5
    = Some (List.filter (λ e, negb (older e entry)) old
            ++ entry :: List.filter (λ e, older e entry) old).
Proof.
  apply (entry_position utc (set_entryTime "14:30" visit4)
           3000 3001 3001 always_complete "10234").
  - by vm_compute.
  - intros j _. reflexivity.
  - by vm_compute.
  - by vm_compute.
  - by vm_compute.
  - apply (bool_decide_unpack
             (Forall (λ e, well_formed e = true)
                (default []
                   (inspections (set_entryTime "14:30" visit4) !! "10234")))).
    by vm_compute.
  - vm_compute. repeat constructor.
  - by intros a b ta tb _ _ _ _ H.
Defined.

End CoverageInstances.

(** ** Restarting on a host that reads back what it wrote *)

Section Restart.
#[local] Existing Instance JSON_projects_codec.
#[local] Existing Instance JSON_inspections_codec.
#[local] Existing Instance engine_host.

Lemma restart_restores_witness :
  let st' := mount (localStorage visit7) ∅ "2024-03-02" "08:00" in
  projects st' = projects visit7
  ∧ inspections st' = inspections visit7
  ∧ localStorage st' = localStorage visit7
  ∧ hasPasscode st' = hasPasscode visit7
  ∧ authed st' = false ∧ view st' = ViewAuth.
Proof.
  apply (restart_restores utc visit7 ∅ "2024-03-02" "08:00").
  - apply visit7_reachable.
  - apply JSON_codec_read_back.
  - apply JSON_codec_read_back.
  - apply JSON_codec_read_back.
  - apply JSON_codec_read_back.
Defined.

End Restart.
